(** * EcoTrack waste-diversion tracker: a shallow embedding of [app.py]

    The development follows the layout of the source file:
    - numbers, errors and data frames (the fragment of pandas that the
      program uses);
    - the helper functions [load_data], [save_entry], [get_waste_advice];
    - the computations of the dashboard, analyst and gamification pages.

    Conventions of the model.
    - A finite number is a rational; infinities and NaN are kept, because
      the program produces them (a division by a zero column entry).
    - The column sums and the scalar arithmetic of the dashboard and
      gamification pages are machine arithmetic: 64-bit integers that wrap
      around, and binary64 with every result rounded to nearest, in
      numpy's order of summation.  There a last bit decides a level or a
      branch.  The element-wise column arithmetic of the analyst page and
      the regression stay in exact rationals.
    - A calendar date is a day number; [today] stands for
      [datetime.now().date()].
    - A string is a sequence of code points below 256.
    - The CSV file either cannot be parsed or denotes a table; writing a
      table succeeds, and reading it back is lossless. *)

From Stdlib Require Import ZArith QArith Qround Qabs Qpower.
From Stdlib Require Import List Permutation String Ascii Bool.
From Stdlib Require Import Lia Lqa Setoid Morphisms.
Import ListNotations.

(* ================================================================== *)
(** ** Numbers *)

Inductive float : Type :=
| Fin (q : Q)
| PInf
| NInf
| NaN.

(** Floor division and remainder of rationals by a positive integer;
    the remainder has the sign of the divisor. *)
Definition Qfloordiv (a : Q) (n : positive) : Z :=
  Qfloor (a / inject_Z (Zpos n)).

Definition Qmod (a : Q) (n : positive) : Q :=
  a - inject_Z (Zpos n) * inject_Z (Qfloordiv a n).

Module Float.

Definition zero : float := Fin 0.

Definition is_zero (q : Q) : bool := Qeq_bool q 0.
Definition is_neg (q : Q) : bool := negb (Qle_bool 0 q).

(** IEEE addition on the extended rationals. *)
Definition add (x y : float) : float :=
  match x, y with
  | NaN, _ | _, NaN => NaN
  | Fin a, Fin b => Fin (a + b)
  | PInf, NInf | NInf, PInf => NaN
  | PInf, _ | _, PInf => PInf
  | NInf, _ | _, NInf => NInf
  end.

(** numpy true division: a zero divisor gives an infinity, or NaN for
    [0 / 0]; it does not raise. *)
Definition div (x y : float) : float :=
  match x, y with
  | NaN, _ | _, NaN => NaN
  | Fin a, Fin b =>
      if is_zero b
      then if is_zero a then NaN else if is_neg a then NInf else PInf
      else Fin (a / b)
  | Fin _, _ => Fin 0
  | PInf, Fin b => if is_neg b then NInf else PInf
  | NInf, Fin b => if is_neg b then PInf else NInf
  | _, _ => NaN
  end.

Definition mul (x y : float) : float :=
  match x, y with
  | NaN, _ | _, NaN => NaN
  | Fin a, Fin b => Fin (a * b)
  | PInf, Fin b | Fin b, PInf =>
      if is_zero b then NaN else if is_neg b then NInf else PInf
  | NInf, Fin b | Fin b, NInf =>
      if is_zero b then NaN else if is_neg b then PInf else NInf
  | PInf, PInf | NInf, NInf => PInf
  | PInf, NInf | NInf, PInf => NInf
  end.

(** [x > y]; every comparison with NaN is false. *)
Definition gtb (x y : float) : bool :=
  match x, y with
  | NaN, _ | _, NaN => false
  | Fin a, Fin b => negb (Qle_bool a b)
  | PInf, PInf | NInf, _ | _, PInf => false
  | PInf, _ | _, NInf => true
  end.

(** Equality of numbers up to the representation of a rational. *)
Definition eq (x y : float) : Prop :=
  match x, y with
  | Fin a, Fin b => a == b
  | PInf, PInf | NInf, NInf | NaN, NaN => True
  | _, _ => False
  end.

End Float.

Notation "x =f= y" := (Float.eq x y) (at level 70, no associativity).

(* ================================================================== *)
(** ** Machine numbers *)

(** Rounding of a rational to binary64: 53 significant bits, the exponent
    of the last place not below -1074, the nearest such number and the
    one with the even significand on a tie; overflow at 2^1024. *)
Module Binary64.

Definition pow2 (k : Z) : Q := 2 ^ k.

(** The binade of a positive number: [2^e <= a < 2^(e+1)]. *)
Definition ilog2 (a : Q) : Z :=
  let e := (Z.log2 (Qnum a) - Z.log2 (Zpos (Qden a)))%Z in
  if Qle_bool (pow2 e) a then e else (e - 1)%Z.

(** The nearest integer, the even one on a tie. *)
Definition rne (m : Q) : Z :=
  let f := Qfloor m in
  match Qcompare (m - inject_Z f) (1 # 2) with
  | Lt => f
  | Gt => (f + 1)%Z
  | Eq => if Z.even f then f else (f + 1)%Z
  end.

(** The exponent of the unit in the last place. *)
Definition ulp_exp (a : Q) : Z := Z.max (ilog2 a - 52) (-1074).

Definition nearest_pos (a : Q) : Q :=
  inject_Z (rne (a / pow2 (ulp_exp a))) * pow2 (ulp_exp a).

Definition nearest (q : Q) : Q :=
  match Qcompare q 0 with
  | Eq => 0
  | Gt => nearest_pos q
  | Lt => - nearest_pos (- q)
  end.

Definition round (q : Q) : float :=
  let r := nearest q in
  if Qle_bool (pow2 1024) r then PInf
  else if Qle_bool r (- pow2 1024) then NInf
  else Fin (Qred r).

(** A binary64 number: a fixed point of the rounding. *)
Definition double (q : Q) : Prop := nearest q == q.

End Binary64.

(** Binary64 arithmetic: the exact result, rounded. *)
Module Float64.

Definition rnd (x : float) : float :=
  match x with
  | Fin q => Binary64.round q
  | _ => x
  end.

Definition opp (x : float) : float :=
  match x with
  | Fin q => Fin (- q)
  | PInf => NInf
  | NInf => PInf
  | NaN => NaN
  end.

Definition add (x y : float) : float := rnd (Float.add x y).
Definition sub (x y : float) : float := add x (opp y).
Definition mul (x y : float) : float := rnd (Float.mul x y).
Definition div (x y : float) : float := rnd (Float.div x y).

(** Conversion of an integer. *)
Definition of_Z (z : Z) : float := Binary64.round (inject_Z z).

Definition trunc (q : Q) : Z := if Qle_bool 0 q then Qfloor q else Qceiling q.

(** C [fmod] by a positive integer: exact, with the sign of the dividend. *)
Definition fmod (a : Q) (n : positive) : Q :=
  a - inject_Z (Zpos n) * inject_Z (trunc (a / inject_Z (Zpos n))).

(** [divmod] of numpy and of Python floats, for a divisor [b] that is a
    positive integer: the remainder is [fmod(a, b)] and the quotient
    [(a - rem) / b]; a negative remainder is moved up by [b] and the
    quotient down by one; the quotient is then snapped to the nearest
    whole number. *)
Definition divmod (x : float) (n : positive) : float * float :=
  match x with
  | Fin a =>
      let b := Fin (inject_Z (Zpos n)) in
      let rem := Fin (fmod a n) in
      let quo := div (sub x rem) b in
      let '(rem, quo) :=
        if Float.gtb Float.zero rem
        then (add rem b, sub quo (Fin 1))
        else (rem, quo) in
      let floordiv :=
        match quo with
        | Fin d =>
            if Float.is_zero d then Float.zero
            else
              let fl := Fin (inject_Z (Qfloor d)) in
              if Float.gtb (sub quo fl) (Fin (1 # 2))
              then add fl (Fin 1)
              else fl
        | _ => quo
        end in
      (floordiv, rem)
  | _ => (NaN, NaN)
  end.

End Float64.

(** A signed 64-bit integer wraps around. *)
Definition wrap64 (z : Z) : Z := ((z + 2 ^ 63) mod 2 ^ 64 - 2 ^ 63)%Z.

(** A numpy scalar: [int64] or [float64]. *)
Inductive number : Type :=
| I64 (z : Z)
| F64 (x : float).

Module Number.

(** The number denoted. *)
Definition value (a : number) : float :=
  match a with
  | I64 z => Fin (inject_Z z)
  | F64 x => x
  end.

(** The conversion that mixed and true-division arithmetic applies. *)
Definition to_float (a : number) : float :=
  match a with
  | I64 z => Float64.of_Z z
  | F64 x => x
  end.

(** [a + b] *)
Definition add (a b : number) : number :=
  match a, b with
  | I64 x, I64 y => I64 (wrap64 (x + y))
  | _, _ => F64 (Float64.add (to_float a) (to_float b))
  end.

(** [a > k] for an integer literal [k]. *)
Definition gtb (a : number) (k : Z) : bool :=
  match a with
  | I64 z => (k <? z)%Z
  | F64 x => Float.gtb x (Fin (inject_Z k))
  end.

(** [a / b]: always a float. *)
Definition truediv (a b : number) : float :=
  Float64.div (to_float a) (to_float b).

(** [a // n] and [a % n] for a positive integer literal [n]. *)
Definition floordiv (a : number) (n : positive) : number :=
  match a with
  | I64 z => I64 (z / Zpos n)
  | F64 x => F64 (fst (Float64.divmod x n))
  end.

Definition modulo (a : number) (n : positive) : number :=
  match a with
  | I64 z => I64 (z mod Zpos n)
  | F64 x => F64 (snd (Float64.divmod x n))
  end.

End Number.

(* ================================================================== *)
(** ** Exceptions *)

Inductive exn : Type :=
| KeyError (k : string)
| TypeError
| ValueError
| OverflowError
| FileNotFoundError
| ParserError.

Inductive result (A : Type) : Type :=
| Ok (a : A)
| Raise (e : exn).
Arguments Ok {A} a.
Arguments Raise {A} e.

Definition bind {A B} (r : result A) (k : A -> result B) : result B :=
  match r with
  | Ok a => k a
  | Raise e => Raise e
  end.

Notation "x <- c ;; k" := (bind c (fun x => k))
  (at level 61, c at next level, right associativity).

Fixpoint mapM {A B} (f : A -> result B) (l : list A) : result (list B) :=
  match l with
  | [] => Ok []
  | a :: l' => b <- f a ;; bs <- mapM f l' ;; Ok (b :: bs)
  end.

(* ================================================================== *)
(** ** Data frames *)

(** An entry of a column: of a float column ([Num]), of an integer
    column ([Int]), text, or a date. *)
Inductive cell : Type :=
| Num (x : float)
| Int (z : Z)
| Text (s : string)
| Day (d : Z).

Definition Series := list cell.

(** Columns in order, each with its name. *)
Definition DataFrame := list (string * Series).

(** [np.add.reduce] on a contiguous array. *)
Module Numpy.

(** On [int64] every addition wraps around. *)
Definition sum_int64 (l : list Z) : Z :=
  fold_left (fun acc z => wrap64 (acc + z)) l 0%Z.

Definition PW_BLOCKSIZE : nat := 128.

(** [res += a[i]] over the elements in order. *)
Definition accumulate (res : float) (l : list float) : float :=
  fold_left Float64.add l res.

(** [r[j] += a[i + j]] for the eight running sums. *)
Definition add8 (r chunk : list float) : list float :=
  map (fun p => Float64.add (fst p) (snd p)) (combine r chunk).

(** The loop over the chunks of eight that follow the first. *)
Fixpoint unrolled (r l : list float) (chunks : nat) : list float :=
  match chunks with
  | O => r
  | S k => unrolled (add8 r (firstn 8 l)) (skipn 8 l) k
  end.

(** [((r[0] + r[1]) + (r[2] + r[3])) + ((r[4] + r[5]) + (r[6] + r[7]))] *)
Definition combine8 (r : list float) : float :=
  let r_ (j : nat) := nth j r NaN in
  Float64.add
    (Float64.add (Float64.add (r_ 0%nat) (r_ 1%nat))
                 (Float64.add (r_ 2%nat) (r_ 3%nat)))
    (Float64.add (Float64.add (r_ 4%nat) (r_ 5%nat))
                 (Float64.add (r_ 6%nat) (r_ 7%nat))).

(** A block of 8 to 128 elements: eight running sums over the chunks of
    eight, combined, then the rest of the elements one by one. *)
Definition block_sum (l : list float) : float :=
  let n := List.length l in
  let r := unrolled (firstn 8 l) (skipn 8 l) (n / 8 - 1) in
  accumulate (combine8 r) (skipn (n - n mod 8) l).

(** [DOUBLE_pairwise_sum]: fewer than 8 elements are added in order, from
    0; up to 128 elements form one block; a longer array is split in two
    at a multiple of 8.  The recursion depth is bounded by [fuel]; the
    length of the array is enough. *)
Fixpoint pairwise_sum (fuel : nat) (l : list float) : float :=
  let n := List.length l in
  if (n <? 8)%nat then accumulate Float.zero l
  else if (n <=? PW_BLOCKSIZE)%nat then block_sum l
  else
    match fuel with
    | O => block_sum l
    | S fuel' =>
        let n2 := (n / 2 - (n / 2) mod 8)%nat in
        Float64.add (pairwise_sum fuel' (firstn n2 l))
                    (pairwise_sum fuel' (skipn n2 l))
    end.

(** The reduction starts from the identity 0 and adds the pairwise sum of
    the whole array. *)
Definition sum_float64 (l : list float) : float :=
  Float64.add Float.zero (pairwise_sum (List.length l) l).

End Numpy.

Module Pandas.

(** [len(df)] *)
Definition len (df : DataFrame) : nat :=
  match df with
  | [] => 0
  | (_, c) :: _ => List.length c
  end.

(** [df[name]] *)
Fixpoint getcol (df : DataFrame) (name : string) : result Series :=
  match df with
  | [] => Raise (KeyError name)
  | (n, c) :: df' => if String.eqb n name then Ok c else getcol df' name
  end.

Definition has_col (df : DataFrame) (name : string) : bool :=
  existsb (fun nc => String.eqb (fst nc) name) df.

(** [df[name] = values]: replaces the column, or adds it last. *)
Fixpoint setcol (df : DataFrame) (name : string) (s : Series) : DataFrame :=
  match df with
  | [] => [(name, s)]
  | (n, c) :: df' =>
      if String.eqb n name then (n, s) :: df' else (n, c) :: setcol df' name s
  end.

(** Arithmetic is modelled on numeric cells; on text and dates it is
    reported as a [TypeError]. *)
Definition num_of (c : cell) : result float :=
  match c with
  | Num x => Ok x
  | Int z => Ok (Fin (inject_Z z))
  | _ => Raise TypeError
  end.

Definition cell_op (op : float -> float -> float) (a b : cell) : result cell :=
  x <- num_of a ;; y <- num_of b ;; Ok (Num (op x y)).

(** Element-wise operation of two columns of one frame. *)
Fixpoint zip_op (op : float -> float -> float) (s t : Series) : result Series :=
  match s, t with
  | a :: s', b :: t' =>
      c <- cell_op op a b ;; r <- zip_op op s' t' ;; Ok (c :: r)
  | _, _ => Ok []
  end.

Definition add := zip_op Float.add.
Definition div := zip_op Float.div.

(** [s * k] for a scalar [k]. *)
Definition scale (s : Series) (k : float) : result Series :=
  mapM (fun a => cell_op Float.mul a (Num k)) s.

(** The type of a column: [int64] when every entry is an integer (also
    when there is no entry), [float64] when some entry is a float. *)
Fixpoint int64_values (s : Series) : option (list Z) :=
  match s with
  | [] => Some []
  | Int z :: s' => option_map (cons z) (int64_values s')
  | _ => None
  end.

(** The entry of a float column as [sum] sees it.  The column holds
    binary64 numbers: an entry written as a rational (the decimal text of
    the file, the value of the input widget) is the nearest one.  A NaN
    entry is skipped, which is to count it as 0. *)
Definition float64_value (c : cell) : result float :=
  match c with
  | Num (Fin q) => Ok (Binary64.round q)
  | Num NaN => Ok Float.zero
  | Num x => Ok x
  | Int z => Ok (Float64.of_Z z)
  | _ => Raise TypeError
  end.

(** [s.sum()] *)
Definition sum (s : Series) : result number :=
  match int64_values s with
  | Some zs => Ok (I64 (Numpy.sum_int64 zs))
  | None => xs <- mapM float64_value s ;; Ok (F64 (Numpy.sum_float64 xs))
  end.

(** [s.fillna(0)] *)
Definition fillna0 (s : Series) : Series :=
  map (fun c => match c with Num NaN => Num Float.zero | _ => c end) s.

(** [pd.concat([df, extra], ignore_index=True)]: the columns of [df]
    first, then the columns only [extra] has; a frame that lacks a
    column contributes NaN for each of its rows. *)
Definition col_or_nan (df : DataFrame) (name : string) : Series :=
  match getcol df name with
  | Ok c => c
  | Raise _ => repeat (Num NaN) (len df)
  end.

Definition concat (df extra : DataFrame) : DataFrame :=
  map (fun nc => (fst nc, snd nc ++ col_or_nan extra (fst nc))) df
  ++ map (fun nc => (fst nc, repeat (Num NaN) (len df) ++ snd nc))
       (filter (fun nc => negb (has_col df (fst nc))) extra).

End Pandas.

(* ================================================================== *)
(** ** The data file *)

(** What is stored under [DATA_FILE]: text that [read_csv] rejects (an
    empty file, a row with too many fields), or the text of a table. *)
Inductive file : Type :=
| Unparseable
| Csv (table : DataFrame).

(** [None]: no file of that name exists. *)
Definition storage := option file.

Definition exists_file (fs : storage) : bool :=
  match fs with Some _ => true | None => false end.

(** [df.to_csv(DATA_FILE, index=False)] replaces the whole file. *)
Definition to_csv (df : DataFrame) (fs : storage) : storage := Some (Csv df).

(** [pd.read_csv(DATA_FILE)] *)
Definition read_csv (fs : storage) : result DataFrame :=
  match fs with
  | None => Raise FileNotFoundError
  | Some Unparseable => Raise ParserError
  | Some (Csv t) => Ok t
  end.

(* ================================================================== *)
(** ** Helper functions *)

Definition int_col (l : list Z) : Series :=
  map (fun z => Num (Fin (inject_Z z))) l.

(** The five records written when there is no file yet.  The quantities
    are Python ints, which pandas keeps as int64 until the first float
    row is appended; they are written here as float entries of the same
    value.  On whole numbers of this size the integer and the binary64
    columns give the same totals, rate, level and progress (see
    the section on integer and float columns below). *)
Definition seed (today : Z) : DataFrame :=
  [ ("Date"%string,
      map (fun i => Day (today - Z.of_nat i * 7)) (seq 0 5));
    ("Recycling"%string, int_col [45; 48; 50; 52; 40]%Z);
    ("Compost"%string, int_col [20; 22; 25; 28; 15]%Z);
    ("Landfill"%string, int_col [100; 95; 90; 85; 110]%Z) ].

Definition load_data (today : Z) (fs : storage) : result DataFrame * storage :=
  let fs := if negb (exists_file fs) then to_csv (seed today) fs else fs in
  (read_csv fs, fs).

Definition save_entry (today : Z) (recycling compost landfill : float)
    (fs : storage) : result DataFrame * storage :=
  match load_data today fs with
  | (Raise e, fs) => (Raise e, fs)
  | (Ok df, fs) =>
      let new_entry : DataFrame :=
        [ ("Date"%string, [Day today]);
          ("Recycling"%string, [Num recycling]);
          ("Compost"%string, [Num compost]);
          ("Landfill"%string, [Num landfill]) ] in
      let df := Pandas.concat df new_entry in
      let fs := to_csv df fs in
      (Ok df, fs)
  end.

(** Code points of characters. *)
Module Str.

Definition code (c : ascii) : nat := nat_of_ascii c.

(** [str.lower] on one character: the upper-case letters are A-Z and,
    above 127, the code points 192-222 except 215. *)
Definition lower_char (c : ascii) : ascii :=
  let n := code c in
  if ((65 <=? n) && (n <=? 90))
     || ((192 <=? n) && (n <=? 222) && negb (n =? 215))
  then ascii_of_nat (n + 32)
  else c.

Fixpoint lower (s : string) : string :=
  match s with
  | EmptyString => EmptyString
  | String c s' => String (lower_char c) (lower s')
  end.

(** The characters [str.strip] removes. *)
Definition is_space (c : ascii) : bool :=
  let n := code c in
  ((9 <=? n) && (n <=? 13)) || ((28 <=? n) && (n <=? 32))
  || (n =? 133) || (n =? 160).

Fixpoint lstrip (s : string) : string :=
  match s with
  | EmptyString => EmptyString
  | String c s' => if is_space c then lstrip s' else s
  end.

Fixpoint rstrip (s : string) : string :=
  match s with
  | EmptyString => EmptyString
  | String c s' =>
      match rstrip s' with
      | EmptyString => if is_space c then EmptyString else String c EmptyString
      | t => String c t
      end
  end.

Definition strip (s : string) : string := rstrip (lstrip s).

(** [key in item] *)
Fixpoint contains (key item : string) : bool :=
  String.prefix key item ||
  match item with
  | EmptyString => false
  | String _ item' => contains key item'
  end.

End Str.

Definition database : list (string * string) :=
  [ ("pizza box", "Compost (if greasy) / Recycle (if clean)");
    ("plastic bottle", "Recycle (Rinse first)");
    ("banana peel", "Compost");
    ("styrofoam", "Landfill (Avoid usage!)");
    ("aluminum foil", "Recycle (Clean)");
    ("batteries", "E-Waste Drop-off (Do not bin)");
    ("coffee cup", "Landfill (Lined with plastic) / Lid is Recyclable");
    ("glass jar", "Recycle") ]%string.

Definition default_advice : string :=
  "Unknown item. General rule: When in doubt, throw it out (Landfill).".

(** The loop over the table, in the order of its definition. *)
Fixpoint first_match (db : list (string * string)) (item : string) : option string :=
  match db with
  | [] => None
  | (key, advice) :: db' =>
      if Str.contains key item then Some advice else first_match db' item
  end.

Definition get_waste_advice (item : string) : string :=
  let item := Str.strip (Str.lower item) in
  match first_match database item with
  | Some advice => advice
  | None => default_advice
  end.

(** [key] occurs in [s] as a contiguous block. *)
Definition substring (key s : string) : Prop :=
  exists a b, s = (a ++ key ++ b)%string.

Definition normalize (query : string) : string := Str.strip (Str.lower query).

(** Whitespace only; no whitespace at either end; lower case only. *)
Fixpoint all_space (s : string) : bool :=
  match s with
  | EmptyString => true
  | String c s' => Str.is_space c && all_space s'
  end.

Definition starts_with_space (s : string) : bool :=
  match s with
  | EmptyString => false
  | String c _ => Str.is_space c
  end.

Fixpoint ends_with_space (s : string) : bool :=
  match s with
  | EmptyString => false
  | String c EmptyString => Str.is_space c
  | String _ s' => ends_with_space s'
  end.

Fixpoint is_lower (s : string) : bool :=
  match s with
  | EmptyString => true
  | String c s' => Ascii.eqb (Str.lower_char c) c && is_lower s'
  end.

Definition keys : list string := map fst database.

(* ================================================================== *)
(** ** Record sets

    The well-formed tables: four columns [Date], [Recycling], [Compost],
    [Landfill], the last three holding finite quantities. *)

Record WasteRecord : Type := mkRecord {
  date : Z;
  recycling_kg : Q;
  compost_kg : Q;
  landfill_kg : Q
}.

Definition RecordSet := list WasteRecord.

Definition qcol (f : WasteRecord -> Q) (rs : RecordSet) : Series :=
  map (fun r => Num (Fin (f r))) rs.

Definition frame_of (rs : RecordSet) : DataFrame :=
  [ ("Date"%string, map (fun r => Day (date r)) rs);
    ("Recycling"%string, qcol recycling_kg rs);
    ("Compost"%string, qcol compost_kg rs);
    ("Landfill"%string, qcol landfill_kg rs) ].

(** Every quantity is non-negative (the invariant of a waste record). *)
Definition nonneg_record (r : WasteRecord) : Prop :=
  0 <= recycling_kg r /\ 0 <= compost_kg r /\ 0 <= landfill_kg r.

Definition Qsum (l : list Q) : Q := fold_right Qplus 0 l.

Definition total (f : WasteRecord -> Q) (rs : RecordSet) : Q :=
  Qsum (map f rs).

(** Tables that are not record sets: an expected column is missing, or a
    quantity column holds text. *)
Definition expected_columns : list string :=
  [ "Date"; "Recycling"; "Compost"; "Landfill" ]%string.

Definition quantity_columns : list string :=
  [ "Recycling"; "Compost"; "Landfill" ]%string.

Definition missing_column (t : DataFrame) : bool :=
  existsb (fun n => negb (Pandas.has_col t n)) expected_columns.

Definition is_text (c : cell) : bool :=
  match c with Text _ => true | _ => false end.

Definition text_in_quantity (t : DataFrame) : bool :=
  existsb (fun n => match Pandas.getcol t n with
                    | Ok c => existsb is_text c
                    | Raise _ => false
                    end) quantity_columns.

Definition malformed (t : DataFrame) : bool :=
  missing_column t || text_in_quantity t.

Definition table_without_landfill : DataFrame :=
  [ ("Date"%string, [Day 0]);
    ("Recycling"%string, [Num (Fin 10)]);
    ("Compost"%string, [Num (Fin 5)]) ].

Definition table_with_text : DataFrame :=
  [ ("Date"%string, [Day 0]);
    ("Recycling"%string, [Text "a lot"]);
    ("Compost"%string, [Num (Fin 5)]);
    ("Landfill"%string, [Num (Fin 20)]) ].

(* ================================================================== *)
(** ** Page 1: executive dashboard *)

Record AggregateMetrics : Type := mkMetrics {
  total_recycling : number;
  total_compost : number;
  total_landfill : number;
  grand_total : number;
  div_rate : number
}.

Definition aggregate (df : DataFrame) : result AggregateMetrics :=
  total_recycling <- (c <- Pandas.getcol df "Recycling" ;; Pandas.sum c) ;;
  total_compost <- (c <- Pandas.getcol df "Compost" ;; Pandas.sum c) ;;
  total_landfill <- (c <- Pandas.getcol df "Landfill" ;; Pandas.sum c) ;;
  let grand_total :=
    Number.add (Number.add total_recycling total_compost) total_landfill in
  let div_rate :=
    if Number.gtb grand_total 0
    then F64 (Float64.mul
                (Number.truediv (Number.add total_recycling total_compost)
                   grand_total)
                (Fin 100))
    else I64 0 in
  Ok (mkMetrics total_recycling total_compost total_landfill grand_total div_rate).

Definition sample_records (d1 d2 : Z) : RecordSet :=
  [ mkRecord d1 10 5 20; mkRecord d2 0 0 0 ].

Definition one_record : RecordSet := [ mkRecord 0 10 5 20 ].

(* ================================================================== *)
(** ** Page 4: analyst *)

Definition nat_to_Q (n : nat) : Q := inject_Z (Z.of_nat n).

(** [range(1, n + 1)] as a column. *)
Definition week_nums (n : nat) : Series :=
  map (fun k => Num (Fin (nat_to_Q k))) (seq 1 n).

(** The two derived columns [Week_Num] and [Rate]. *)
Definition period_rate_series (df : DataFrame) : result DataFrame :=
  let df := Pandas.setcol df "Week_Num" (week_nums (Pandas.len df)) in
  diverted <-
    (r <- Pandas.getcol df "Recycling" ;;
     c <- Pandas.getcol df "Compost" ;;
     Pandas.add r c) ;;
  everything <-
    (r <- Pandas.getcol df "Recycling" ;;
     c <- Pandas.getcol df "Compost" ;;
     rc <- Pandas.add r c ;;
     l <- Pandas.getcol df "Landfill" ;;
     Pandas.add rc l) ;;
  share <- Pandas.div diverted everything ;;
  rate <- Pandas.scale share (Fin 100) ;;
  Ok (Pandas.setcol df "Rate" rate).

(** Ordinary least squares with one feature, as scikit-learn's
    [LinearRegression] solves it: centre both variables, take the
    least-squares slope of the centred data (0 when the feature is
    constant), recover the intercept from the means. *)
Module LinearRegression.

Record model : Type := mkModel { coef_ : Q; intercept_ : Q }.

Definition mean (l : list Q) : Q := Qsum l / nat_to_Q (List.length l).

Definition fit (X y : list Q) : model :=
  let xm := mean X in
  let ym := mean y in
  let sxy := Qsum (map (fun p => (fst p - xm) * (snd p - ym)) (combine X y)) in
  let sxx := Qsum (map (fun x => (x - xm) * (x - xm)) X) in
  let a := sxy / sxx in
  mkModel a (ym - a * xm).

Definition predict (m : model) (X : list Q) : list Q :=
  map (fun x => coef_ m * x + intercept_ m) X.

(** The input check of [fit]: every entry is a finite number. *)
Definition check_array (s : Series) : result (list Q) :=
  mapM (fun c => match c with
                 | Num (Fin q) => Ok q
                 | Int z => Ok (inject_Z z)
                 | _ => Raise ValueError
                 end) s.

End LinearRegression.

(** What the page shows: the projected points, or the message that more
    data is needed (the [else] branch of the guard). *)
Inductive analysis : Type :=
| Forecast (points : list (nat * Q))
| NeedMoreData.

(** The guarded regression; [horizon] is the number of future weeks. *)
Definition fit_and_project (horizon : nat) (df : DataFrame) : result analysis :=
  if 1 <? Pandas.len df then
    X <- Pandas.getcol df "Week_Num" ;;
    rate <- Pandas.getcol df "Rate" ;;
    let y := Pandas.fillna0 rate in
    Xv <- LinearRegression.check_array X ;;
    yv <- LinearRegression.check_array y ;;
    let model := LinearRegression.fit Xv yv in
    let future_weeks := seq (Pandas.len df + 1) horizon in
    let predictions :=
      LinearRegression.predict model (map nat_to_Q future_weeks) in
    Ok (Forecast (combine future_weeks predictions))
  else Ok NeedMoreData.

(** [range(len(df)+1, len(df)+5)]: the page projects four weeks. *)
Definition HORIZON : nat := 4.

Definition page_analyst (df : DataFrame) : result analysis :=
  df <- period_rate_series df ;;
  fit_and_project HORIZON df.

(** The rate of one record, as the [Rate] column computes it. *)
Definition rate_of (r : WasteRecord) : float :=
  Float.mul
    (Float.div (Fin (recycling_kg r + compost_kg r))
       (Fin (recycling_kg r + compost_kg r + landfill_kg r)))
    (Fin 100).

(** A series given directly by its rates, with week numbers 1..N. *)
Definition series_frame (rates : list float) : DataFrame :=
  [ ("Week_Num"%string, week_nums (List.length rates));
    ("Rate"%string, map Num rates) ].

(** Sum of squared errors of the line [a * x + b] on the points. *)
Definition sse (pts : list (Q * Q)) (a b : Q) : Q :=
  Qsum (map (fun p => (snd p - (a * fst p + b)) * (snd p - (a * fst p + b))) pts).

Definition least_squares (pts : list (Q * Q)) (a b : Q) : Prop :=
  forall a' b', sse pts a b <= sse pts a' b'.

(** The rate the regression sees: an undefined rate counts as 0. *)
Definition observed (x : float) : Q :=
  match x with Fin q => q | _ => 0 end.

Definition observations (rates : list float) : list (Q * Q) :=
  combine (map nat_to_Q (seq 1 (List.length rates))) (map observed rates).

(** The sums a least-squares fit depends on. *)
Definition sum_x (pts : list (Q * Q)) : Q := Qsum (map fst pts).
Definition sum_y (pts : list (Q * Q)) : Q := Qsum (map snd pts).
Definition sum_xx (pts : list (Q * Q)) : Q :=
  Qsum (map (fun p => fst p * fst p) pts).
Definition sum_xy (pts : list (Q * Q)) : Q :=
  Qsum (map (fun p => fst p * snd p) pts).
Definition sum_yy (pts : list (Q * Q)) : Q :=
  Qsum (map (fun p => snd p * snd p) pts).
Definition count (pts : list (Q * Q)) : Q := nat_to_Q (List.length pts).

(** The line fitted through a set of points, and the spread of their
    abscissas around the mean. *)
Definition fitted (pts : list (Q * Q)) : LinearRegression.model :=
  LinearRegression.fit (map fst pts) (map snd pts).

Definition slope (pts : list (Q * Q)) : Q := LinearRegression.coef_ (fitted pts).

Definition intercept (pts : list (Q * Q)) : Q :=
  LinearRegression.intercept_ (fitted pts).

Definition spread (pts : list (Q * Q)) : Q :=
  Qsum (map (fun x => (x - LinearRegression.mean (map fst pts))
                      * (x - LinearRegression.mean (map fst pts)))
          (map fst pts)).

Definition is_infinite (x : float) : bool :=
  match x with PInf | NInf => true | _ => false end.

(* ================================================================== *)
(** ** Page 5: gamification *)

(** [int(x)]: truncation; NaN and the infinities are refused. *)
Definition to_int (x : float) : result Z :=
  match x with
  | Fin q => Ok (if Qle_bool 0 q then Qfloor q else Qceiling q)
  | NaN => Raise ValueError
  | _ => Raise OverflowError
  end.

Definition int_of_number (a : number) : result Z :=
  match a with
  | I64 z => Ok z
  | F64 x => to_int x
  end.

Record profile : Type := mkProfile {
  total_saved : number;
  level : Z;
  progress : float
}.

Definition level_and_progress (df : DataFrame) : result profile :=
  total_saved <-
    (r <- (c <- Pandas.getcol df "Recycling" ;; Pandas.sum c) ;;
     c <- (c <- Pandas.getcol df "Compost" ;; Pandas.sum c) ;;
     Ok (Number.add r c)) ;;
  whole <- int_of_number (Number.floordiv total_saved 100) ;;
  Ok (mkProfile total_saved (whole + 1)
        (Number.truediv (Number.modulo total_saved 100) (I64 100))).

(** Cumulative diverted mass of a record set. *)
Definition total_diverted (rs : RecordSet) : Q :=
  Qsum (map (fun r => recycling_kg r + compost_kg r) rs).

(* ================================================================== *)
(** ** The rest of the pages *)

(** The records behind the seed table. *)
Definition seed_records (today : Z) : RecordSet :=
  [ mkRecord today 45 20 100;
    mkRecord (today - 7) 48 22 95;
    mkRecord (today - 14) 50 25 90;
    mkRecord (today - 21) 52 28 85;
    mkRecord (today - 28) 40 15 110 ].

(** The last [n] elements. *)
Definition lastn {A : Type} (n : nat) (l : list A) : list A :=
  skipn (List.length l - n) l.

(** [df.tail(n)] *)
Definition tail_rows (n : nat) (df : DataFrame) : DataFrame :=
  map (fun nc => (fst nc, lastn n (snd nc))) df.

(** Page 2, the logger: the table is loaded when the script starts, the
    form saves the entry when it was submitted, and the last five rows of
    the table loaded at the start are shown. *)
Definition page_logger (today : Z) (submitted : bool) (r c l : float)
    (fs : storage) : result DataFrame * storage :=
  match load_data today fs with
  | (Raise e, fs) => (Raise e, fs)
  | (Ok df, fs) =>
      if submitted then
        match save_entry today r c l fs with
        | (Raise e, fs) => (Raise e, fs)
        | (Ok _, fs) => (Ok (tail_rows 5 df), fs)
        end
      else (Ok (tail_rows 5 df), fs)
  end.

(** The bounds of the three [number_input] widgets. *)
Definition widget_range (q : Q) : Prop := 0 <= q /\ q <= 1000.

Definition record_in_range (r : WasteRecord) : Prop :=
  widget_range (recycling_kg r) /\ widget_range (compost_kg r) /\
  widget_range (landfill_kg r).

(** A sequence of calls of [save_entry], one per record, in list order. *)
Fixpoint save_all (entries : list WasteRecord) (fs : storage) : storage :=
  match entries with
  | [] => fs
  | e :: entries' =>
      save_all entries'
        (snd (save_entry (date e) (Fin (recycling_kg e)) (Fin (compost_kg e))
                (Fin (landfill_kg e)) fs))
  end.

(** Page 1, the composition chart: a pie of the three totals, or the
    warning that there is no data yet. *)
Inductive composition : Type :=
| Pie (recycling compost landfill : number)
| NoDataYet.

Definition waste_composition (df : DataFrame) : result composition :=
  m <- aggregate df ;;
  Ok (if Number.gtb (grand_total m) 0
      then Pie (total_recycling m) (total_compost m) (total_landfill m)
      else NoDataYet).

Definition all_zero (r : WasteRecord) : Prop :=
  recycling_kg r == 0 /\ compost_kg r == 0 /\ landfill_kg r == 0.

(** Page 5, the badges: The Beginner (more than 10 kg saved), The Recycler
    (more than 100 kg), The Guardian (more than 500 kg). *)
Inductive badge : Type :=
| Beginner
| Recycler
| Guardian.

Definition badges_of (total_saved : number) : list badge :=
  (if Number.gtb total_saved 10 then [Beginner] else [])
  ++ (if Number.gtb total_saved 100 then [Recycler] else [])
  ++ (if Number.gtb total_saved 500 then [Guardian] else []).

Definition page_gamification (df : DataFrame) : result (profile * list badge) :=
  p <- level_and_progress df ;;
  Ok (p, badges_of (total_saved p)).

(** The rates of an exactly linear series: [a * i + b] in period [i]. *)
Definition linear_rates (a b : Q) (n : nat) : list float :=
  map (fun i => Fin (a * nat_to_Q i + b)) (seq 1 n).


(** The scan of the table on a string as it is. *)
Definition scan (item : string) : string :=
  match first_match database item with
  | Some advice => advice
  | None => default_advice
  end.

(** A record set stored without its [Landfill] column. *)
Definition frame_without_landfill (rs : RecordSet) : DataFrame :=
  [ ("Date"%string, map (fun r => Day (date r)) rs);
    ("Recycling"%string, qcol recycling_kg rs);
    ("Compost"%string, qcol compost_kg rs) ].

(** A string that is not empty and has no whitespace at either end. *)
Definition trimmed (key : string) : Prop :=
  key <> EmptyString /\
  starts_with_space key = false /\ ends_with_space key = false.

(** Quantities that are whole numbers of kilograms. *)
Definition whole (q : Q) : Prop := q == inject_Z (Qfloor q).

Definition whole_record (r : WasteRecord) : Prop :=
  whole (recycling_kg r) /\ whole (compost_kg r) /\ whole (landfill_kg r).

(** A record set stored with integer columns, as a file written without
    decimal points is read. *)
Record WholeRecord : Type := mkWhole {
  whole_date : Z;
  whole_recycling : Z;
  whole_compost : Z;
  whole_landfill : Z
}.

Definition zcol (f : WholeRecord -> Z) (ws : list WholeRecord) : Series :=
  map (fun w => Int (f w)) ws.

Definition int_frame_of (ws : list WholeRecord) : DataFrame :=
  [ ("Date"%string, map (fun w => Day (whole_date w)) ws);
    ("Recycling"%string, zcol whole_recycling ws);
    ("Compost"%string, zcol whole_compost ws);
    ("Landfill"%string, zcol whole_landfill ws) ].

Definition Zsum (l : list Z) : Z := fold_right Z.add 0%Z l.

Definition ztotal (f : WholeRecord -> Z) (ws : list WholeRecord) : Z :=
  Zsum (map f ws).

(** The range of a signed 64-bit integer. *)
Definition fits64 (z : Z) : Prop := (- 2 ^ 63 <= z < 2 ^ 63)%Z.

Definition fits64_record (w : WholeRecord) : Prop :=
  fits64 (whole_recycling w) /\ fits64 (whole_compost w) /\
  fits64 (whole_landfill w).

Definition whole_in_range (w : WholeRecord) : Prop :=
  (0 <= whole_recycling w <= 1000)%Z /\ (0 <= whole_compost w <= 1000)%Z /\
  (0 <= whole_landfill w <= 1000)%Z.

(** The record a row of whole numbers stands for. *)
Definition record_of_whole (w : WholeRecord) : WasteRecord :=
  mkRecord (whole_date w) (inject_Z (whole_recycling w))
    (inject_Z (whole_compost w)) (inject_Z (whole_landfill w)).

(** Two records within the range of the form whose diverted quantities
    add up to 100 kg, and two rows of whole numbers whose first column
    adds up to 2^63. *)
Definition rounding_records : RecordSet :=
  [ mkRecord 0 (489 # 10) (103 # 10) 20;
    mkRecord 7 (323 # 10) (85 # 10) 15 ].

Definition overflow_records : list WholeRecord :=
  [ mkWhole 0 (2 ^ 63 - 1) 0 0; mkWhole 7 1 0 0 ].

(** A floating-point sum of the elements of a list, in some order and
    grouping: every sum that a sequence of binary64 additions, starting
    from single elements and zeros, can produce. *)
Inductive Summation {A : Type} (f : A -> float) : list A -> float -> Prop :=
| Sum_zero : Summation f [] Float.zero
| Sum_one (a : A) : Summation f [a] (f a)
| Sum_add (l1 l2 : list A) (x y : float) :
    Summation f l1 x -> Summation f l2 y ->
    Summation f (l1 ++ l2) (Float64.add x y)
| Sum_perm (l l' : list A) (x : float) :
    Permutation l l' -> Summation f l x -> Summation f l' x.

(** The binary64 number a quantity is stored as. *)
Definition stored (q : Q) : float := Binary64.round q.

(** The unit of the bounds on rounding errors: 2^-43 is an upper bound of
    the spacing of binary64 numbers below 1024. *)
Definition EPS : Q := Binary64.pow2 (-43).

(** The largest binary64 number below 1. *)
Definition BELOW_ONE : Q := 1 - Binary64.pow2 (-53).

(** What a floating-point sum [v] of [k] quantities between 0 and 1000
    with exact sum [s] satisfies: it is a binary64 number between 0 and
    [1000 * k], within [k * k * EPS] of [s]. *)
Definition sum_within (v : float) (s : Q) (k : nat) : Prop :=
  (Z.of_nat k <= 2 ^ 43)%Z ->
  exists x,
    v = Fin x /\ Binary64.double x /\
    0 <= x /\ x <= 1000 * nat_to_Q k /\
    Qabs (x - s) <= nat_to_Q k * nat_to_Q k * EPS.

(** And when the quantities are whole numbers: it is the exact sum. *)
Definition sum_exact (v : float) (s : Q) (k : nat) : Prop :=
  (Z.of_nat k <= 2 ^ 43)%Z ->
  exists x,
    v = Fin x /\ x == s /\
    exists z : Z, s == inject_Z z /\ (0 <= z <= 1000 * Z.of_nat k)%Z.

(* ================================================================== *)
(** * Properties *)

(** ** Equality of numbers *)

#[export] Instance Float_eq_equiv : Equivalence Float.eq.
Proof.
  split.
  - intros [q| | |]; simpl; trivial. reflexivity.
  - intros [a| | |] [b| | |]; simpl; trivial. intro H; now symmetry.
  - intros [a| | |] [b| | |] [c| | |]; simpl; trivial; try contradiction.
    intros H1 H2; now rewrite H1.
Qed.

(** ** Rounding to binary64 *)

Import Binary64.

Lemma pow2_pos (k : Z) : 0 < pow2 k.
Proof. apply Qpower_0_lt. reflexivity. Qed.

Lemma pow2_add (a b : Z) : pow2 (a + b) == pow2 a * pow2 b.
Proof. apply Qpower_plus. discriminate. Qed.

Lemma pow2_le (a b : Z) : (a <= b)%Z -> pow2 a <= pow2 b.
Proof. intro H. apply Qpower_le_compat_l; [exact H | discriminate]. Qed.

Lemma pow2_lt (a b : Z) : (a < b)%Z -> pow2 a < pow2 b.
Proof. intro H. apply Qpower_lt_compat_l; [exact H | reflexivity]. Qed.

Lemma pow2_lt_inv (a b : Z) : pow2 a < pow2 b -> (a < b)%Z.
Proof. intro H. apply (Qpower_lt_compat_l_inv 2); [exact H | reflexivity]. Qed.

Lemma pow2_Z (k : Z) : (0 <= k)%Z -> pow2 k == inject_Z (2 ^ k).
Proof. intro H. unfold pow2. now rewrite Zpower_Qpower. Qed.

Lemma pow2_sub (a b : Z) : pow2 (a - b) == pow2 a / pow2 b.
Proof. apply Qpower_minus. discriminate. Qed.

Lemma pow2_div_mul (q : Q) (k : Z) : q / pow2 k * pow2 k == q.
Proof.
  pose proof (pow2_pos k). field. intro E. rewrite E in H. discriminate.
Qed.

(** *** Rounding to an integer *)

Lemma rne_comp (m m' : Q) : m == m' -> rne m = rne m'.
Proof.
  intro E. unfold rne. rewrite (Qfloor_comp _ _ E).
  assert (C : Qcompare (m - inject_Z (Qfloor m')) (1 # 2)
              = Qcompare (m' - inject_Z (Qfloor m')) (1 # 2)) by now rewrite E.
  now rewrite C.
Qed.

Lemma rne_Z (z : Z) : rne (inject_Z z) = z.
Proof.
  unfold rne. rewrite Qfloor_Z.
  assert (C : Qcompare (inject_Z z - inject_Z z) (1 # 2) = Lt).
  { apply Qlt_alt. unfold Qminus. rewrite Qplus_opp_r. reflexivity. }
  now rewrite C.
Qed.

Lemma rne_bounds (m : Q) :
  inject_Z (rne m) - (1 # 2) <= m /\ m <= inject_Z (rne m) + (1 # 2).
Proof.
  unfold rne. pose proof (Qfloor_le m) as Hlo. pose proof (Qlt_floor m) as Hhi.
  rewrite inject_Z_plus in Hhi. change (inject_Z 1) with 1 in Hhi.
  destruct (Qcompare_spec (m - inject_Z (Qfloor m)) (1 # 2)) as [E|L|G].
  - destruct (Z.even (Qfloor m)).
    + lra.
    + rewrite inject_Z_plus. change (inject_Z 1) with 1. lra.
  - lra.
  - rewrite inject_Z_plus. change (inject_Z 1) with 1. lra.
Qed.

Lemma rne_floor (m : Q) : (Qfloor m <= rne m <= Qfloor m + 1)%Z.
Proof.
  unfold rne. destruct (Qcompare _ _); [destruct (Z.even _)| |]; lia.
Qed.

Lemma rne_mono (m m' : Q) : m <= m' -> (rne m <= rne m')%Z.
Proof.
  intro H. pose proof (Qfloor_resp_le _ _ H) as Hf.
  destruct (Z.eq_dec (Qfloor m) (Qfloor m')) as [E|N].
  - unfold rne. rewrite <- E.
    destruct (Qcompare_spec (m - inject_Z (Qfloor m)) (1 # 2)) as [E1|L1|G1];
    destruct (Qcompare_spec (m' - inject_Z (Qfloor m)) (1 # 2)) as [E2|L2|G2];
    try destruct (Z.even (Qfloor m)); try lia; lra.
  - pose proof (rne_floor m). pose proof (rne_floor m'). lia.
Qed.

(** *** The binade of a positive number *)

Lemma ilog2_spec (a : Q) :
  0 < a -> pow2 (ilog2 a) <= a /\ a < pow2 (ilog2 a + 1).
Proof.
  destruct a as [n d]. intro Ha.
  assert (Hn : (0 < n)%Z).
  { unfold Qlt in Ha. simpl in Ha. lia. }
  unfold ilog2. cbn [Qnum Qden].
  set (ln := Z.log2 n). set (ld := Z.log2 (Zpos d)).
  destruct (Z.log2_spec n Hn) as [Hn1 Hn2].
  destruct (Z.log2_spec (Zpos d) (eq_refl : (0 < Zpos d)%Z)) as [Hd1 Hd2].
  fold ln in Hn1, Hn2. fold ld in Hd1, Hd2.
  assert (Hln : (0 <= ln)%Z) by apply Z.log2_nonneg.
  assert (Hld : (0 <= ld)%Z) by apply Z.log2_nonneg.
  assert (Q1 : pow2 ln <= inject_Z n).
  { rewrite pow2_Z by lia. now rewrite <- Zle_Qle. }
  assert (Q2 : inject_Z n < pow2 (ln + 1)).
  { rewrite pow2_Z by lia. now rewrite <- Zlt_Qlt. }
  assert (Q3 : pow2 ld <= inject_Z (Zpos d)).
  { rewrite pow2_Z by lia. now rewrite <- Zle_Qle. }
  assert (Q4 : inject_Z (Zpos d) < pow2 (ld + 1)).
  { rewrite pow2_Z by lia. now rewrite <- Zlt_Qlt. }
  assert (Ea : n # d == inject_Z n / inject_Z (Zpos d)).
  { rewrite Qmake_Qdiv. reflexivity. }
  assert (Hd : 0 < inject_Z (Zpos d)) by reflexivity.
  pose proof (pow2_pos ld) as Pld. pose proof (pow2_pos (ln - ld)) as P0.
  pose proof (pow2_pos (ln - ld - 1)) as P1.
  pose proof (pow2_pos (ln - ld + 1)) as P2.
  (* a lies strictly between 2^(ln-ld-1) and 2^(ln-ld+1) *)
  assert (Lo : pow2 (ln - ld - 1) < n # d).
  { rewrite Ea. apply Qlt_shift_div_l; [exact Hd|].
    apply Qlt_le_trans with (pow2 (ln - ld - 1) * pow2 (ld + 1)).
    - apply Qmult_lt_l; [exact P1 | exact Q4].
    - rewrite <- pow2_add. replace (ln - ld - 1 + (ld + 1))%Z with ln by lia.
      exact Q1. }
  assert (Hi : n # d < pow2 (ln - ld + 1)).
  { rewrite Ea. apply Qlt_shift_div_r; [exact Hd|].
    apply Qlt_le_trans with (pow2 (ln + 1)); [exact Q2|].
    replace (ln + 1)%Z with (ln - ld + 1 + ld)%Z by lia.
    rewrite pow2_add. apply Qmult_le_l; [exact P2 | exact Q3]. }
  destruct (Qle_bool (pow2 (ln - ld)) (n # d)) eqn:B.
  - apply Qle_bool_iff in B. split; [exact B | exact Hi].
  - assert (L : n # d < pow2 (ln - ld)).
    { apply Qnot_le_lt. intro C. apply Qle_bool_iff in C. congruence. }
    split.
    + apply Qlt_le_weak. exact Lo.
    + replace (ln - ld - 1 + 1)%Z with (ln - ld)%Z by lia. exact L.
Qed.

Lemma ilog2_unique (a : Q) (e : Z) :
  pow2 e <= a -> a < pow2 (e + 1) -> ilog2 a = e.
Proof.
  intros H1 H2.
  assert (Ha : 0 < a) by (pose proof (pow2_pos e); lra).
  destruct (ilog2_spec a Ha) as [S1 S2].
  assert (pow2 e < pow2 (ilog2 a + 1)) by lra.
  assert (pow2 (ilog2 a) < pow2 (e + 1)) by lra.
  apply pow2_lt_inv in H, H0. lia.
Qed.

Lemma ilog2_comp (a b : Q) : 0 < a -> a == b -> ilog2 a = ilog2 b.
Proof.
  intros Ha E. symmetry. destruct (ilog2_spec a Ha) as [S1 S2].
  apply ilog2_unique; rewrite <- E; assumption.
Qed.

Lemma ilog2_mono (a b : Q) : 0 < a -> a <= b -> (ilog2 a <= ilog2 b)%Z.
Proof.
  intros Ha H.
  destruct (ilog2_spec a Ha) as [S1 _].
  destruct (ilog2_spec b) as [_ T2]; [lra|].
  assert (pow2 (ilog2 a) < pow2 (ilog2 b + 1)) by lra.
  apply pow2_lt_inv in H0. lia.
Qed.

Lemma ilog2_lt (a : Q) (e : Z) : 0 < a -> a < pow2 e -> (ilog2 a < e)%Z.
Proof.
  intros Ha H. destruct (ilog2_spec a Ha) as [S1 _].
  apply pow2_lt_inv. lra.
Qed.

Lemma ilog2_ge (a : Q) (e : Z) : pow2 e <= a -> (e <= ilog2 a)%Z.
Proof.
  intros H. assert (Ha : 0 < a) by (pose proof (pow2_pos e); lra).
  destruct (ilog2_spec a Ha) as [_ S2].
  assert (pow2 e < pow2 (ilog2 a + 1)) by lra.
  apply pow2_lt_inv in H0. lia.
Qed.

(** *** Rounding to the nearest binary64 number *)

Lemma ulp_exp_ge (a : Q) : (-1074 <= ulp_exp a)%Z.
Proof. unfold ulp_exp. lia. Qed.

Lemma ulp_exp_mono (a b : Q) : 0 < a -> a <= b -> (ulp_exp a <= ulp_exp b)%Z.
Proof.
  intros Ha H. unfold ulp_exp. pose proof (ilog2_mono a b Ha H). lia.
Qed.

Lemma div_pow2 (q : Q) (k : Z) : q / pow2 k == q * pow2 (- k).
Proof.
  unfold pow2, Qdiv. now rewrite Qpower_opp.
Qed.

Lemma div_pow2_le (a b : Q) (k : Z) : a <= b -> a / pow2 k <= b / pow2 k.
Proof.
  intro H. rewrite !div_pow2. apply Qmult_le_compat_r; [exact H|].
  apply Qlt_le_weak, pow2_pos.
Qed.

Lemma pow2_div (a b : Z) : pow2 a / pow2 b == pow2 (a - b).
Proof. now rewrite pow2_sub. Qed.

(** The significand of the rounded number has at most 53 bits. *)
Lemma nearest_pos_significand (a : Q) :
  0 < a ->
  (0 <= rne (a / pow2 (ulp_exp a)) <= 2 ^ 53)%Z.
Proof.
  intro Ha. destruct (ilog2_spec a Ha) as [S1 S2].
  set (u := ulp_exp a).
  assert (Hu : (ilog2 a - 52 <= u)%Z) by (unfold u, ulp_exp; lia).
  split.
  - rewrite <- (rne_Z 0). apply rne_mono.
    apply Qle_shift_div_l; [apply pow2_pos|].
    change (inject_Z 0) with 0. rewrite Qmult_0_l. lra.
  - rewrite <- (rne_Z (2 ^ 53)). apply rne_mono.
    rewrite <- pow2_Z by lia.
    apply Qle_trans with (pow2 (ilog2 a + 1) / pow2 u).
    + apply div_pow2_le. lra.
    + rewrite pow2_div. apply pow2_le. lia.
Qed.

Lemma nearest_pos_nonneg (a : Q) : 0 < a -> 0 <= nearest_pos a.
Proof.
  intro Ha. unfold nearest_pos.
  destruct (nearest_pos_significand a Ha) as [H _].
  apply Qmult_le_0_compat.
  - now rewrite Zle_Qle in H.
  - apply Qlt_le_weak, pow2_pos.
Qed.

Lemma nearest_pos_comp (a b : Q) : 0 < a -> a == b -> nearest_pos a == nearest_pos b.
Proof.
  intros Ha E. unfold nearest_pos, ulp_exp.
  rewrite <- (ilog2_comp a b Ha E).
  set (u := Z.max (ilog2 a - 52) (-1074)).
  assert (R : rne (a / pow2 u) = rne (b / pow2 u)).
  { apply rne_comp. now rewrite E. }
  now rewrite R.
Qed.

Lemma nearest_pos_mono (a b : Q) :
  0 < a -> a <= b -> nearest_pos a <= nearest_pos b.
Proof.
  intros Ha H. assert (Hb : 0 < b) by lra.
  pose proof (ulp_exp_mono a b Ha H) as Hu.
  unfold nearest_pos.
  destruct (Z.eq_dec (ulp_exp a) (ulp_exp b)) as [E|N].
  - rewrite E. apply Qmult_le_compat_r; [|apply Qlt_le_weak, pow2_pos].
    rewrite <- Zle_Qle. apply rne_mono. now apply div_pow2_le.
  - set (ua := ulp_exp a) in *. set (ub := ulp_exp b) in *.
    assert (Eb : ub = (ilog2 b - 52)%Z).
    { pose proof (ulp_exp_ge a). unfold ub, ulp_exp in *. fold ua in H0. lia. }
    assert (Ea : (ilog2 a - 52 <= ua)%Z) by (unfold ua, ulp_exp; lia).
    destruct (ilog2_spec a Ha) as [_ A2]. destruct (ilog2_spec b Hb) as [B1 _].
    apply Qle_trans with (pow2 (ub + 52)).
    + (* a is below the binade of b *)
      assert (L : a / pow2 ua <= inject_Z (2 ^ (ub + 52 - ua))).
      { rewrite <- pow2_Z by lia. rewrite <- pow2_div. apply div_pow2_le.
        apply Qle_trans with (pow2 (ilog2 a + 1)); [lra|]. apply pow2_le. lia. }
      apply rne_mono in L. rewrite rne_Z in L. rewrite Zle_Qle in L.
      apply Qle_trans with (inject_Z (2 ^ (ub + 52 - ua)) * pow2 ua).
      * apply Qmult_le_compat_r; [exact L | apply Qlt_le_weak, pow2_pos].
      * rewrite <- pow2_Z by lia. rewrite <- pow2_add.
        apply pow2_le. lia.
    + assert (L : inject_Z (2 ^ 52) <= b / pow2 ub).
      { rewrite <- pow2_Z by lia. replace 52%Z with (ilog2 b - ub)%Z by lia.
        rewrite <- pow2_div. now apply div_pow2_le. }
      apply rne_mono in L. rewrite rne_Z in L. rewrite Zle_Qle in L.
      apply Qle_trans with (inject_Z (2 ^ 52) * pow2 ub).
      * rewrite <- pow2_Z by lia. rewrite <- pow2_add.
        apply pow2_le. lia.
      * apply Qmult_le_compat_r; [exact L | apply Qlt_le_weak, pow2_pos].
Qed.

Lemma nearest_zero (q : Q) : q == 0 -> nearest q = 0.
Proof.
  intro E. unfold nearest.
  destruct (Qcompare_spec q 0); [reflexivity | lra | lra].
Qed.

Lemma nearest_of_pos (q : Q) : 0 < q -> nearest q = nearest_pos q.
Proof.
  intro H. unfold nearest.
  destruct (Qcompare_spec q 0); [lra | lra | reflexivity].
Qed.

Lemma nearest_of_neg (q : Q) : q < 0 -> nearest q = - nearest_pos (- q).
Proof.
  intro H. unfold nearest.
  destruct (Qcompare_spec q 0); [lra | reflexivity | lra].
Qed.

Lemma Q_sign (q : Q) : q < 0 \/ q == 0 \/ 0 < q.
Proof.
  destruct (Qcompare_spec q 0); auto.
Qed.

#[export] Instance nearest_comp : Proper (Qeq ==> Qeq) nearest.
Proof.
  intros a b E. destruct (Q_sign a) as [H|[H|H]].
  - rewrite (nearest_of_neg a H), (nearest_of_neg b) by (now rewrite <- E).
    apply Qopp_comp. apply nearest_pos_comp; [lra | now rewrite E].
  - rewrite (nearest_zero a H), (nearest_zero b) by (now rewrite <- E).
    reflexivity.
  - rewrite (nearest_of_pos a H), (nearest_of_pos b) by (now rewrite <- E).
    now apply nearest_pos_comp.
Qed.

Lemma nearest_nonneg (q : Q) : 0 <= q -> 0 <= nearest q.
Proof.
  intro H. destruct (Q_sign q) as [L|[E|G]].
  - lra.
  - rewrite (nearest_zero q E). lra.
  - rewrite (nearest_of_pos q G). now apply nearest_pos_nonneg.
Qed.

Lemma nearest_nonpos (q : Q) : q <= 0 -> nearest q <= 0.
Proof.
  intro H. destruct (Q_sign q) as [L|[E|G]].
  - rewrite (nearest_of_neg q L).
    assert (0 <= nearest_pos (- q)) by (apply nearest_pos_nonneg; lra). lra.
  - rewrite (nearest_zero q E). lra.
  - lra.
Qed.

Lemma nearest_opp (q : Q) : nearest (- q) == - nearest q.
Proof.
  destruct (Q_sign q) as [L|[E|G]].
  - rewrite (nearest_of_neg q L), (nearest_of_pos (- q)) by lra. ring.
  - rewrite (nearest_zero q E), (nearest_zero (- q)) by lra. reflexivity.
  - rewrite (nearest_of_pos q G), (nearest_of_neg (- q)) by lra.
    apply Qopp_comp. apply nearest_pos_comp; [lra | ring].
Qed.

(** Rounding is monotone. *)
Lemma nearest_mono (a b : Q) : a <= b -> nearest a <= nearest b.
Proof.
  intro H.
  destruct (Q_sign a) as [La|[Ea|Ga]].
  - destruct (Q_sign b) as [Lb|[Eb|Gb]].
    + rewrite (nearest_of_neg a La), (nearest_of_neg b Lb).
      assert (nearest_pos (- b) <= nearest_pos (- a))
        by (apply nearest_pos_mono; lra).
      lra.
    + pose proof (nearest_nonpos a). pose proof (nearest_nonneg b). lra.
    + pose proof (nearest_nonpos a). pose proof (nearest_nonneg b). lra.
  - rewrite (nearest_zero a Ea). apply nearest_nonneg. lra.
  - rewrite (nearest_of_pos a Ga), (nearest_of_pos b) by lra.
    now apply nearest_pos_mono.
Qed.

(** A number with a significand below 2^53 and an exponent in range is
    its own rounding. *)
Lemma nearest_pos_representable (z k : Z) :
  (0 < z < 2 ^ 53)%Z -> (-1074 <= k)%Z ->
  nearest_pos (inject_Z z * pow2 k) == inject_Z z * pow2 k.
Proof.
  intros Hz Hk. set (a := inject_Z z * pow2 k).
  assert (Ha : 0 < a).
  { unfold a. apply Qmult_lt_0_compat; [|apply pow2_pos].
    change 0 with (inject_Z 0). rewrite <- Zlt_Qlt. lia. }
  assert (Hlt : a < pow2 (53 + k)).
  { unfold a. rewrite pow2_add. apply Qmult_lt_compat_r; [apply pow2_pos|].
    rewrite pow2_Z by lia. rewrite <- Zlt_Qlt. lia. }
  pose proof (ilog2_lt a _ Ha Hlt) as He.
  unfold nearest_pos. set (u := ulp_exp a).
  assert (Hu : (u <= k)%Z) by (unfold u, ulp_exp; lia).
  assert (E : a / pow2 u == inject_Z (z * 2 ^ (k - u))).
  { rewrite inject_Z_mult, <- pow2_Z by lia. unfold a.
    rewrite pow2_sub. field.
    pose proof (pow2_pos u). intro C. rewrite C in H. discriminate. }
  rewrite (rne_comp _ _ E), rne_Z, <- E. apply pow2_div_mul.
Qed.

Lemma nearest_representable (z k : Z) :
  (Z.abs z < 2 ^ 53)%Z -> (-1074 <= k)%Z ->
  nearest (inject_Z z * pow2 k) == inject_Z z * pow2 k.
Proof.
  intros Hz Hk. pose proof (pow2_pos k) as P.
  destruct (Z.lt_trichotomy z 0) as [L|[E|G]].
  - assert (N : inject_Z z * pow2 k < 0).
    { setoid_replace (inject_Z z * pow2 k) with (- (inject_Z (- z) * pow2 k))
        by (rewrite inject_Z_opp; ring).
      assert (0 < inject_Z (- z) * pow2 k).
      { apply Qmult_lt_0_compat; [|exact P].
        change 0 with (inject_Z 0). rewrite <- Zlt_Qlt. lia. }
      lra. }
    rewrite (nearest_of_neg _ N).
    assert (E : - (inject_Z z * pow2 k) == inject_Z (- z) * pow2 k)
      by (rewrite inject_Z_opp; ring).
    assert (Pn : 0 < - (inject_Z z * pow2 k)) by lra.
    rewrite (nearest_pos_comp _ _ Pn E).
    rewrite nearest_pos_representable by lia.
    rewrite inject_Z_opp. ring.
  - subst z. rewrite nearest_zero; [|ring]. ring.
  - assert (N : 0 < inject_Z z * pow2 k).
    { apply Qmult_lt_0_compat; [|exact P].
      change 0 with (inject_Z 0). rewrite <- Zlt_Qlt. lia. }
    rewrite (nearest_of_pos _ N). apply nearest_pos_representable; lia.
Qed.

(** Whole numbers up to 2^53 are binary64 numbers. *)
Lemma nearest_Z (z : Z) : (Z.abs z <= 2 ^ 53)%Z -> nearest (inject_Z z) == inject_Z z.
Proof.
  intro H. destruct (Z.eq_dec (Z.abs z) (2 ^ 53)) as [E|N].
  - assert (D : inject_Z z == inject_Z (z / 2) * pow2 1).
    { assert (z = (z / 2 * 2)%Z) as Ez.
      { destruct (Z.abs_eq_or_opp z) as [A|A]; rewrite A in E.
        - rewrite E. reflexivity.
        - assert (z = (- 2 ^ 53)%Z) as -> by lia. reflexivity. }
      rewrite Ez at 1. rewrite inject_Z_mult. reflexivity. }
    rewrite D. apply nearest_representable; [|lia].
    destruct (Z.abs_eq_or_opp z) as [A|A]; rewrite A in E.
    + rewrite E. reflexivity.
    + assert (z = (- 2 ^ 53)%Z) as -> by lia. reflexivity.
  - setoid_replace (inject_Z z) with (inject_Z z * pow2 0) by (unfold pow2; simpl; ring).
    apply nearest_representable; lia.
Qed.

Lemma double_nearest_pos (a : Q) : 0 < a -> double (nearest_pos a).
Proof.
  intro Ha. unfold double.
  destruct (nearest_pos_significand a Ha) as [H0 H53].
  unfold nearest_pos. set (z := rne (a / pow2 (ulp_exp a))) in *.
  pose proof (ulp_exp_ge a) as Hu. set (u := ulp_exp a) in *.
  destruct (Z.eq_dec z (2 ^ 53)) as [E|N].
  - assert (D : inject_Z z * pow2 u == inject_Z (2 ^ 52) * pow2 (u + 1)).
    { rewrite E. rewrite pow2_add. change (pow2 1) with 2.
      change (inject_Z (2 ^ 53)) with (inject_Z (2 ^ 52) * 2). ring. }
    rewrite D. apply nearest_representable; [reflexivity | lia].
  - apply nearest_representable; lia.
Qed.

Lemma double_nearest (q : Q) : double (nearest q).
Proof.
  unfold double. destruct (Q_sign q) as [L|[E|G]].
  - rewrite (nearest_of_neg q L). rewrite nearest_opp.
    apply Qopp_comp. apply double_nearest_pos. lra.
  - rewrite (nearest_zero q E). reflexivity.
  - rewrite (nearest_of_pos q G). now apply double_nearest_pos.
Qed.

Lemma double_Z (z : Z) : (Z.abs z <= 2 ^ 53)%Z -> double (inject_Z z).
Proof. apply nearest_Z. Qed.

#[export] Instance double_comp : Proper (Qeq ==> iff) double.
Proof. intros a b E. unfold double. now rewrite E. Qed.

(** The rounding error is at most half a unit in the last place. *)
Lemma nearest_pos_err (a : Q) :
  0 < a ->
  Qabs (nearest_pos a - a) <= a * pow2 (-53) + pow2 (-1075).
Proof.
  intro Ha. unfold nearest_pos. set (u := ulp_exp a).
  pose proof (rne_bounds (a / pow2 u)) as [B1 B2].
  set (z := inject_Z (rne (a / pow2 u))) in *.
  pose proof (pow2_pos u) as Pu.
  assert (Ea : a == a / pow2 u * pow2 u) by (now rewrite pow2_div_mul).
  assert (Half : Qabs (z * pow2 u - a) <= (1 # 2) * pow2 u).
  { apply Qabs_Qle_condition. split.
    - rewrite Ea at 1.
      setoid_replace (z * pow2 u - a / pow2 u * pow2 u)
        with ((z - a / pow2 u) * pow2 u) by ring.
      setoid_replace (- ((1 # 2) * pow2 u)) with ((- (1 # 2)) * pow2 u) by ring.
      apply Qmult_le_compat_r; lra.
    - rewrite Ea at 1.
      setoid_replace (z * pow2 u - a / pow2 u * pow2 u)
        with ((z - a / pow2 u) * pow2 u) by ring.
      apply Qmult_le_compat_r; lra. }
  eapply Qle_trans; [exact Half|].
  setoid_replace ((1 # 2) * pow2 u) with (pow2 (u - 1))
    by (rewrite pow2_sub; change (pow2 1) with 2; field).
  destruct (ilog2_spec a Ha) as [S1 _].
  pose proof (pow2_pos (-1075)). pose proof (pow2_pos (-53)).
  destruct (Z.max_spec (ilog2 a - 52) (-1074)) as [[_ M]|[_ M]];
    unfold u, ulp_exp; rewrite M.
  - change (-1074 - 1)%Z with (-1075)%Z.
    assert (0 <= a * pow2 (-53)) by (apply Qmult_le_0_compat; lra). lra.
  - replace (ilog2 a - 52 - 1)%Z with (ilog2 a + -53)%Z by lia.
    rewrite pow2_add.
    assert (pow2 (ilog2 a) * pow2 (-53) <= a * pow2 (-53))
      by (apply Qmult_le_compat_r; lra).
    lra.
Qed.

Lemma nearest_err (q : Q) :
  Qabs (nearest q - q) <= Qabs q * pow2 (-53) + pow2 (-1075).
Proof.
  pose proof (pow2_pos (-1075)). pose proof (pow2_pos (-53)).
  destruct (Q_sign q) as [L|[E|G]].
  - rewrite (nearest_of_neg q L).
    setoid_replace (- nearest_pos (- q) - q) with (- (nearest_pos (- q) - - q)) by ring.
    rewrite Qabs_opp. rewrite (Qabs_neg q) by lra.
    apply nearest_pos_err. lra.
  - rewrite (nearest_zero q E). rewrite E. simpl Qabs at 1.
    assert (0 <= Qabs 0 * pow2 (-53)).
    { apply Qmult_le_0_compat; [apply Qabs_nonneg | lra]. }
    setoid_replace (Qabs (0 - 0)) with 0 by reflexivity. lra.
  - rewrite (nearest_of_pos q G). rewrite (Qabs_pos q) by lra.
    now apply nearest_pos_err.
Qed.

(** Above 64 the binary64 numbers are multiples of 2^-46. *)
Lemma double_grid (t : Q) :
  double t -> 0 <= t ->
  t <= 64 \/ exists z : Z, t == inject_Z z * pow2 (-46).
Proof.
  intros D Ht. destruct (Qlt_le_dec 64 t) as [G|L]; [right|left; exact L].
  assert (Hp : 0 < t) by lra.
  unfold double in D. rewrite (nearest_of_pos t Hp) in D.
  unfold nearest_pos in D. set (u := ulp_exp t) in *.
  assert (Hu : (-46 <= u)%Z).
  { assert (6 <= ilog2 t)%Z.
    { apply ilog2_ge. change (pow2 6) with 64. lra. }
    unfold u, ulp_exp. lia. }
  exists (rne (t / pow2 u) * 2 ^ (u + 46))%Z.
  rewrite <- D at 1. rewrite inject_Z_mult, <- pow2_Z by lia.
  rewrite <- Qmult_assoc, <- pow2_add.
  replace (u + 46 + -46)%Z with u by lia. reflexivity.
Qed.

(* ------------------------------------------------------------------ *)
(** ** Binary64 arithmetic *)

Lemma pow2_53_lt_1024 : pow2 53 < pow2 1024.
Proof. apply pow2_lt. lia. Qed.

(** No overflow below 2^53. *)
Lemma round_small (q : Q) :
  - pow2 53 <= q -> q <= pow2 53 -> round q = Fin (Qred (nearest q)).
Proof.
  intros Hlo Hhi. pose proof pow2_53_lt_1024 as H.
  assert (D : nearest (pow2 53) == pow2 53).
  { rewrite pow2_Z by lia. apply nearest_Z. lia. }
  assert (Nhi : nearest q <= pow2 53).
  { rewrite <- D. now apply nearest_mono. }
  assert (Nlo : - pow2 53 <= nearest q).
  { rewrite <- D, <- nearest_opp. now apply nearest_mono. }
  unfold round.
  destruct (Qle_bool (pow2 1024) (nearest q)) eqn:B1.
  { apply Qle_bool_iff in B1. lra. }
  destruct (Qle_bool (nearest q) (- pow2 1024)) eqn:B2.
  { apply Qle_bool_iff in B2. lra. }
  reflexivity.
Qed.

Lemma add_fin (x y : Q) :
  Float64.add (Fin x) (Fin y) = round (x + y).
Proof. reflexivity. Qed.

Lemma sub_fin (x y : Q) :
  Float64.sub (Fin x) (Fin y) = round (x + - y).
Proof. reflexivity. Qed.

Lemma inject_pos_nonzero (n : positive) : ~ inject_Z (Zpos n) == 0.
Proof. intro H. unfold Qeq in H. simpl in H. lia. Qed.

Lemma is_zero_pos (n : positive) : Float.is_zero (inject_Z (Zpos n)) = false.
Proof.
  unfold Float.is_zero. destruct (Qeq_bool _ 0) eqn:E; [|reflexivity].
  apply Qeq_bool_iff in E. now apply inject_pos_nonzero in E.
Qed.

Lemma div_fin_pos (x : Q) (n : positive) :
  Float64.div (Fin x) (Fin (inject_Z (Zpos n)))
  = round (x / inject_Z (Zpos n)).
Proof.
  unfold Float64.div. cbn [Float.div]. now rewrite is_zero_pos.
Qed.

Lemma of_Z_small (z : Z) :
  (Z.abs z <= 2 ^ 53)%Z ->
  exists q, Float64.of_Z z = Fin q /\ q == inject_Z z.
Proof.
  intro H. unfold Float64.of_Z.
  assert (B : - pow2 53 <= inject_Z z /\ inject_Z z <= pow2 53).
  { rewrite pow2_Z by lia. rewrite <- inject_Z_opp, <- !Zle_Qle. lia. }
  rewrite round_small by tauto.
  eexists. split; [reflexivity|]. rewrite Qred_correct. now apply nearest_Z.
Qed.

Lemma of_Z_100 : Float64.of_Z 100 = Fin 100.
Proof. vm_compute. reflexivity. Qed.

(** *** Floor division and remainder *)

Lemma trunc_nonneg (q : Q) : 0 <= q -> Float64.trunc q = Qfloor q.
Proof.
  intro H. unfold Float64.trunc. apply Qle_bool_iff in H. now rewrite H.
Qed.

Lemma fmod_nonneg (t : Q) (n : positive) :
  0 <= t -> Float64.fmod t n = Qmod t n.
Proof.
  intro H. unfold Float64.fmod, Qmod, Qfloordiv.
  rewrite trunc_nonneg; [reflexivity|].
  apply Qle_shift_div_l; [reflexivity | lra].
Qed.

Lemma Qmod_bounds (a : Q) (n : positive) :
  0 <= Qmod a n /\ Qmod a n < inject_Z (Zpos n).
Proof.
  unfold Qmod, Qfloordiv. set (b := inject_Z (Zpos n)).
  assert (Hb : 0 < b) by reflexivity.
  pose proof (Qfloor_le (a / b)) as Hlo. pose proof (Qlt_floor (a / b)) as Hhi.
  rewrite inject_Z_plus in Hhi. change (inject_Z 1) with 1 in Hhi.
  set (k := inject_Z (Qfloor (a / b))) in *.
  assert (E : a == b * (a / b)) by (field; lra).
  assert (b * k <= b * (a / b)) by (apply Qmult_le_l; auto).
  assert (b * (a / b) < b * (k + 1)) by (apply Qmult_lt_l; auto).
  split; lra.
Qed.

Lemma Qfloordiv_nonneg (a : Q) (n : positive) : 0 <= a -> (0 <= Qfloordiv a n)%Z.
Proof.
  intro H. unfold Qfloordiv. rewrite <- (Qfloor_Z 0). apply Qfloor_resp_le.
  apply Qle_shift_div_l; [reflexivity|]. change (inject_Z 0) with 0. lra.
Qed.

Lemma to_int_nonneg (q : Q) (k : Z) :
  q == inject_Z k -> to_int (Fin q) = Ok k.
Proof.
  intro E. unfold to_int.
  destruct (Qle_bool 0 q).
  - now rewrite (Qfloor_comp _ _ E), Qfloor_Z.
  - now rewrite (Qceiling_comp _ _ E), Qceiling_Z.
Qed.

(** On a binary64 number between 0 and 2^53, floor division by a positive
    integer is exact: every intermediate result is a whole number that
    binary64 represents. *)
Lemma divmod_double (t : Q) (n : positive) :
  0 <= t -> t <= pow2 53 ->
  exists q,
    Float64.divmod (Fin t) n = (Fin q, Fin (Qmod t n)) /\
    q == inject_Z (Qfloordiv t n).
Proof.
  intros Ht Hhi. unfold Float64.divmod. rewrite (fmod_nonneg t n Ht).
  destruct (Qmod_bounds t n) as [M0 M1].
  set (m := Qmod t n) in *. set (k := Qfloordiv t n).
  set (b := inject_Z (Zpos n)) in *.
  assert (Hb : 1 <= b).
  { unfold b. change 1 with (inject_Z 1). rewrite <- Zle_Qle. lia. }
  assert (Hk : (0 <= k)%Z) by (now apply Qfloordiv_nonneg).
  assert (Em : t + - m == inject_Z (Zpos n * k)).
  { unfold m, Qmod. fold k. fold b. rewrite inject_Z_mult. fold b. ring. }
  assert (Hbk : inject_Z (Zpos n * k) <= pow2 53) by (rewrite <- Em; lra).
  assert (Hbk' : (Zpos n * k <= 2 ^ 53)%Z).
  { rewrite pow2_Z in Hbk by lia. now rewrite <- Zle_Qle in Hbk. }
  assert (Hk53 : (k <= 2 ^ 53)%Z) by nia.
  assert (Hbk0 : 0 <= inject_Z (Zpos n * k)).
  { change 0 with (inject_Z 0). rewrite <- Zle_Qle. lia. }
  pose proof (pow2_pos 53) as P53.
  (* a - rem *)
  rewrite sub_fin, round_small by lra.
  set (d0 := Qred (nearest (t + - m))).
  assert (E0 : d0 == inject_Z (Zpos n * k)).
  { unfold d0. rewrite Qred_correct, Em. apply nearest_Z. lia. }
  (* (a - rem) / b *)
  pose proof (div_fin_pos d0 n) as Hdiv. fold b in Hdiv. rewrite Hdiv.
  assert (E1 : d0 / b == inject_Z k).
  { rewrite E0, inject_Z_mult. fold b. field. lra. }
  assert (Bk : inject_Z k <= pow2 53).
  { rewrite pow2_Z by lia. rewrite <- Zle_Qle. lia. }
  assert (Bk0 : 0 <= inject_Z k).
  { change 0 with (inject_Z 0). rewrite <- Zle_Qle. lia. }
  rewrite round_small by lra.
  set (d := Qred (nearest (d0 / b))).
  assert (E2 : d == inject_Z k).
  { unfold d. rewrite Qred_correct, E1. apply nearest_Z. lia. }
  (* the remainder is not negative *)
  assert (G : Float.gtb Float.zero (Fin m) = false).
  { cbn [Float.gtb Float.zero]. apply Qle_bool_iff in M0. now rewrite M0. }
  rewrite G.
  destruct (Float.is_zero d) eqn:Z.
  - exists 0. split; [reflexivity|].
    unfold Float.is_zero in Z. apply Qeq_bool_iff in Z.
    rewrite <- E2, Z. reflexivity.
  - assert (Fl : Qfloor d = k) by (now rewrite (Qfloor_comp _ _ E2), Qfloor_Z).
    rewrite Fl, sub_fin.
    assert (E3 : d + - inject_Z k == 0) by (rewrite E2; ring).
    rewrite round_small by lra.
    assert (G2 : Float.gtb (Fin (Qred (nearest (d + - inject_Z k)))) (Fin (1 # 2))
                 = false).
    { cbn [Float.gtb].
      assert (Qred (nearest (d + - inject_Z k)) <= 1 # 2) as L.
      { rewrite Qred_correct, E3. rewrite nearest_zero by reflexivity. discriminate. }
      apply Qle_bool_iff in L. now rewrite L. }
    rewrite G2. exists (inject_Z k). split; reflexivity.
Qed.

(** The quotient by 100 of a binary64 number below 100 rounds below 1. *)
Lemma below_one_double : nearest BELOW_ONE == BELOW_ONE.
Proof.
  assert (E : BELOW_ONE == inject_Z (2 ^ 53 - 1) * pow2 (-53)).
  { unfold BELOW_ONE. vm_compute. reflexivity. }
  rewrite E. apply nearest_representable; [reflexivity | lia].
Qed.

Lemma progress_below_one (t : Q) :
  double t -> 0 <= t ->
  0 <= nearest (Qmod t 100 / 100) /\ nearest (Qmod t 100 / 100) <= BELOW_ONE.
Proof.
  intros D Ht. destruct (Qmod_bounds t 100) as [M0 M1].
  change (inject_Z 100) with 100 in M1.
  split.
  - apply nearest_nonneg. apply Qle_shift_div_l; [reflexivity | lra].
  - rewrite <- below_one_double. apply nearest_mono.
    apply Qle_shift_div_r; [reflexivity|].
    assert (B : BELOW_ONE * 100 == 100 - 100 * pow2 (-53)) by (unfold BELOW_ONE; ring).
    rewrite B.
    assert (P : 100 * pow2 (-53) <= pow2 (-46)).
    { vm_compute. discriminate. }
    assert (P64 : 64 <= 100 - pow2 (-46)).
    { vm_compute. discriminate. }
    destruct (double_grid t D Ht) as [L|[z Ez]].
    + (* t is below 100: the remainder is t *)
      assert (Qmod t 100 <= t).
      { unfold Qmod. pose proof (Qfloordiv_nonneg t 100 Ht) as K.
        rewrite Zle_Qle in K. change (inject_Z 0) with 0 in K.
        change (inject_Z 100) with 100.
        set (kk := inject_Z (Qfloordiv t 100)) in *. lra. }
      set (m := Qmod t 100) in *. set (p46 := pow2 (-46)) in *.
      set (p53 := pow2 (-53)) in *. clearbody m p46 p53. lra.
    + (* the remainder is a multiple of 2^-46 below 100 *)
      set (k := Qfloordiv t 100).
      assert (Em : Qmod t 100 == inject_Z (z - 100 * 2 ^ 46 * k) * pow2 (-46)).
      { unfold Qmod. fold k. rewrite Ez.
        unfold Zminus. rewrite inject_Z_plus, inject_Z_opp, !inject_Z_mult.
        assert (I : inject_Z (2 ^ 46) * pow2 (-46) == 1) by (vm_compute; reflexivity).
        change (inject_Z 100) with 100.
        setoid_replace ((inject_Z z + - (100 * inject_Z (2 ^ 46) * inject_Z k)) * pow2 (-46))
          with (inject_Z z * pow2 (-46)
                - 100 * inject_Z k * (inject_Z (2 ^ 46) * pow2 (-46))) by ring.
        rewrite I. ring. }
      set (w := (z - 100 * 2 ^ 46 * k)%Z) in *.
      assert (W : (w < 100 * 2 ^ 46)%Z).
      { rewrite Zlt_Qlt.
        assert (I : inject_Z (100 * 2 ^ 46) * pow2 (-46) == 100) by (vm_compute; reflexivity).
        pose proof (pow2_pos (-46)) as P46.
        destruct (Qlt_le_dec (inject_Z w) (inject_Z (100 * 2 ^ 46))) as [Y|N]; [exact Y|].
        assert (inject_Z (100 * 2 ^ 46) * pow2 (-46) <= inject_Z w * pow2 (-46))
          by (apply Qmult_le_compat_r; lra).
        lra. }
      assert (W' : inject_Z w <= inject_Z (100 * 2 ^ 46 - 1)).
      { rewrite <- Zle_Qle. lia. }
      assert (I : inject_Z (100 * 2 ^ 46 - 1) * pow2 (-46) == 100 - pow2 (-46))
        by (vm_compute; reflexivity).
      pose proof (pow2_pos (-46)) as P46.
      assert (inject_Z w * pow2 (-46) <= inject_Z (100 * 2 ^ 46 - 1) * pow2 (-46))
        by (apply Qmult_le_compat_r; lra).
      lra.
Qed.

Lemma below_one_lt : BELOW_ONE < 1.
Proof. vm_compute. reflexivity. Qed.

(* ------------------------------------------------------------------ *)
(** ** The order of a floating-point sum *)

Section Pairwise.

Context {A : Type} (f : A -> float).

Lemma accumulate_summation (xs l0 : list A) (res : float) :
  Summation f l0 res ->
  Summation f (l0 ++ xs) (Numpy.accumulate res (map f xs)).
Proof.
  revert l0 res. induction xs as [|a xs IH]; intros l0 res H.
  - rewrite app_nil_r. exact H.
  - replace (l0 ++ a :: xs) with ((l0 ++ [a]) ++ xs)
      by (rewrite <- app_assoc; reflexivity).
    apply (IH (l0 ++ [a]) (Float64.add res (f a))).
    apply Sum_add; [exact H | apply Sum_one].
Qed.

Lemma add8_summation (subs : list (list A)) (rs : list float) :
  Forall2 (Summation f) subs rs ->
  forall c, List.length c = List.length subs ->
  Forall2 (Summation f) (map (fun p => fst p ++ [snd p]) (combine subs c))
    (Numpy.add8 rs (map f c)) /\
  Permutation (List.concat (map (fun p => fst p ++ [snd p]) (combine subs c)))
    (List.concat subs ++ c).
Proof.
  induction 1 as [|s r subs rs Hs Hrest IH]; intros c Hc.
  - destruct c; [|discriminate]. split; [constructor | reflexivity].
  - destruct c as [|a c]; [discriminate|].
    injection Hc as Hc. destruct (IH c Hc) as [F P].
    split.
    + cbn. constructor; [|exact F].
      apply Sum_add; [exact Hs | apply Sum_one].
    + cbn [combine map List.concat fst snd].
      rewrite <- !app_assoc. apply Permutation_app_head.
      cbn [app]. apply Permutation_cons_app. exact P.
Qed.

Lemma firstn_plus (a b : nat) (l : list A) :
  firstn (a + b) l = firstn a l ++ firstn b (skipn a l).
Proof.
  revert l. induction a as [|a IH]; intro l; [reflexivity|].
  destruct l as [|x l]; cbn.
  - now rewrite firstn_nil.
  - now rewrite IH.
Qed.

Lemma unrolled_summation (chunks : nat) :
  forall (xs : list A) (subs : list (list A)) (rs : list float),
    Forall2 (Summation f) subs rs ->
    List.length subs = 8%nat ->
    (8 * chunks <= List.length xs)%nat ->
    exists subs',
      Forall2 (Summation f) subs' (Numpy.unrolled rs (map f xs) chunks) /\
      List.length subs' = 8%nat /\
      Permutation (List.concat subs') (List.concat subs ++ firstn (8 * chunks) xs).
Proof.
  induction chunks as [|k IH]; intros xs subs rs F L Hlen.
  - exists subs. split; [exact F|]. split; [exact L|].
    cbn. now rewrite app_nil_r.
  - cbn [Numpy.unrolled]. rewrite firstn_map, skipn_map.
    assert (L8 : List.length (firstn 8 xs) = List.length subs).
    { rewrite length_firstn, L. lia. }
    destruct (add8_summation subs rs F (firstn 8 xs) L8) as [F1 P1].
    destruct (IH (skipn 8 xs)
                (map (fun p => fst p ++ [snd p]) (combine subs (firstn 8 xs)))
                _ F1) as (subs' & F2 & L2 & P2).
    + rewrite length_map, length_combine, L, length_firstn. lia.
    + rewrite length_skipn. lia.
    + exists subs'. split; [exact F2|]. split; [exact L2|].
      rewrite P2, P1. replace (8 * S k)%nat with (8 + 8 * k)%nat by lia.
      rewrite firstn_plus, app_assoc. reflexivity.
Qed.

Lemma combine8_summation (subs : list (list A)) (rs : list float) :
  Forall2 (Summation f) subs rs ->
  List.length subs = 8%nat ->
  Summation f (List.concat subs) (Numpy.combine8 rs).
Proof.
  intros F L.
  do 9 (destruct subs as [|? subs]; try discriminate L).
  repeat match goal with
         | H : Forall2 _ (_ :: _) _ |- _ => inversion H; subst; clear H
         | H : Forall2 _ [] _ |- _ => inversion H; subst; clear H
         end.
  unfold Numpy.combine8. cbn [nth List.concat].
  match goal with
  | |- Summation _ (?a ++ ?b ++ ?c ++ ?d ++ ?e ++ ?g ++ ?h ++ ?i ++ []) _ =>
      replace (a ++ b ++ c ++ d ++ e ++ g ++ h ++ i ++ [])
        with (((a ++ b) ++ (c ++ d)) ++ ((e ++ g) ++ (h ++ i)))
        by (rewrite app_nil_r, <- !app_assoc; reflexivity)
  end.
  repeat apply Sum_add; assumption.
Qed.

Lemma concat_singletons (l : list A) : List.concat (map (fun a => [a]) l) = l.
Proof. induction l as [|a l IH]; cbn; [reflexivity | now rewrite IH]. Qed.

Lemma Forall2_singletons (l : list A) :
  Forall2 (Summation f) (map (fun a => [a]) l) (map f l).
Proof. induction l; cbn; constructor; [apply Sum_one | assumption]. Qed.

Lemma block_summation (xs : list A) :
  (8 <= List.length xs)%nat ->
  Summation f xs (Numpy.block_sum (map f xs)).
Proof.
  intro H8. unfold Numpy.block_sum. rewrite length_map.
  set (n := List.length xs) in *.
  rewrite !firstn_map, !skipn_map.
  assert (Hm : (8 * (n / 8) <= n)%nat) by (apply Nat.Div0.mul_div_le).
  assert (Hq : (1 <= n / 8)%nat).
  { apply Nat.div_le_lower_bound; lia. }
  destruct (unrolled_summation (n / 8 - 1) (skipn 8 xs)
              (map (fun a => [a]) (firstn 8 xs)) (map f (firstn 8 xs)))
    as (subs & F & L & P).
  - apply Forall2_singletons.
  - rewrite length_map, length_firstn. fold n. lia.
  - rewrite length_skipn. fold n. lia.
  - rewrite concat_singletons, <- firstn_plus in P.
    replace (8 + 8 * (n / 8 - 1))%nat with (8 * (n / 8))%nat in P by lia.
    assert (Ht : (n - n mod 8 = 8 * (n / 8))%nat).
    { pose proof (Nat.div_mod_eq n 8). lia. }
    rewrite Ht.
    apply Sum_perm with (List.concat subs ++ skipn (8 * (n / 8)) xs).
    + rewrite P. now rewrite firstn_skipn.
    + apply accumulate_summation. now apply combine8_summation.
Qed.

Lemma pairwise_summation (fuel : nat) :
  forall xs : list A, Summation f xs (Numpy.pairwise_sum fuel (map f xs)).
Proof.
  induction fuel as [|fuel IH]; intro xs; cbn [Numpy.pairwise_sum];
    rewrite length_map;
    (destruct (Nat.ltb_spec (List.length xs) 8);
     [apply (accumulate_summation xs [] Float.zero); apply Sum_zero|]);
    (destruct (Nat.leb_spec (List.length xs) Numpy.PW_BLOCKSIZE);
     [apply block_summation; assumption|]).
  - apply block_summation; assumption.
  - rewrite firstn_map, skipn_map.
    rewrite <- (firstn_skipn
                  (List.length xs / 2 - (List.length xs / 2) mod 8) xs) at 1.
    apply Sum_add; apply IH.
Qed.

Lemma sum_float64_summation (xs : list A) :
  Summation f xs (Numpy.sum_float64 (map f xs)).
Proof.
  unfold Numpy.sum_float64.
  apply (Sum_add f [] xs); [apply Sum_zero | apply pairwise_summation].
Qed.

End Pairwise.


(* ------------------------------------------------------------------ *)
(** ** Properties of every floating-point sum *)

Lemma Qsum_nil : Qsum [] = 0.
Proof. reflexivity. Qed.

Lemma Qsum_cons (x : Q) (l : list Q) : Qsum (x :: l) = x + Qsum l.
Proof. reflexivity. Qed.

Lemma Qsum_app (l1 l2 : list Q) : Qsum (l1 ++ l2) == Qsum l1 + Qsum l2.
Proof.
  induction l1 as [|x l1 IH]; cbn [app]; rewrite ?Qsum_nil, ?Qsum_cons.
  - ring.
  - rewrite IH. ring.
Qed.

Lemma Qsum_perm (l l' : list Q) : Permutation l l' -> Qsum l == Qsum l'.
Proof.
  induction 1; rewrite ?Qsum_cons.
  - reflexivity.
  - now rewrite IHPermutation.
  - ring.
  - etransitivity; eassumption.
Qed.

Lemma Qsum_nonneg (l : list Q) : Forall (fun q => 0 <= q) l -> 0 <= Qsum l.
Proof.
  induction 1 as [|x l Hx _ IH]; rewrite ?Qsum_cons, ?Qsum_nil; lra.
Qed.

Section SummationRel.

Context {A : Type} (f : A -> float) (g : A -> Q) (P : A -> Prop).
Variable R : float -> Q -> nat -> Prop.

Hypothesis R_zero : R Float.zero 0 0%nat.
Hypothesis R_one : forall a, P a -> R (f a) (g a) 1%nat.
Hypothesis R_add :
  forall x s i y t j, R x s i -> R y t j -> R (Float64.add x y) (s + t) (i + j)%nat.
Hypothesis R_comp : forall x s s' i, s == s' -> R x s i -> R x s' i.

Lemma Summation_rel (l : list A) (v : float) :
  Summation f l v -> Forall P l ->
  R v (Qsum (map g l)) (List.length l).
Proof.
  induction 1 as [|a|l1 l2 x y H1 IH1 H2 IH2|l l' x Hp H IH]; intro F.
  - exact R_zero.
  - cbn [map List.length]. rewrite Qsum_cons, Qsum_nil.
    apply R_comp with (g a); [ring|]. apply R_one. now inversion F.
  - apply Forall_app in F. destruct F as [F1 F2].
    rewrite map_app, length_app.
    apply R_comp with (Qsum (map g l1) + Qsum (map g l2)).
    + now rewrite Qsum_app.
    + apply R_add; auto.
  - assert (F' : Forall P l).
    { apply Permutation_Forall with l'; [now symmetry | exact F]. }
    rewrite <- (Permutation_length Hp).
    apply R_comp with (Qsum (map g l)).
    + apply Qsum_perm. now apply Permutation_map.
    + now apply IH.
Qed.

End SummationRel.

Lemma nat_to_Q_plus (i j : nat) : nat_to_Q (i + j) == nat_to_Q i + nat_to_Q j.
Proof.
  unfold nat_to_Q. now rewrite Nat2Z.inj_add, inject_Z_plus.
Qed.

Lemma nat_to_Q_nonneg (i : nat) : 0 <= nat_to_Q i.
Proof.
  unfold nat_to_Q. change 0 with (inject_Z 0). rewrite <- Zle_Qle. lia.
Qed.

Lemma nat_to_Q_ge_1 (i : nat) : (1 <= i)%nat -> 1 <= nat_to_Q i.
Proof.
  intro H. unfold nat_to_Q. change 1 with (inject_Z 1). rewrite <- Zle_Qle. lia.
Qed.

Lemma nat_to_Q_le (i : nat) (z : Z) :
  (Z.of_nat i <= z)%Z -> nat_to_Q i <= inject_Z z.
Proof. intro H. unfold nat_to_Q. now rewrite <- Zle_Qle. Qed.

Lemma EPS_pos : 0 < EPS.
Proof. apply pow2_pos. Qed.

(** Half a unit in the last place of a number up to 1024 * k. *)
Lemma rounding_below (q k : Q) :
  0 <= q -> q <= 1000 * k -> 1 <= k ->
  Qabs (nearest q - q) <= k * EPS.
Proof.
  intros H0 H1 Hk. eapply Qle_trans; [apply nearest_err|].
  rewrite (Qabs_pos q H0).
  pose proof (pow2_pos (-53)) as P53. pose proof (pow2_pos (-1075)) as P1075.
  assert (E : EPS == 1024 * pow2 (-53)) by (vm_compute; reflexivity).
  assert (L : pow2 (-1075) <= pow2 (-53)) by (apply pow2_le; lia).
  rewrite E.
  assert (q * pow2 (-53) <= 1000 * k * pow2 (-53))
    by (apply Qmult_le_compat_r; lra).
  assert (1 * pow2 (-53) <= k * pow2 (-53))
    by (apply Qmult_le_compat_r; lra).
  set (p := pow2 (-53)) in *. set (p' := pow2 (-1075)) in *.
  clearbody p p'. nra.
Qed.

Lemma thousand_le_pow2_53 (k : nat) :
  (Z.of_nat k <= 2 ^ 43)%Z -> 1000 * nat_to_Q k <= pow2 53.
Proof.
  intro H. apply nat_to_Q_le in H.
  assert (E : 1000 * inject_Z (2 ^ 43) <= pow2 53) by (vm_compute; discriminate).
  lra.
Qed.

Lemma thousand_double (k : nat) :
  (Z.of_nat k <= 2 ^ 43)%Z ->
  nearest (1000 * nat_to_Q k) == 1000 * nat_to_Q k.
Proof.
  intro H. unfold nat_to_Q.
  change 1000 with (inject_Z 1000). rewrite <- inject_Z_mult.
  apply nearest_Z. change (2 ^ 53)%Z with 9007199254740992%Z.
  change (2 ^ 43)%Z with 8796093022208%Z in H. lia.
Qed.

Lemma within_zero : sum_within Float.zero 0 0.
Proof.
  intros _. exists 0. split; [reflexivity|].
  split; [unfold double; now rewrite nearest_zero|].
  split; [lra|]. split; [vm_compute; discriminate | vm_compute; discriminate].
Qed.

Lemma within_one (q : Q) : widget_range q -> sum_within (stored q) q 1.
Proof.
  intros [H0 H1] _. unfold stored.
  pose proof (pow2_pos 53) as P53.
  assert (B : 1000 <= pow2 53) by (vm_compute; discriminate).
  rewrite round_small by lra.
  exists (Qred (nearest q)). split; [reflexivity|].
  split; [unfold double; rewrite Qred_correct; apply double_nearest|].
  rewrite Qred_correct.
  split; [now apply nearest_nonneg|].
  split.
  - change (nat_to_Q 1) with 1.
    setoid_replace (1000 * 1) with (inject_Z 1000) by reflexivity.
    rewrite <- (nearest_Z 1000) by (vm_compute; discriminate).
    now apply nearest_mono.
  - change (nat_to_Q 1) with 1.
    setoid_replace (1 * 1 * EPS) with (1 * EPS) by ring.
    apply rounding_below; lra.
Qed.

Lemma within_comp (x : float) (s s' : Q) (i : nat) :
  s == s' -> sum_within x s i -> sum_within x s' i.
Proof.
  intros E H Hb. destruct (H Hb) as (a & Ea & D & A0 & A1 & Er).
  exists a. repeat split; trivial. now rewrite <- E.
Qed.

Lemma within_add (x : float) (s : Q) (i : nat) (y : float) (t : Q) (j : nat) :
  sum_within x s i -> sum_within y t j ->
  sum_within (Float64.add x y) (s + t) (i + j).
Proof.
  intros Hx Hy Hb.
  destruct Hx as (a & -> & Da & A0 & A1 & Ea); [lia|].
  destruct Hy as (b & -> & Db & B0 & B1 & Eb); [lia|].
  pose proof (thousand_le_pow2_53 _ Hb) as T53.
  pose proof (thousand_double _ Hb) as TD.
  rewrite nat_to_Q_plus in T53.
  pose proof (nat_to_Q_nonneg i) as I0. pose proof (nat_to_Q_nonneg j) as J0.
  pose proof (pow2_pos 53) as P53.
  rewrite add_fin, round_small by lra.
  exists (Qred (nearest (a + b))). split; [reflexivity|].
  split; [unfold double; rewrite Qred_correct; apply double_nearest|].
  rewrite Qred_correct.
  split; [apply nearest_nonneg; lra|].
  split.
  - rewrite <- TD. apply nearest_mono. rewrite nat_to_Q_plus. lra.
  - rewrite nat_to_Q_plus.
    apply Qabs_Qle_condition in Ea. apply Qabs_Qle_condition in Eb.
    pose proof EPS_pos as Heps.
    destruct i as [|i'].
    + (* the left operand is the zero the sum starts from *)
      change (nat_to_Q 0) with 0 in *.
      assert (Za : a == 0) by lra.
      assert (N : nearest (a + b) == b).
      { setoid_replace (a + b) with b by (rewrite Za; ring). exact Db. }
      rewrite N. apply Qabs_Qle_condition.
      set (J := nat_to_Q j) in *. clearbody J.
      setoid_replace (0 * 0 * EPS) with 0 in Ea by ring.
      setoid_replace ((0 + J) * (0 + J) * EPS) with (J * J * EPS) by ring.
      lra.
    + destruct j as [|j'].
      * change (nat_to_Q 0) with 0 in *.
        assert (Zb : b == 0) by lra.
        assert (N : nearest (a + b) == a).
        { setoid_replace (a + b) with a by (rewrite Zb; ring). exact Da. }
        rewrite N. apply Qabs_Qle_condition.
        set (I := nat_to_Q (S i')) in *. clearbody I.
        setoid_replace (0 * 0 * EPS) with 0 in Eb by ring.
        setoid_replace ((I + 0) * (I + 0) * EPS) with (I * I * EPS) by ring.
        lra.
      * pose proof (nat_to_Q_ge_1 (S i') ltac:(lia)) as I1.
        pose proof (nat_to_Q_ge_1 (S j') ltac:(lia)) as J1.
        set (I := nat_to_Q (S i')) in *. set (J := nat_to_Q (S j')) in *.
        clearbody I J.
        assert (Er : Qabs (nearest (a + b) - (a + b)) <= (I + J) * EPS).
        { apply rounding_below; lra. }
        apply Qabs_Qle_condition in Er. apply Qabs_Qle_condition.
        assert (Hprod : (I + J) * EPS + I * I * EPS + J * J * EPS
                        <= (I + J) * (I + J) * EPS).
        { setoid_replace ((I + J) * EPS + I * I * EPS + J * J * EPS)
            with ((I + J + I * I + J * J) * EPS) by ring.
          apply Qmult_le_compat_r; [|lra]. nra. }
        set (e := EPS) in *. clearbody e.
        set (n := nearest (a + b)) in *. clearbody n.
        set (u := (I + J) * e) in *. set (v := I * I * e) in *.
        set (w := J * J * e) in *. set (z := (I + J) * (I + J) * e) in *.
        clearbody u v w z. lra.
Qed.

(** Whole numbers add without rounding. *)
Lemma exact_zero : sum_exact Float.zero 0 0.
Proof.
  intros _. exists 0. split; [reflexivity|]. split; [reflexivity|].
  exists 0%Z. split; [reflexivity | lia].
Qed.

Lemma whole_Z (q : Q) : whole q -> exists z, q == inject_Z z.
Proof. intro H. now exists (Qfloor q). Qed.

Lemma exact_one (q : Q) :
  widget_range q /\ whole q -> sum_exact (stored q) q 1.
Proof.
  intros [[H0 H1] W] _. unfold stored.
  assert (B : 1000 <= pow2 53) by (vm_compute; discriminate).
  pose proof (pow2_pos 53) as P53.
  rewrite round_small by lra.
  assert (Z0 : (0 <= Qfloor q <= 1000)%Z).
  { split.
    - rewrite <- (Qfloor_Z 0). apply Qfloor_resp_le. exact H0.
    - rewrite <- (Qfloor_Z 1000). apply Qfloor_resp_le. exact H1. }
  exists (Qred (nearest q)). split; [reflexivity|]. split.
  - rewrite Qred_correct. unfold whole in W.
    transitivity (nearest (inject_Z (Qfloor q))); [now apply nearest_comp|].
    rewrite nearest_Z; [now symmetry|].
    change (2 ^ 53)%Z with 9007199254740992%Z. lia.
  - exists (Qfloor q). split; [exact W | lia].
Qed.

Lemma exact_comp (x : float) (s s' : Q) (i : nat) :
  s == s' -> sum_exact x s i -> sum_exact x s' i.
Proof.
  intros E H Hb. destruct (H Hb) as (a & Ea & Es & z & Ez & Hz).
  exists a. split; [exact Ea|]. split; [now rewrite <- E|].
  exists z. split; [now rewrite <- E | exact Hz].
Qed.

Lemma exact_add (x : float) (s : Q) (i : nat) (y : float) (t : Q) (j : nat) :
  sum_exact x s i -> sum_exact y t j ->
  sum_exact (Float64.add x y) (s + t) (i + j).
Proof.
  intros Hx Hy Hb.
  destruct Hx as (a & -> & Ea & za & Eza & Hza); [lia|].
  destruct Hy as (b & -> & Eb & zb & Ezb & Hzb); [lia|].
  assert (Hz : (0 <= za + zb <= 1000 * Z.of_nat (i + j))%Z) by lia.
  assert (E : a + b == inject_Z (za + zb)).
  { rewrite inject_Z_plus, Ea, Eb, Eza, Ezb. reflexivity. }
  assert (B53 : (za + zb <= 2 ^ 53)%Z).
  { change (2 ^ 53)%Z with 9007199254740992%Z.
    change (2 ^ 43)%Z with 8796093022208%Z in Hb. lia. }
  assert (Q53 : inject_Z (za + zb) <= pow2 53).
  { rewrite pow2_Z by lia. now rewrite <- Zle_Qle. }
  assert (Q0 : 0 <= inject_Z (za + zb)).
  { change 0 with (inject_Z 0). rewrite <- Zle_Qle. lia. }
  pose proof (pow2_pos 53) as P53.
  rewrite add_fin, round_small by lra.
  exists (Qred (nearest (a + b))). split; [reflexivity|]. split.
  - rewrite Qred_correct, E. rewrite nearest_Z by lia.
    rewrite inject_Z_plus, Eza, Ezb. reflexivity.
  - exists (za + zb)%Z. split; [|exact Hz].
    rewrite inject_Z_plus, Eza, Ezb. reflexivity.
Qed.

(* ------------------------------------------------------------------ *)
(** ** Sums of quantity columns *)

(** Column access by a literal name, and the error monad around it. *)
Ltac read_columns :=
  cbn [Pandas.getcol Pandas.setcol String.eqb Ascii.eqb Bool.eqb bind].

Lemma float64_values_qcol (f : WasteRecord -> Q) (rs : RecordSet) :
  mapM Pandas.float64_value (qcol f rs) = Ok (map (fun r => stored (f r)) rs).
Proof.
  induction rs as [|r rs IH]; [reflexivity|].
  cbn [qcol map mapM Pandas.float64_value bind]. fold (qcol f rs).
  rewrite IH. reflexivity.
Qed.

(** A column of float entries is summed in binary64; a column without
    entries has the sum 0. *)
Lemma sum_qcol (f : WasteRecord -> Q) (rs : RecordSet) :
  Pandas.sum (qcol f rs)
  = Ok (match rs with
        | [] => I64 0
        | _ => F64 (Numpy.sum_float64 (map (fun r => stored (f r)) rs))
        end).
Proof.
  destruct rs as [|r rs]; [reflexivity|].
  unfold Pandas.sum. cbn [qcol map Pandas.int64_values].
  change (Num (Fin (f r)) :: map (fun r0 => Num (Fin (f r0))) rs)
    with (qcol f (r :: rs)).
  now rewrite float64_values_qcol.
Qed.

Lemma sum_qcol_ok (f : WasteRecord -> Q) (rs : RecordSet) :
  exists a, Pandas.sum (qcol f rs) = Ok a.
Proof. rewrite sum_qcol. eauto. Qed.

Lemma total_map (f : WasteRecord -> Q) (rs : RecordSet) :
  total f rs = Qsum (map f rs).
Proof. reflexivity. Qed.

(** The binary64 sum of a column of quantities between 0 and 1000. *)
Lemma sum_float64_within (f : WasteRecord -> Q) (rs : RecordSet) :
  Forall (fun r => widget_range (f r)) rs ->
  sum_within (Numpy.sum_float64 (map (fun r => stored (f r)) rs))
    (total f rs) (List.length rs).
Proof.
  intro F. rewrite total_map.
  apply (Summation_rel (fun r => stored (f r)) f
           (fun r => widget_range (f r)) sum_within).
  - exact within_zero.
  - intros a Ha. now apply within_one.
  - exact within_add.
  - exact within_comp.
  - apply sum_float64_summation.
  - exact F.
Qed.

Lemma sum_float64_exact (f : WasteRecord -> Q) (rs : RecordSet) :
  Forall (fun r => widget_range (f r) /\ whole (f r)) rs ->
  sum_exact (Numpy.sum_float64 (map (fun r => stored (f r)) rs))
    (total f rs) (List.length rs).
Proof.
  intro F. rewrite total_map.
  apply (Summation_rel (fun r => stored (f r)) f
           (fun r => widget_range (f r) /\ whole (f r)) sum_exact).
  - exact exact_zero.
  - intros a Ha. now apply exact_one.
  - exact exact_add.
  - exact exact_comp.
  - apply sum_float64_summation.
  - exact F.
Qed.

(** *** Integer columns *)

Lemma wrap64_fits (z : Z) : fits64 z -> wrap64 z = z.
Proof.
  unfold fits64, wrap64. intro H. rewrite Z.mod_small; lia.
Qed.

Lemma wrap64_add_l (a z : Z) : wrap64 (wrap64 a + z) = wrap64 (a + z).
Proof.
  unfold wrap64.
  replace ((a + 2 ^ 63) mod 2 ^ 64 - 2 ^ 63 + z + 2 ^ 63)%Z
    with ((a + 2 ^ 63) mod 2 ^ 64 + z)%Z by lia.
  rewrite Zplus_mod_idemp_l. f_equal. f_equal. lia.
Qed.

Lemma sum_int64_from (l : list Z) (acc : Z) :
  fold_left (fun a z => wrap64 (a + z)) l (wrap64 acc) = wrap64 (acc + Zsum l).
Proof.
  revert acc. induction l as [|z l IH]; intro acc; cbn [fold_left Zsum fold_right].
  - now rewrite Z.add_0_r.
  - rewrite wrap64_add_l, IH. f_equal. unfold Zsum. lia.
Qed.

(** Wrapping at every addition is wrapping the exact sum. *)
Lemma sum_int64_wraps (l : list Z) : Numpy.sum_int64 l = wrap64 (Zsum l).
Proof.
  unfold Numpy.sum_int64. change 0%Z with (wrap64 0) at 1.
  now rewrite sum_int64_from.
Qed.

Lemma int64_values_zcol (f : WholeRecord -> Z) (ws : list WholeRecord) :
  Pandas.int64_values (zcol f ws) = Some (map f ws).
Proof.
  induction ws as [|w ws IH]; [reflexivity|].
  cbn [zcol map Pandas.int64_values]. fold (zcol f ws). now rewrite IH.
Qed.

Lemma sum_zcol (f : WholeRecord -> Z) (ws : list WholeRecord) :
  Pandas.sum (zcol f ws) = Ok (I64 (wrap64 (ztotal f ws))).
Proof.
  unfold Pandas.sum. rewrite int64_values_zcol, sum_int64_wraps. reflexivity.
Qed.

(* ------------------------------------------------------------------ *)
Lemma total_diverted_split (rs : RecordSet) :
  total recycling_kg rs + total compost_kg rs == total_diverted rs.
Proof.
  unfold total, total_diverted. induction rs as [|r rs IH]; simpl.
  - reflexivity.
  - rewrite <- IH. ring.
Qed.

#[export] Instance Qfloordiv_comp : Proper (Qeq ==> eq ==> eq) Qfloordiv.
Proof.
  intros a b E n m <-. unfold Qfloordiv. apply Qfloor_comp. now rewrite E.
Qed.

#[export] Instance Qmod_comp : Proper (Qeq ==> eq ==> Qeq) Qmod.
Proof.
  intros a b E n m <-. unfold Qmod. now rewrite (Qfloordiv_comp a b E n n eq_refl), E.
Qed.

(** ** Sums of the columns of a record set within the range of the form *)

Lemma range_columns (rs : RecordSet) :
  Forall record_in_range rs ->
  Forall (fun r => widget_range (recycling_kg r)) rs /\
  Forall (fun r => widget_range (compost_kg r)) rs /\
  Forall (fun r => widget_range (landfill_kg r)) rs.
Proof.
  intro F. repeat split; (eapply Forall_impl; [|exact F]);
    intros r (H1 & H2 & H3); assumption.
Qed.

Lemma whole_columns (rs : RecordSet) :
  Forall record_in_range rs -> Forall whole_record rs ->
  Forall (fun r => widget_range (recycling_kg r) /\ whole (recycling_kg r)) rs /\
  Forall (fun r => widget_range (compost_kg r) /\ whole (compost_kg r)) rs /\
  Forall (fun r => widget_range (landfill_kg r) /\ whole (landfill_kg r)) rs.
Proof.
  rewrite !Forall_forall. intros F W.
  repeat split; try (apply F; assumption); apply W; assumption.
Qed.

(** A record set with at least one record is stored in float columns. *)
Lemma sum_qcol_cons (f : WasteRecord -> Q) (r : WasteRecord) (rs : RecordSet) :
  Pandas.sum (qcol f (r :: rs))
  = Ok (F64 (Numpy.sum_float64 (map (fun r => stored (f r)) (r :: rs)))).
Proof. apply sum_qcol. Qed.

Lemma four_squares (n : nat) (e : Q) :
  nat_to_Q (n + n) * nat_to_Q (n + n) * e == 4 * nat_to_Q n * nat_to_Q n * e.
Proof. rewrite nat_to_Q_plus. ring. Qed.

Lemma nine_squares (n : nat) (e : Q) :
  nat_to_Q (n + n + n) * nat_to_Q (n + n + n) * e
  == 9 * nat_to_Q n * nat_to_Q n * e.
Proof. rewrite !nat_to_Q_plus. ring. Qed.

(** ** Levels *)

(** Level and progress of a total that is a binary64 number between 0
    and 2^53. *)
Lemma level_of_double (t : Q) :
  double t -> 0 <= t -> t <= pow2 53 ->
  exists f,
    int_of_number (Number.floordiv (F64 (Fin t)) 100) = Ok (Qfloordiv t 100) /\
    Number.truediv (Number.modulo (F64 (Fin t)) 100) (I64 100) = Fin f /\
    f == nearest (Qmod t 100 / 100) /\
    0 <= f /\ f <= BELOW_ONE.
Proof.
  intros D H0 H53.
  destruct (divmod_double t 100 H0 H53) as (q & E & Eq).
  destruct (progress_below_one t D H0) as [P0 P1].
  pose proof below_one_lt as B1. pose proof (pow2_pos 53) as P53.
  assert (One : 1 <= pow2 53) by (vm_compute; discriminate).
  exists (Qred (nearest (Qmod t 100 / 100))).
  cbn [Number.floordiv Number.modulo int_of_number]. rewrite E. cbn [fst snd].
  split; [now apply to_int_nonneg|].
  split.
  - unfold Number.truediv. cbn [Number.to_float]. rewrite of_Z_100.
    change (Fin 100) with (Fin (inject_Z (Zpos 100))).
    rewrite div_fin_pos. change (inject_Z 100) with 100.
    apply round_small.
    + destruct (Qmod_bounds t 100) as [M0 _].
      assert (0 <= Qmod t 100 / 100)
        by (apply Qle_shift_div_l; [reflexivity | lra]).
      lra.
    + destruct (Qmod_bounds t 100) as [_ M1].
      change (inject_Z 100) with 100 in M1.
      assert (Qmod t 100 / 100 <= 1)
        by (apply Qle_shift_div_r; [reflexivity | lra]).
      lra.
  - rewrite Qred_correct. split; [reflexivity|]. split; assumption.
Qed.

(** Level and progress of an integer total. *)
Lemma level_of_integer (s : Z) :
  exists f,
    int_of_number (Number.floordiv (I64 s) 100) = Ok (s / 100)%Z /\
    Number.truediv (Number.modulo (I64 s) 100) (I64 100) = Fin f /\
    f == nearest (inject_Z (s mod 100) / 100) /\
    0 <= f /\ f <= BELOW_ONE.
Proof.
  pose proof (Z.mod_pos_bound s 100 eq_refl) as Hr.
  set (r := (s mod 100)%Z) in *.
  destruct (of_Z_small r) as (q & Eq & Hq).
  { change (2 ^ 53)%Z with 9007199254740992%Z. lia. }
  assert (R0 : 0 <= inject_Z r).
  { change 0 with (inject_Z 0). rewrite <- Zle_Qle. lia. }
  assert (R1 : inject_Z r <= 99).
  { change 99 with (inject_Z 99). rewrite <- Zle_Qle. lia. }
  assert (D0 : 0 <= q / 100).
  { apply Qle_shift_div_l; [reflexivity | lra]. }
  assert (D1 : q / 100 <= 99 # 100).
  { apply Qle_shift_div_r; [reflexivity|]. rewrite Hq.
    setoid_replace ((99 # 100) * 100) with 99 by reflexivity. exact R1. }
  assert (B : (99 # 100) <= BELOW_ONE) by (vm_compute; discriminate).
  assert (One : 1 <= pow2 53) by (vm_compute; discriminate).
  pose proof (pow2_pos 53) as P53.
  exists (Qred (nearest (q / 100))).
  cbn [Number.floordiv Number.modulo int_of_number]. fold r.
  split; [reflexivity|]. split.
  - unfold Number.truediv. cbn [Number.to_float]. rewrite of_Z_100, Eq.
    change (Fin 100) with (Fin (inject_Z (Zpos 100))).
    rewrite div_fin_pos. change (inject_Z 100) with 100.
    apply round_small; lra.
  - rewrite Qred_correct. split; [now rewrite Hq|]. split.
    + apply nearest_nonneg. exact D0.
    + rewrite <- below_one_double. apply nearest_mono. lra.
Qed.

Lemma level_and_progress_empty :
  level_and_progress (frame_of []) = Ok (mkProfile (I64 0) 1 (Fin 0)).
Proof. vm_compute. reflexivity. Qed.

(** The gamification page on a record set within the range of the form:
    the total is the binary64 sum [T], and level and progress are those
    of [T]. *)
Lemma level_and_progress_frame_of (rs : RecordSet) :
  Forall record_in_range rs ->
  (Z.of_nat (List.length rs) <= 2 ^ 40)%Z ->
  exists p T f,
    level_and_progress (frame_of rs) = Ok p /\
    Number.value (total_saved p) = Fin T /\
    progress p = Fin f /\
    double T /\ 0 <= T /\
    Qabs (T - total_diverted rs)
    <= 4 * nat_to_Q (List.length rs) * nat_to_Q (List.length rs) * EPS /\
    (Forall whole_record rs -> T == total_diverted rs) /\
    level p = (Qfloordiv T 100 + 1)%Z /\
    f == nearest (Qmod T 100 / 100) /\
    0 <= f /\ f <= BELOW_ONE.
Proof.
  intros F Hn. destruct rs as [|r0 rs0].
  - exists (mkProfile (I64 0) 1 (Fin 0)), 0, 0.
    split; [exact level_and_progress_empty|].
    cbn [total_saved progress level Number.value].
    split; [reflexivity|]. split; [reflexivity|].
    split; [unfold double; now rewrite nearest_zero|].
    split; [lra|]. split; [vm_compute; discriminate|].
    split; [reflexivity|]. split; [reflexivity|].
    split; [vm_compute; reflexivity|].
    split; [lra | vm_compute; discriminate].
  - set (rs := r0 :: rs0) in *. set (n := List.length rs) in *.
    destruct (range_columns rs F) as (Fr & Fc & _).
    pose proof (sum_float64_within recycling_kg rs Fr) as Wr.
    pose proof (sum_float64_within compost_kg rs Fc) as Wc.
    pose proof (within_add _ _ _ _ _ _ Wr Wc) as W. fold n in W.
    assert (Hb : (Z.of_nat (n + n) <= 2 ^ 43)%Z).
    { change (2 ^ 43)%Z with 8796093022208%Z.
      change (2 ^ 40)%Z with 1099511627776%Z in Hn. lia. }
    destruct (W Hb) as (T & ET & DT & T0 & T1 & Terr).
    pose proof (thousand_le_pow2_53 _ Hb) as T53.
    destruct (level_of_double T DT T0) as (f & Elev & Eprog & Ef & F0 & F1);
      [lra|].
    exists (mkProfile (F64 (Fin T)) (Qfloordiv T 100 + 1) (Fin f)), T, f.
    split.
    { unfold level_and_progress, frame_of. read_columns.
      unfold rs at 1 2. rewrite !sum_qcol_cons. fold rs.
      cbn [bind Number.add Number.to_float]. rewrite ET.
      rewrite Elev. cbn [bind]. now rewrite Eprog. }
    cbn [total_saved progress level Number.value].
    split; [reflexivity|]. split; [reflexivity|].
    split; [exact DT|]. split; [exact T0|].
    split.
    { rewrite <- total_diverted_split, <- four_squares. exact Terr. }
    split.
    { intro Wh. destruct (whole_columns rs F Wh) as (Xr & Xc & _).
      pose proof (sum_float64_exact recycling_kg rs Xr) as Er.
      pose proof (sum_float64_exact compost_kg rs Xc) as Ec.
      pose proof (exact_add _ _ _ _ _ _ Er Ec) as E. fold n in E.
      destruct (E Hb) as (T' & ET' & ES & _).
      rewrite ET in ET'. injection ET' as <-.
      rewrite ES. apply total_diverted_split. }
    split; [reflexivity|]. split; [exact Ef|]. split; assumption.
Qed.

Lemma total_diverted_whole (ws : list WholeRecord) :
  total_diverted (map record_of_whole ws)
  == inject_Z (ztotal whole_recycling ws + ztotal whole_compost ws).
Proof.
  unfold total_diverted, ztotal.
  induction ws as [|w ws IH]; [reflexivity|].
  cbn [map Zsum fold_right]. fold (Zsum (map whole_recycling ws)).
  fold (Zsum (map whole_compost ws)). rewrite Qsum_cons, IH.
  cbn [record_of_whole recycling_kg compost_kg].
  rewrite <- !inject_Z_plus. apply inject_Z_injective. lia.
Qed.

Lemma level_and_progress_int_frame_of (ws : list WholeRecord) :
  fits64 (ztotal whole_recycling ws) ->
  fits64 (ztotal whole_compost ws) ->
  fits64 (ztotal whole_recycling ws + ztotal whole_compost ws) ->
  exists f,
    level_and_progress (int_frame_of ws)
    = Ok (mkProfile
            (I64 (ztotal whole_recycling ws + ztotal whole_compost ws))
            ((ztotal whole_recycling ws + ztotal whole_compost ws) / 100 + 1)
            (Fin f)) /\
    f == nearest
           (inject_Z ((ztotal whole_recycling ws + ztotal whole_compost ws)
                      mod 100) / 100) /\
    0 <= f /\ f <= BELOW_ONE.
Proof.
  intros Hr Hc Hs.
  set (s := (ztotal whole_recycling ws + ztotal whole_compost ws)%Z) in *.
  destruct (level_of_integer s) as (f & Elev & Eprog & Ef & F0 & F1).
  exists f. split; [|repeat split; assumption].
  unfold level_and_progress, int_frame_of. read_columns.
  rewrite !sum_zcol, !wrap64_fits by assumption.
  cbn [bind Number.add]. fold s. rewrite wrap64_fits by assumption.
  rewrite Elev. cbn [bind]. now rewrite Eprog.
Qed.

(** C6 (amended).  On a record set within the range of the form (at most
    2^40 records) the page computes the total T of the diverted
    quantities in binary64, within 4 * N^2 * 2^-43 of total_diverted and
    equal to it when the quantities are whole numbers; then
    level = floor(T / 100) + 1, which is at least 1, and the progress is
    (T mod 100) / 100 rounded to binary64, in [0, 1); T = 250 gives
    (3, 0.5) and T = 0 gives (1, 0).  On a table of integer columns whose
    sums fit in 64 bits the total is exact: level =
    floor(total_diverted / 100) + 1 and progress the rounded
    (total_diverted mod 100) / 100. *)
Theorem level_and_progress_correct :
  (forall rs : RecordSet,
      Forall record_in_range rs ->
      (Z.of_nat (List.length rs) <= 2 ^ 40)%Z ->
      exists p T f,
        level_and_progress (frame_of rs) = Ok p /\
        Number.value (total_saved p) = Fin T /\
        progress p = Fin f /\
        Qabs (T - total_diverted rs)
        <= 4 * nat_to_Q (List.length rs) * nat_to_Q (List.length rs) * EPS /\
        (Forall whole_record rs -> T == total_diverted rs) /\
        level p = (Qfloor (T / 100) + 1)%Z /\
        (1 <= level p)%Z /\
        f == Binary64.nearest (Qmod T 100 / 100) /\
        0 <= f /\ f < 1 /\
        (T == 250 -> level p = 3%Z /\ f == 1 # 2) /\
        (T == 0 -> level p = 1%Z /\ f == 0)) /\
  (forall ws : list WholeRecord,
      Forall fits64_record ws ->
      fits64 (ztotal whole_recycling ws) ->
      fits64 (ztotal whole_compost ws) ->
      fits64 (ztotal whole_recycling ws + ztotal whole_compost ws) ->
      exists p s f,
        level_and_progress (int_frame_of ws) = Ok p /\
        total_saved p = I64 s /\
        progress p = Fin f /\
        inject_Z s == total_diverted (map record_of_whole ws) /\
        level p = (s / 100 + 1)%Z /\
        ((0 <= s)%Z -> (1 <= level p)%Z) /\
        f == Binary64.nearest (inject_Z (s mod 100) / 100) /\
        0 <= f /\ f < 1 /\
        (s = 250%Z -> level p = 3%Z /\ f == 1 # 2) /\
        (s = 0%Z -> level p = 1%Z /\ f == 0)).
Proof.
  pose proof below_one_lt as B1.
  split.
  - intros rs F Hn.
    destruct (level_and_progress_frame_of rs F Hn)
      as (p & T & f & E & ET & Ep & DT & T0 & Terr & Tw & Lev & Ef & F0 & F1).
    exists p, T, f.
    split; [exact E|]. split; [exact ET|]. split; [exact Ep|].
    split; [exact Terr|]. split; [exact Tw|].
    split; [exact Lev|].
    split.
    { rewrite Lev. pose proof (Qfloordiv_nonneg T 100 T0). lia. }
    split; [exact Ef|]. split; [exact F0|]. split; [lra|].
    split.
    + intro H. split.
      * rewrite Lev, (Qfloordiv_comp T 250 H 100%positive 100%positive eq_refl).
        reflexivity.
      * rewrite Ef.
        transitivity (nearest (Qmod 250 100 / 100)).
        { apply nearest_comp. now rewrite (Qmod_comp T 250 H 100%positive _ eq_refl). }
        vm_compute. reflexivity.
    + intro H. split.
      * rewrite Lev, (Qfloordiv_comp T 0 H 100%positive 100%positive eq_refl).
        reflexivity.
      * rewrite Ef.
        transitivity (nearest (Qmod 0 100 / 100)).
        { apply nearest_comp. now rewrite (Qmod_comp T 0 H 100%positive _ eq_refl). }
        vm_compute. reflexivity.
  - intros ws _ Hr Hc Hs.
    destruct (level_and_progress_int_frame_of ws Hr Hc Hs)
      as (f & E & Ef & F0 & F1).
    set (s := (ztotal whole_recycling ws + ztotal whole_compost ws)%Z) in *.
    exists (mkProfile (I64 s) (s / 100 + 1) (Fin f)), s, f.
    cbn [total_saved progress level].
    split; [exact E|]. split; [reflexivity|]. split; [reflexivity|].
    split; [symmetry; apply total_diverted_whole|].
    split; [reflexivity|].
    split.
    { intro H. assert (0 <= s / 100)%Z by (apply Z.div_pos; lia). lia. }
    split; [exact Ef|]. split; [exact F0|]. split; [lra|].
    split.
    + intro H. rewrite Ef, H. split; [reflexivity | vm_compute; reflexivity].
    + intro H. rewrite Ef, H. split; [reflexivity | vm_compute; reflexivity].
Qed.

Lemma level_and_progress_correct_witness :
  (exists p T,
      level_and_progress (frame_of [mkRecord 0 200 50 30]) = Ok p /\
      Number.value (total_saved p) = Fin T /\
      level p = (Qfloor (T / 100) + 1)%Z) /\
  (exists p,
      level_and_progress
        (int_frame_of [mkWhole 0 45 20 100; mkWhole 7 48 22 95]) = Ok p /\
      total_saved p = I64 135).
Proof.
  split.
  - destruct (proj1 level_and_progress_correct [mkRecord 0 200 50 30])
      as (p & T & f & E & ET & _ & _ & _ & Lev & _).
    + repeat constructor; cbn; discriminate.
    + vm_compute. discriminate.
    + exists p, T. repeat split; assumption.
  - destruct (proj2 level_and_progress_correct
                [mkWhole 0 45 20 100; mkWhole 7 48 22 95])
      as (p & s & f & E & Es & _).
    + repeat constructor; vm_compute; congruence.
    + split; vm_compute; congruence.
    + split; vm_compute; congruence.
    + split; vm_compute; congruence.
    + exists p. split; [exact E|].
      vm_compute in E. injection E as <-. reflexivity.
Defined.

(** C6 (counterexample).  Two records within the range of the form whose
    diverted quantities add up to exactly 100 kg: the formula of the
    claim gives level 2 and progress 0, the page computes the total
    99.99999999999999 and shows level 1 with progress
    0.9999999999999999. *)
Lemma level_and_progress_rounds_down :
  Forall record_in_range rounding_records /\
  total_diverted rounding_records == 100 /\
  (Qfloor (total_diverted rounding_records / 100) + 1 = 2)%Z /\
  Qmod (total_diverted rounding_records) 100 / 100 == 0 /\
  level_and_progress (frame_of rounding_records)
  = Ok (mkProfile (F64 (Fin (7036874417766399 # 70368744177664))) 1
          (Fin (9007199254740991 # 9007199254740992))).
Proof.
  split; [repeat constructor; cbn; discriminate|].
  split; [vm_compute; reflexivity|].
  split; [vm_compute; reflexivity|].
  split; [vm_compute; reflexivity|].
  vm_compute. reflexivity.
Qed.

(* ------------------------------------------------------------------ *)
(** ** The dashboard *)

Lemma is_zero_false (q : Q) : ~ q == 0 -> Float.is_zero q = false.
Proof.
  intro H. unfold Float.is_zero. destruct (Qeq_bool q 0) eqn:E; [|reflexivity].
  apply Qeq_bool_iff in E. contradiction.
Qed.

Lemma is_zero_true (q : Q) : q == 0 -> Float.is_zero q = true.
Proof. intro H. now apply Qeq_bool_iff. Qed.

Lemma round_fin_eq (q a : Q) : round q = Fin a -> a == nearest q.
Proof.
  unfold round.
  destruct (Qle_bool (pow2 1024) (nearest q)); [discriminate|].
  destruct (Qle_bool (nearest q) (- pow2 1024)); [discriminate|].
  intros [= <-]. apply Qred_correct.
Qed.

Lemma number_gtb_pos (g : Q) : 0 < g -> Number.gtb (F64 (Fin g)) 0 = true.
Proof.
  intro H. cbn [Number.gtb Float.gtb]. change (inject_Z 0) with 0.
  destruct (Qle_bool g 0) eqn:E; [|reflexivity].
  apply Qle_bool_iff in E. lra.
Qed.

Lemma number_gtb_nonpos (g : Q) : g <= 0 -> Number.gtb (F64 (Fin g)) 0 = false.
Proof.
  intro H. cbn [Number.gtb Float.gtb]. change (inject_Z 0) with 0.
  apply Qle_bool_iff in H. now rewrite H.
Qed.

(** The rate of a diverted part [a] of a positive total [g]. *)
Lemma rate_of_doubles (a g : Q) :
  0 <= a -> a <= g -> 0 < g ->
  exists d,
    Float64.mul (Number.truediv (F64 (Fin a)) (F64 (Fin g))) (Fin 100) = Fin d /\
    d == nearest (nearest (a / g) * 100) /\
    0 <= d /\ d <= 100.
Proof.
  intros A0 Ag G0.
  assert (One : 100 <= pow2 53) by (vm_compute; discriminate).
  pose proof (pow2_pos 53) as P53.
  assert (D0 : 0 <= a / g).
  { apply Qle_shift_div_l; [exact G0|]. now rewrite Qmult_0_l. }
  assert (D1 : a / g <= 1).
  { apply Qle_shift_div_r; [exact G0|]. now rewrite Qmult_1_l. }
  set (r := a / g) in *.
  assert (N1 : nearest 1 == 1) by (apply (nearest_Z 1); vm_compute; discriminate).
  assert (N100 : nearest 100 == 100)
    by (apply (nearest_Z 100); vm_compute; discriminate).
  assert (S0 : 0 <= nearest r) by (now apply nearest_nonneg).
  assert (S1 : nearest r <= 1) by (rewrite <- N1; now apply nearest_mono).
  unfold Number.truediv, Float64.div. cbn [Number.to_float Float.div].
  rewrite is_zero_false by lra. cbn [Float64.rnd]. fold r.
  rewrite round_small by lra.
  unfold Float64.mul. cbn [Float.mul Float64.rnd].
  set (s := Qred (nearest r)).
  assert (Es : s == nearest r) by apply Qred_correct.
  rewrite round_small by (rewrite Es; lra).
  exists (Qred (nearest (s * 100))). split; [reflexivity|].
  rewrite Qred_correct. split; [now rewrite Es|].
  split.
  - apply nearest_nonneg. rewrite Es. lra.
  - apply Qle_trans with (nearest 100); [|rewrite N100; apply Qle_refl].
    apply nearest_mono. rewrite Es. lra.
Qed.

Lemma aggregate_empty :
  aggregate (frame_of [])
  = Ok (mkMetrics (I64 0) (I64 0) (I64 0) (I64 0) (I64 0)).
Proof. reflexivity. Qed.

(** The dashboard on a record set within the range of the form. *)
Lemma aggregate_frame_of (rs : RecordSet) :
  Forall record_in_range rs ->
  (Z.of_nat (List.length rs) <= 2 ^ 40)%Z ->
  exists m tr tc tl a g,
    aggregate (frame_of rs) = Ok m /\
    Number.value (total_recycling m) = Fin tr /\
    Number.value (total_compost m) = Fin tc /\
    Number.value (total_landfill m) = Fin tl /\
    Number.value (grand_total m) = Fin g /\
    Qabs (tr - total recycling_kg rs)
    <= nat_to_Q (List.length rs) * nat_to_Q (List.length rs) * EPS /\
    Qabs (tc - total compost_kg rs)
    <= nat_to_Q (List.length rs) * nat_to_Q (List.length rs) * EPS /\
    Qabs (tl - total landfill_kg rs)
    <= nat_to_Q (List.length rs) * nat_to_Q (List.length rs) * EPS /\
    a == nearest (tr + tc) /\ g == nearest (a + tl) /\
    Qabs (g - (total recycling_kg rs + total compost_kg rs
               + total landfill_kg rs))
    <= 9 * nat_to_Q (List.length rs) * nat_to_Q (List.length rs) * EPS /\
    (Forall (fun r => whole (recycling_kg r)) rs ->
       tr == total recycling_kg rs) /\
    (Forall (fun r => whole (compost_kg r)) rs ->
       tc == total compost_kg rs) /\
    (Forall (fun r => whole (landfill_kg r)) rs ->
       tl == total landfill_kg rs) /\
    (Forall whole_record rs ->
       g == total recycling_kg rs + total compost_kg rs + total landfill_kg rs) /\
    0 <= a /\ a <= g /\
    (0 < g ->
       exists d,
         div_rate m = F64 (Fin d) /\
         d == nearest (nearest (a / g) * 100) /\ 0 <= d /\ d <= 100) /\
    (g == 0 -> div_rate m = I64 0).
Proof.
  intros F Hn. destruct rs as [|r0 rs0].
  - exists (mkMetrics (I64 0) (I64 0) (I64 0) (I64 0) (I64 0)), 0, 0, 0, 0, 0.
    split; [exact aggregate_empty|].
    cbn [total_recycling total_compost total_landfill grand_total div_rate
         Number.value].
    repeat (split; [first [reflexivity | vm_compute; discriminate
                          | vm_compute; reflexivity]|]).
    intros _. reflexivity.
  - set (rs := r0 :: rs0) in *. set (n := List.length rs) in *.
    destruct (range_columns rs F) as (Fr & Fc & Fl).
    pose proof (sum_float64_within recycling_kg rs Fr) as Wr.
    pose proof (sum_float64_within compost_kg rs Fc) as Wc.
    pose proof (sum_float64_within landfill_kg rs Fl) as Wl.
    pose proof (within_add _ _ _ _ _ _ Wr Wc) as Wa.
    pose proof (within_add _ _ _ _ _ _ Wa Wl) as Wg.
    fold n in Wr, Wc, Wl, Wa, Wg.
    assert (Hb1 : (Z.of_nat n <= 2 ^ 43)%Z).
    { change (2 ^ 43)%Z with 8796093022208%Z.
      change (2 ^ 40)%Z with 1099511627776%Z in Hn. lia. }
    assert (Hb2 : (Z.of_nat (n + n) <= 2 ^ 43)%Z).
    { change (2 ^ 43)%Z with 8796093022208%Z.
      change (2 ^ 40)%Z with 1099511627776%Z in Hn. lia. }
    assert (Hb3 : (Z.of_nat (n + n + n) <= 2 ^ 43)%Z).
    { change (2 ^ 43)%Z with 8796093022208%Z.
      change (2 ^ 40)%Z with 1099511627776%Z in Hn. lia. }
    destruct (Wr Hb1) as (tr & Etr & Dr & R0 & R1 & Rerr).
    destruct (Wc Hb1) as (tc & Etc & Dc & C0 & C1 & Cerr).
    destruct (Wl Hb1) as (tl & Etl & Dl & L0 & L1 & Lerr).
    destruct (Wa Hb2) as (a & Ea & Da & A0 & A1 & Aerr).
    destruct (Wg Hb3) as (g & Eg & Dg & G0 & G1 & Gerr).
    rewrite Etr, Etc in Ea. rewrite Etr, Etc, Ea, Etl in Eg.
    assert (Ha : a == nearest (tr + tc)) by (now apply round_fin_eq).
    assert (Hg : g == nearest (a + tl)) by (now apply round_fin_eq).
    assert (Hag : a <= g).
    { rewrite Hg. apply Qle_trans with (nearest a).
      - unfold double in Da. rewrite Da. apply Qle_refl.
      - apply nearest_mono. lra. }
    assert (E : exists rate,
               aggregate (frame_of rs)
               = Ok (mkMetrics (F64 (Fin tr)) (F64 (Fin tc)) (F64 (Fin tl))
                       (F64 (Fin g)) rate) /\
               (0 < g ->
                exists d,
                  rate = F64 (Fin d) /\
                  d == nearest (nearest (a / g) * 100) /\ 0 <= d /\ d <= 100) /\
               (g == 0 -> rate = I64 0)).
    { unfold aggregate, frame_of. read_columns.
      unfold rs at 1 2 3. rewrite !sum_qcol_cons. fold rs.
      rewrite Etr, Etc, Etl.
      cbn [bind Number.add Number.to_float]. rewrite Ea, Eg.
      destruct (Qlt_le_dec 0 g) as [Gp|Gn].
      - rewrite (number_gtb_pos g Gp).
        destruct (rate_of_doubles a g A0 Hag Gp) as (d & Ed & Hd & D0 & D1).
        rewrite Ed. eexists. split; [reflexivity|]. split.
        + intros _. exists d. repeat split; assumption.
        + intro Z. lra.
      - rewrite (number_gtb_nonpos g Gn).
        eexists. split; [reflexivity|]. split.
        + intro Gp. lra.
        + reflexivity. }
    destruct E as (rate & E & Hpos & Hzero).
    exists (mkMetrics (F64 (Fin tr)) (F64 (Fin tc)) (F64 (Fin tl))
              (F64 (Fin g)) rate), tr, tc, tl, a, g.
    cbn [total_recycling total_compost total_landfill grand_total div_rate
         Number.value].
    split; [exact E|].
    do 4 (split; [reflexivity|]).
    split; [exact Rerr|]. split; [exact Cerr|]. split; [exact Lerr|].
    split; [exact Ha|]. split; [exact Hg|].
    split.
    { rewrite <- nine_squares. exact Gerr. }
    split.
    { intro Wh. pose proof (Forall_and Fr Wh) as Xr.
      destruct (sum_float64_exact recycling_kg rs Xr Hb1) as (tr' & Etr' & ESr & _).
      rewrite Etr in Etr'. injection Etr' as <-. exact ESr. }
    split.
    { intro Wh. pose proof (Forall_and Fc Wh) as Xc.
      destruct (sum_float64_exact compost_kg rs Xc Hb1) as (tc' & Etc' & ESc & _).
      rewrite Etc in Etc'. injection Etc' as <-. exact ESc. }
    split.
    { intro Wh. pose proof (Forall_and Fl Wh) as Xl.
      destruct (sum_float64_exact landfill_kg rs Xl Hb1) as (tl' & Etl' & ESl & _).
      rewrite Etl in Etl'. injection Etl' as <-. exact ESl. }
    split.
    { intro Wh. destruct (whole_columns rs F Wh) as (Xr & Xc & Xl).
      pose proof (sum_float64_exact recycling_kg rs Xr) as Er.
      pose proof (sum_float64_exact compost_kg rs Xc) as Ec.
      pose proof (sum_float64_exact landfill_kg rs Xl) as El.
      pose proof (exact_add _ _ _ _ _ _ Er Ec) as Ea'.
      pose proof (exact_add _ _ _ _ _ _ Ea' El) as Eg'.
      fold n in Er, Ec, El, Ea', Eg'.
      destruct (Eg' Hb3) as (g' & Eg'' & ESg & _).
      rewrite Etr, Etc, Ea, Etl, Eg in Eg''.
      injection Eg'' as <-. exact ESg. }
    split; [exact A0|]. split; [exact Hag|].
    split; [exact Hpos | exact Hzero].
Qed.

Lemma aggregate_int_frame_of (ws : list WholeRecord) :
  fits64 (ztotal whole_recycling ws) ->
  fits64 (ztotal whole_compost ws) ->
  fits64 (ztotal whole_landfill ws) ->
  fits64 (ztotal whole_recycling ws + ztotal whole_compost ws) ->
  fits64 (ztotal whole_recycling ws + ztotal whole_compost ws
          + ztotal whole_landfill ws) ->
  aggregate (int_frame_of ws)
  = Ok (mkMetrics
          (I64 (ztotal whole_recycling ws))
          (I64 (ztotal whole_compost ws))
          (I64 (ztotal whole_landfill ws))
          (I64 (ztotal whole_recycling ws + ztotal whole_compost ws
                + ztotal whole_landfill ws))
          (if (0 <? ztotal whole_recycling ws + ztotal whole_compost ws
                    + ztotal whole_landfill ws)%Z
           then F64 (Float64.mul
                       (Float64.div
                          (Float64.of_Z (ztotal whole_recycling ws
                                         + ztotal whole_compost ws))
                          (Float64.of_Z (ztotal whole_recycling ws
                                         + ztotal whole_compost ws
                                         + ztotal whole_landfill ws)))
                       (Fin 100))
           else I64 0)).
Proof.
  intros Hr Hc Hl Ha Hg.
  unfold aggregate, int_frame_of. read_columns.
  rewrite !sum_zcol, !wrap64_fits by assumption.
  cbn [bind Number.add]. rewrite !(wrap64_fits _ Ha), (wrap64_fits _ Hg).
  reflexivity.
Qed.

(** C1 (amended).  On a record set within the range of the form (at most
    2^40 records) the dashboard returns the three column sums computed in
    binary64, each within N^2 * 2^-43 of the exact sum and equal to it
    when the quantities are whole numbers; the grand total is their
    binary64 sum; the diversion rate is
    100 * (total_recycling + total_compost) / grand_total evaluated in
    binary64, between 0 and 100, when the grand total is positive, and 0
    when it is 0.  On a table of integer columns whose sums fit in 64
    bits the three totals and the grand total are the exact sums.  On the
    records (10,5,20), (0,0,0) the totals are 10, 5, 20, the grand total
    35 and the rate 42.857142857142854.  On the empty set the totals and
    the rate are 0 and nothing is raised. *)
Theorem aggregate_correct :
  (forall rs : RecordSet,
      Forall record_in_range rs ->
      (Z.of_nat (List.length rs) <= 2 ^ 40)%Z ->
      exists m tr tc tl a g,
        aggregate (frame_of rs) = Ok m /\
        Number.value (total_recycling m) = Fin tr /\
        Number.value (total_compost m) = Fin tc /\
        Number.value (total_landfill m) = Fin tl /\
        Number.value (grand_total m) = Fin g /\
        Qabs (tr - total recycling_kg rs)
        <= nat_to_Q (List.length rs) * nat_to_Q (List.length rs) * EPS /\
        Qabs (tc - total compost_kg rs)
        <= nat_to_Q (List.length rs) * nat_to_Q (List.length rs) * EPS /\
        Qabs (tl - total landfill_kg rs)
        <= nat_to_Q (List.length rs) * nat_to_Q (List.length rs) * EPS /\
        a == Binary64.nearest (tr + tc) /\
        g == Binary64.nearest (a + tl) /\
        Qabs (g - (total recycling_kg rs + total compost_kg rs
                   + total landfill_kg rs))
        <= 9 * nat_to_Q (List.length rs) * nat_to_Q (List.length rs) * EPS /\
        (Forall whole_record rs ->
           tr == total recycling_kg rs /\ tc == total compost_kg rs /\
           tl == total landfill_kg rs /\
           g == total recycling_kg rs + total compost_kg rs
                + total landfill_kg rs) /\
        0 <= g /\
        (0 < g ->
           exists d,
             div_rate m = F64 (Fin d) /\
             d == Binary64.nearest (Binary64.nearest (a / g) * 100) /\
             0 <= d /\ d <= 100) /\
        (g == 0 -> div_rate m = I64 0)) /\
  (forall ws : list WholeRecord,
      Forall fits64_record ws ->
      fits64 (ztotal whole_recycling ws) ->
      fits64 (ztotal whole_compost ws) ->
      fits64 (ztotal whole_landfill ws) ->
      fits64 (ztotal whole_recycling ws + ztotal whole_compost ws) ->
      fits64 (ztotal whole_recycling ws + ztotal whole_compost ws
              + ztotal whole_landfill ws) ->
      aggregate (int_frame_of ws)
      = Ok (mkMetrics
              (I64 (ztotal whole_recycling ws))
              (I64 (ztotal whole_compost ws))
              (I64 (ztotal whole_landfill ws))
              (I64 (ztotal whole_recycling ws + ztotal whole_compost ws
                    + ztotal whole_landfill ws))
              (if (0 <? ztotal whole_recycling ws + ztotal whole_compost ws
                        + ztotal whole_landfill ws)%Z
               then F64 (Float64.mul
                           (Float64.div
                              (Float64.of_Z (ztotal whole_recycling ws
                                             + ztotal whole_compost ws))
                              (Float64.of_Z (ztotal whole_recycling ws
                                             + ztotal whole_compost ws
                                             + ztotal whole_landfill ws)))
                           (Fin 100))
               else I64 0))) /\
  (forall d1 d2,
      exists r,
        aggregate (frame_of (sample_records d1 d2))
        = Ok (mkMetrics (F64 (Fin 10)) (F64 (Fin 5)) (F64 (Fin 20))
                (F64 (Fin 35)) (F64 (Fin r))) /\
        r == Binary64.nearest (Binary64.nearest ((10 + 5) / 35) * 100) /\
        42857 # 1000 < r /\ r < 42858 # 1000) /\
  aggregate (frame_of [])
  = Ok (mkMetrics (I64 0) (I64 0) (I64 0) (I64 0) (I64 0)).
Proof.
  split; [|split; [|split]].
  - intros rs F Hn.
    destruct (aggregate_frame_of rs F Hn)
      as (m & tr & tc & tl & a & g & E & H1 & H2 & H3 & H4 & H5 & H6 & H7
          & H8 & H9 & H10 & Wr & Wc & Wl & Wg & A0 & Ag & H12 & H13).
    exists m, tr, tc, tl, a, g. do 11 (split; [assumption|]).
    split; [|split; [lra | split; assumption]].
    intro Wh. rewrite Forall_forall in Wh.
    split; [apply Wr|split; [apply Wc|split; [apply Wl|apply Wg]]];
      rewrite Forall_forall; try exact Wh; intros r Hr; apply (Wh r Hr).
  - intros ws _. apply aggregate_int_frame_of.
  - intros d1 d2. exists (6031606643799771 # 140737488355328).
    split; [vm_compute; reflexivity|].
    split; [vm_compute; reflexivity|].
    split; reflexivity.
  - exact aggregate_empty.
Qed.

Lemma aggregate_correct_witness :
  (exists m tr,
      aggregate (frame_of (sample_records 0 7)) = Ok m /\
      Number.value (total_recycling m) = Fin tr /\
      tr == total recycling_kg (sample_records 0 7)) /\
  aggregate (int_frame_of [mkWhole 0 10 5 20; mkWhole 7 0 0 0])
  = Ok (mkMetrics (I64 10) (I64 5) (I64 20) (I64 35)
          (F64 (Fin (6031606643799771 # 140737488355328)))).
Proof.
  split.
  - destruct (proj1 aggregate_correct (sample_records 0 7))
      as (m & tr & tc & tl & a & g & E & Hr & _ & _ & _ & _ & _ & _ & _ & _
          & _ & Hw & _).
    + repeat constructor; cbn; discriminate.
    + vm_compute. discriminate.
    + exists m, tr. split; [exact E|]. split; [exact Hr|].
      apply Hw. repeat constructor; vm_compute; reflexivity.
  - pose proof (proj1 (proj2 aggregate_correct)
                  [mkWhole 0 10 5 20; mkWhole 7 0 0 0]) as H.
    etransitivity; [apply H|].
    + repeat constructor; vm_compute; congruence.
    + split; vm_compute; congruence.
    + split; vm_compute; congruence.
    + split; vm_compute; congruence.
    + split; vm_compute; congruence.
    + split; vm_compute; congruence.
    + vm_compute. reflexivity.
Defined.

(** C1 (counterexample).  Two rows of whole, non-negative quantities in
    integer columns: the recycling column adds up to 2^63, which the sum
    in 64-bit integers wraps to -2^63; the grand total is negative and
    the rate is 0, where the claim gives 2^63 and 100. *)
Lemma aggregate_int64_wraps :
  Forall fits64_record overflow_records /\
  ztotal whole_recycling overflow_records = (2 ^ 63)%Z /\
  ztotal whole_compost overflow_records = 0%Z /\
  ztotal whole_landfill overflow_records = 0%Z /\
  aggregate (int_frame_of overflow_records)
  = Ok (mkMetrics (I64 (- 2 ^ 63)) (I64 0) (I64 0) (I64 (- 2 ^ 63)) (I64 0)).
Proof.
  split; [repeat constructor; vm_compute; congruence|].
  repeat split; vm_compute; reflexivity.
Qed.

(* ------------------------------------------------------------------ *)
(** ** The derived columns of the analyst page *)

Section Columns.

Variable A : Type.
Variables u v : A -> float.

Lemma zip_op_map (op : float -> float -> float) (l : list A) :
  Pandas.zip_op op (map (fun r => Num (u r)) l) (map (fun r => Num (v r)) l)
  = Ok (map (fun r => Num (op (u r) (v r))) l).
Proof.
  induction l as [|r l IH]; simpl.
  - reflexivity.
  - rewrite IH. reflexivity.
Qed.

Lemma scale_map (k : float) (l : list A) :
  Pandas.scale (map (fun r => Num (u r)) l) k
  = Ok (map (fun r => Num (Float.mul (u r) k)) l).
Proof.
  unfold Pandas.scale. induction l as [|r l IH]; simpl.
  - reflexivity.
  - rewrite IH. reflexivity.
Qed.

End Columns.

Lemma len_frame_of (rs : RecordSet) : Pandas.len (frame_of rs) = List.length rs.
Proof. simpl. apply length_map. Qed.

Lemma period_rate_series_frame_of (rs : RecordSet) :
  period_rate_series (frame_of rs)
  = Ok (frame_of rs ++
        [ ("Week_Num"%string, week_nums (List.length rs));
          ("Rate"%string, map (fun r => Num (rate_of r)) rs) ]).
Proof.
  unfold period_rate_series. rewrite len_frame_of.
  unfold frame_of, qcol. read_columns.
  unfold Pandas.add, Pandas.div.
  rewrite (zip_op_map _ (fun r => Fin (recycling_kg r)) (fun r => Fin (compost_kg r))).
  cbn [bind Float.add].
  rewrite (zip_op_map _ (fun r => Fin (recycling_kg r + compost_kg r))
             (fun r => Fin (landfill_kg r))).
  cbn [bind Float.add].
  rewrite (zip_op_map _ (fun r => Fin (recycling_kg r + compost_kg r))
             (fun r => Fin (recycling_kg r + compost_kg r + landfill_kg r))).
  cbn [bind].
  rewrite (scale_map _ (fun r => Float.div (Fin (recycling_kg r + compost_kg r))
                                 (Fin (recycling_kg r + compost_kg r + landfill_kg r)))).
  reflexivity.
Qed.


Lemma rate_of_all_zero (r : WasteRecord) :
  recycling_kg r == 0 -> compost_kg r == 0 -> landfill_kg r == 0 ->
  rate_of r = NaN.
Proof.
  intros Hr Hc Hl. unfold rate_of. cbn [Float.div].
  rewrite !is_zero_true; [reflexivity| |]; rewrite ?Hr, ?Hc, ?Hl; reflexivity.
Qed.





(* ------------------------------------------------------------------ *)
(** ** The record store *)

Lemma concat_frame_of (today : Z) (rs : RecordSet) (r c l : Q) :
  Pandas.concat (frame_of rs)
    [ ("Date"%string, [Day today]);
      ("Recycling"%string, [Num (Fin r)]);
      ("Compost"%string, [Num (Fin c)]);
      ("Landfill"%string, [Num (Fin l)]) ]
  = frame_of (rs ++ [mkRecord today r c l]).
Proof.
  unfold Pandas.concat, frame_of, qcol.
  cbn [map filter fst snd Pandas.has_col existsb Pandas.col_or_nan
       Pandas.getcol String.eqb Ascii.eqb Bool.eqb negb orb app].
  rewrite !map_app. reflexivity.
Qed.

Lemma save_entry_frame_of (today : Z) (rs : RecordSet) (r c l : Q) :
  save_entry today (Fin r) (Fin c) (Fin l) (Some (Csv (frame_of rs)))
  = (Ok (frame_of (rs ++ [mkRecord today r c l])),
     Some (Csv (frame_of (rs ++ [mkRecord today r c l])))).
Proof.
  unfold save_entry, load_data. cbn [exists_file negb read_csv].
  rewrite concat_frame_of. reflexivity.
Qed.

Lemma load_data_table (today : Z) (t : DataFrame) :
  load_data today (Some (Csv t)) = (Ok t, Some (Csv t)).
Proof. reflexivity. Qed.

(** C4.  When the file holds a record set of N records, [save_entry] with
    quantities r, c, l writes and returns the N+1 records made of the
    prior records in their order followed by (today, r, c, l), and a later
    [load_data] returns these N+1 records. *)
Theorem save_entry_appends (today : Z) (rs : RecordSet) (r c l : Q) :
  let entry := mkRecord today r c l in
  exists fs',
    save_entry today (Fin r) (Fin c) (Fin l) (Some (Csv (frame_of rs)))
    = (Ok (frame_of (rs ++ [entry])), fs') /\
    fs' = Some (Csv (frame_of (rs ++ [entry]))) /\
    (forall later, load_data later fs' = (Ok (frame_of (rs ++ [entry])), fs')) /\
    List.length (rs ++ [entry]) = S (List.length rs) /\
    firstn (List.length rs) (rs ++ [entry]) = rs /\
    nth_error (rs ++ [entry]) (List.length rs) = Some entry.
Proof.
  intro entry. eexists. split; [apply save_entry_frame_of|].
  split; [reflexivity|]. split; [intro later; apply load_data_table|].
  split; [rewrite length_app; simpl; lia|].
  split.
  - rewrite firstn_app, Nat.sub_diag, firstn_all. simpl. apply app_nil_r.
  - rewrite nth_error_app2, Nat.sub_diag by lia. reflexivity.
Qed.

(** C8 (amended).  [save_entry] makes no check of the sign of its
    arguments.  When one of the three quantities is negative and the file
    is absent or holds a table that the parser reads, the call raises
    nothing and the file is rewritten with the prior rows followed by the
    new one: a record set is extended with the negative record, and an
    absent file becomes the seed followed by it.  When the file cannot be
    parsed the call raises the parser's error, as for any other entry,
    and writes nothing. *)
Theorem save_entry_accepts_negative (today : Z) (r c l : Q) :
  r < 0 \/ c < 0 \/ l < 0 ->
  (forall rs : RecordSet,
      save_entry today (Fin r) (Fin c) (Fin l) (Some (Csv (frame_of rs)))
      = (Ok (frame_of (rs ++ [mkRecord today r c l])),
         Some (Csv (frame_of (rs ++ [mkRecord today r c l]))))) /\
  (forall t : DataFrame,
      save_entry today (Fin r) (Fin c) (Fin l) (Some (Csv t))
      = (Ok (Pandas.concat t (frame_of [mkRecord today r c l])),
         Some (Csv (Pandas.concat t (frame_of [mkRecord today r c l]))))) /\
  save_entry today (Fin r) (Fin c) (Fin l) None
  = (Ok (frame_of (seed_records today ++ [mkRecord today r c l])),
     Some (Csv (frame_of (seed_records today ++ [mkRecord today r c l])))) /\
  save_entry today (Fin r) (Fin c) (Fin l) (Some Unparseable)
  = (Raise ParserError, Some Unparseable).
Proof.
  intros _. split; [|split; [|split]].
  - intro rs. apply save_entry_frame_of.
  - intro t. reflexivity.
  - unfold save_entry, load_data. cbn [exists_file negb to_csv read_csv].
    assert (S : seed today = frame_of (seed_records today)).
    { unfold seed, frame_of, seed_records. cbn [map seq Z.of_nat].
      rewrite Z.sub_0_r. reflexivity. }
    rewrite S, concat_frame_of. reflexivity.
  - reflexivity.
Qed.

Lemma save_entry_accepts_negative_witness :
  save_entry 0 (Fin (-3)) (Fin 2) (Fin 1)
    (Some (Csv (frame_of [mkRecord 0 10 5 20])))
  = (Ok (frame_of [mkRecord 0 10 5 20; mkRecord 0 (-3) 2 1]),
     Some (Csv (frame_of [mkRecord 0 10 5 20; mkRecord 0 (-3) 2 1]))).
Proof.
  apply (proj1 (save_entry_accepts_negative 0 (-3) 2 1
                  (or_introl eq_refl))
           [mkRecord 0 10 5 20]).
Defined.

(** C8 (counterexample).  A negative quantity is stored and nothing is
    raised. *)
Lemma save_entry_negative_stored :
  save_entry 1 (Fin (-1)) (Fin 0) (Fin 0) (Some (Csv (frame_of one_record)))
  = (Ok (frame_of (one_record ++ [mkRecord 1 (-1) 0 0])),
     Some (Csv (frame_of (one_record ++ [mkRecord 1 (-1) 0 0])))) /\
  (forall e,
      fst (save_entry 1 (Fin (-1)) (Fin 0) (Fin 0)
             (Some (Csv (frame_of one_record)))) <> Raise e) /\
  snd (save_entry 1 (Fin (-1)) (Fin 0) (Fin 0)
         (Some (Csv (frame_of one_record))))
  <> Some (Csv (frame_of one_record)).
Proof.
  split; [reflexivity|]. split.
  - intro e. discriminate.
  - discriminate.
Qed.

(** C9 (amended).  When the file exists, [load_data] returns what the
    parser yields and leaves the file as it is: the parser's error for
    text that cannot be parsed, and otherwise the parsed table, whatever
    its columns and cells; nothing is checked against the expected columns
    and nothing is substituted. *)
Theorem load_data_existing (today : Z) (f : file) :
  load_data today (Some f)
  = (match f with
     | Unparseable => Raise ParserError
     | Csv t => Ok t
     end, Some f).
Proof. destruct f; reflexivity. Qed.

(** C9 (counterexample).  A table without the [Landfill] column and a
    table with text in [Recycling] are both returned without an error. *)
Lemma load_data_malformed_returned :
  malformed table_without_landfill = true /\
  load_data 0 (Some (Csv table_without_landfill))
  = (Ok table_without_landfill, Some (Csv table_without_landfill)) /\
  malformed table_with_text = true /\
  load_data 0 (Some (Csv table_with_text))
  = (Ok table_with_text, Some (Csv table_with_text)).
Proof. repeat split. Qed.

(** The missing column is noticed only where a page reads it. *)
Lemma aggregate_without_landfill :
  aggregate table_without_landfill = Raise (KeyError "Landfill").
Proof. reflexivity. Qed.

(* ------------------------------------------------------------------ *)
(** ** Strings *)

Section Strings.

Local Open Scope string_scope.

Lemma append_nil_r (s : string) : s ++ "" = s.
Proof. induction s; simpl; congruence. Qed.

Lemma append_assoc (a b c : string) : (a ++ b) ++ c = a ++ b ++ c.
Proof. induction a; simpl; congruence. Qed.

Lemma length_append (a b : string) :
  String.length (a ++ b) = (String.length a + String.length b)%nat.
Proof. induction a; simpl; congruence. Qed.

Lemma length_zero (s : string) : String.length s = 0%nat -> s = "".
Proof. destruct s; simpl; [reflexivity|discriminate]. Qed.

Lemma prefix_spec (key s : string) :
  String.prefix key s = true <-> exists b, s = key ++ b.
Proof.
  revert s; induction key as [|c key IH]; intro s.
  - split; [intros _; now exists s | destruct s; reflexivity].
  - destruct s as [|d s]; simpl.
    + split; [discriminate | intros (b & H); discriminate].
    + destruct (Ascii.ascii_dec c d) as [->|Hne].
      * rewrite IH. split; intros (b & H); exists b; congruence.
      * split; [discriminate | intros (b & H); congruence].
Qed.

Lemma contains_spec (key item : string) :
  Str.contains key item = true <-> substring key item.
Proof.
  unfold substring. induction item as [|c item IH]; cbn [Str.contains].
  - rewrite orb_false_r, prefix_spec. split.
    + intros (b & H). exists "", b. exact H.
    + intros (a & b & H). destruct a; [now exists b | discriminate].
  - rewrite orb_true_iff, prefix_spec, IH. split.
    + intros [(b & H) | (a & b & H)].
      * exists "", b. exact H.
      * exists (String c a), b. simpl. congruence.
    + intros (a & b & H). destruct a as [|d a].
      * left. now exists b.
      * right. exists a, b. simpl in H. congruence.
Qed.

Lemma contains_false (key item : string) :
  Str.contains key item = false <-> ~ substring key item.
Proof.
  rewrite <- contains_spec. destruct (Str.contains key item); split; congruence.
Qed.

Lemma substring_refl (s : string) : substring s s.
Proof. exists "", "". simpl. now rewrite append_nil_r. Qed.

Lemma substring_trans (a b c : string) :
  substring a b -> substring b c -> substring a c.
Proof.
  intros (p & q & ->) (p' & q' & ->).
  exists (p' ++ p), (q ++ q'). now rewrite !append_assoc.
Qed.

Lemma substring_length (a b : string) :
  substring a b -> (String.length a <= String.length b)%nat.
Proof. intros (p & q & ->). rewrite !length_append. lia. Qed.

Lemma substring_same_length (a b : string) :
  substring a b -> String.length a = String.length b -> a = b.
Proof.
  intros (p & q & ->) H. rewrite !length_append in H.
  assert (p = "") as -> by (apply length_zero; lia).
  assert (q = "") as -> by (apply length_zero; lia).
  simpl. now rewrite append_nil_r.
Qed.

(** *** Trimming *)

Lemma lstrip_spec (s : string) :
  exists a, s = a ++ Str.lstrip s /\ all_space a = true /\
            starts_with_space (Str.lstrip s) = false.
Proof.
  induction s as [|c s (a & E & Ha & Hs)]; simpl.
  - now exists "".
  - destruct (Str.is_space c) eqn:Hc.
    + exists (String c a). simpl. rewrite Hc, Ha. repeat split; congruence.
    + exists "". simpl. now rewrite Hc.
Qed.

Lemma rstrip_spec (s : string) :
  exists b, s = Str.rstrip s ++ b /\ all_space b = true /\
            ends_with_space (Str.rstrip s) = false.
Proof.
  induction s as [|c s (b & E & Hb & He)]; simpl.
  - now exists "".
  - destruct (Str.rstrip s) as [|d t] eqn:Et.
    + destruct (Str.is_space c) eqn:Hc.
      * exists (String c b). simpl in *. rewrite Hc, Hb. repeat split; congruence.
      * exists b. simpl in *. rewrite Hc. repeat split; congruence.
    + exists b. simpl in *. repeat split; trivial; congruence.
Qed.

Lemma rstrip_keeps_start (s : string) :
  starts_with_space s = false -> starts_with_space (Str.rstrip s) = false.
Proof.
  destruct s as [|c s]; simpl; [trivial|].
  intro Hc. destruct (Str.rstrip s); [rewrite Hc|]; simpl; trivial.
Qed.

Lemma strip_spec (s : string) :
  exists a b,
    s = a ++ Str.strip s ++ b /\ all_space a = true /\ all_space b = true /\
    starts_with_space (Str.strip s) = false /\
    ends_with_space (Str.strip s) = false.
Proof.
  unfold Str.strip.
  destruct (lstrip_spec s) as (a & Ea & Ha & Hs).
  destruct (rstrip_spec (Str.lstrip s)) as (b & Eb & Hb & He).
  exists a, b. repeat split; trivial.
  - rewrite <- Eb. exact Ea.
  - now apply rstrip_keeps_start.
Qed.

Lemma strip_substring (s : string) : substring (Str.strip s) s.
Proof. destruct (strip_spec s) as (a & b & E & _). now exists a, b. Qed.

(** *** Lower case *)

Lemma is_lower_append (a b : string) :
  is_lower (a ++ b) = is_lower a && is_lower b.
Proof.
  induction a as [|c a IH]; simpl; [reflexivity|].
  rewrite IH. now rewrite andb_assoc.
Qed.

Lemma is_lower_substring (a b : string) :
  substring a b -> is_lower b = true -> is_lower a = true.
Proof.
  intros (p & q & ->). rewrite !is_lower_append, !andb_true_iff. tauto.
Qed.

Lemma lower_fixed (s : string) : is_lower s = true -> Str.lower s = s.
Proof.
  induction s as [|c s IH]; simpl; [reflexivity|].
  rewrite andb_true_iff, Ascii.eqb_eq. intros (Hc & Hs).
  now rewrite Hc, IH.
Qed.

Lemma length_lower (s : string) : String.length (Str.lower s) = String.length s.
Proof. induction s; simpl; congruence. Qed.

(** *** The table scan *)

Lemma first_match_found db pre key advice post item :
  db = (pre ++ (key, advice) :: post)%list ->
  Str.contains key item = true ->
  (forall k a, In (k, a) pre -> Str.contains k item = false) ->
  first_match db item = Some advice.
Proof.
  intros -> Hk. induction pre as [|(k, a) pre IH]; intro Hpre; simpl.
  - now rewrite Hk.
  - rewrite (Hpre k a) by now left.
    apply IH. intros k' a' Hin. apply (Hpre k' a'). now right.
Qed.

Lemma first_match_none db item :
  (forall k a, In (k, a) db -> Str.contains k item = false) <->
  first_match db item = None.
Proof.
  induction db as [|(k, a) db IH]; simpl.
  - split; [reflexivity | intros _ ? ? []].
  - split.
    + intro H. rewrite (H k a) by now left.
      apply IH. intros k' a' Hin. apply (H k' a'). now right.
    + destruct (Str.contains k item) eqn:Hk; [discriminate|].
      intros Hn k' a' [E | Hin].
      * now inversion E; subst.
      * revert Hin. apply IH. exact Hn.
Qed.

Lemma first_match_some db item advice :
  first_match db item = Some advice ->
  exists key, In (key, advice) db /\ Str.contains key item = true.
Proof.
  induction db as [|(k, a) db IH]; simpl; [discriminate|].
  destruct (Str.contains k item) eqn:Hk.
  - intros [= <-]. exists k. split; [now left | exact Hk].
  - intro H. destruct (IH H) as (key & Hin & Hc).
    exists key. split; [now right | exact Hc].
Qed.

End Strings.

Section Advice.

Local Open Scope string_scope.

Lemma lower_char_idempotent (c : ascii) :
  Ascii.eqb (Str.lower_char (Str.lower_char c)) (Str.lower_char c) = true.
Proof. destruct c as [[] [] [] [] [] [] [] []]; reflexivity. Qed.

Lemma lower_is_lower (s : string) : is_lower (Str.lower s) = true.
Proof.
  induction s as [|c s IH]; simpl; [reflexivity|].
  now rewrite lower_char_idempotent, IH.
Qed.

Lemma keys_are_lower (key : string) : In key keys -> is_lower key = true.
Proof.
  assert (H : forallb is_lower keys = true) by reflexivity.
  rewrite forallb_forall in H. apply H.
Qed.

Lemma keys_do_not_nest (k1 k2 : string) :
  In k1 keys -> In k2 keys -> substring k1 k2 -> k1 = k2.
Proof.
  assert (H : forallb (fun a => forallb (fun b =>
                implb (Str.contains a b) (String.eqb a b)) keys) keys = true)
    by reflexivity.
  rewrite forallb_forall in H.
  intros H1 H2 Hs. specialize (H k1 H1). rewrite forallb_forall in H.
  specialize (H k2 H2). apply contains_spec in Hs. rewrite Hs in H.
  now apply String.eqb_eq.
Qed.

Lemma advice_is_not_default (key advice : string) :
  In (key, advice) database -> advice <> default_advice.
Proof.
  assert (H : forallb (fun kv => negb (String.eqb (snd kv) default_advice))
                database = true) by reflexivity.
  rewrite forallb_forall in H.
  intros Hin E. specialize (H _ Hin). simpl in H.
  apply String.eqb_eq in E. now rewrite E in H.
Qed.

Lemma in_keys (key advice : string) : In (key, advice) database -> In key keys.
Proof. intro H. apply (in_map fst) in H. exact H. Qed.

Lemma get_waste_advice_cases (query : string) :
  (exists key advice,
      In (key, advice) database /\ substring key (normalize query) /\
      get_waste_advice query = advice) \/
  ((forall key, In key keys -> ~ substring key (normalize query)) /\
   get_waste_advice query = default_advice).
Proof.
  unfold get_waste_advice. fold (normalize query).
  destruct (first_match database (normalize query)) as [advice|] eqn:E.
  - left. destruct (first_match_some _ _ _ E) as (key & Hin & Hc).
    exists key, advice. rewrite <- contains_spec. auto.
  - right. split; [|reflexivity].
    intros key Hin. apply in_map_iff in Hin as ((k, a) & <- & Hin).
    apply contains_false. rewrite <- first_match_none in E. exact (E k a Hin).
Qed.

Lemma get_waste_advice_default (query : string) :
  (forall key, In key keys -> ~ substring key (normalize query)) ->
  get_waste_advice query = default_advice.
Proof.
  intro H. destruct (get_waste_advice_cases query)
    as [(key & advice & Hin & Hs & _) | (_ & E)]; [|exact E].
  exfalso. exact (H key (in_keys _ _ Hin) Hs).
Qed.

(** C5.  [get_waste_advice] works on the lower-cased query with the
    whitespace at both ends removed, scans the table in the order of its
    definition, and returns the advice of the first key that occurs in the
    normalized query; when no key occurs it returns the default message.
    Both "  PLASTIC BOTTLE  " and "a used plastic bottle" give the advice
    of the plastic bottle, and "tire" gives the default message. *)
Theorem get_waste_advice_correct :
  (forall query,
      normalize query = Str.strip (Str.lower query) /\
      is_lower (Str.lower query) = true /\
      String.length (Str.lower query) = String.length query /\
      (exists a b,
          Str.lower query = a ++ normalize query ++ b /\
          all_space a = true /\ all_space b = true /\
          starts_with_space (normalize query) = false /\
          ends_with_space (normalize query) = false) /\
      (forall pre key advice post,
          database = (pre ++ (key, advice) :: post)%list ->
          substring key (normalize query) ->
          (forall k a, In (k, a) pre -> ~ substring k (normalize query)) ->
          get_waste_advice query = advice) /\
      ((forall k a, In (k, a) database -> ~ substring k (normalize query)) ->
       get_waste_advice query = default_advice)) /\
  In ("plastic bottle", "Recycle (Rinse first)") database /\
  get_waste_advice "  PLASTIC BOTTLE  " = "Recycle (Rinse first)" /\
  get_waste_advice "a used plastic bottle" = "Recycle (Rinse first)" /\
  get_waste_advice "tire" = default_advice.
Proof.
  split.
  - intro query. split; [reflexivity|].
    split; [apply lower_is_lower|]. split; [apply length_lower|].
    split; [apply strip_spec|]. split.
    + intros pre key advice post Hdb Hkey Hpre.
      unfold get_waste_advice. fold (normalize query).
      rewrite (first_match_found _ _ _ _ _ _ Hdb); [reflexivity| |].
      * now apply contains_spec.
      * intros k a Hin. apply contains_false. exact (Hpre k a Hin).
    + intro Hnone. apply get_waste_advice_default.
      intros key Hin. apply in_map_iff in Hin as ((k, a) & <- & Hin).
      exact (Hnone k a Hin).
  - split; [right; left; reflexivity|]. repeat split.
Qed.

Lemma get_waste_advice_correct_witness :
  get_waste_advice "a used plastic bottle" = "Recycle (Rinse first)".
Proof.
  destruct get_waste_advice_correct as (H & _).
  destruct (H "a used plastic bottle") as (_ & _ & _ & _ & Hfirst & _).
  apply (Hfirst [("pizza box", "Compost (if greasy) / Recycle (if clean)")]
           "plastic bottle" "Recycle (Rinse first)" (tl (tl database))).
  - reflexivity.
  - apply contains_spec. reflexivity.
  - intros k a [E | []]. inversion E; subst.
    apply contains_false. reflexivity.
Defined.

(** C10.  [get_waste_advice] returns a table entry exactly when some key
    of the table occurs in the normalized query, and then the entry of
    such a key; otherwise it returns the default message, which is no
    table entry.  A proper substring of a key gets the default message:
    so do "battery", "Battery" and "batter", none of which contains the
    key "batteries". *)
Theorem get_waste_advice_one_direction :
  (forall query,
      (get_waste_advice query <> default_advice <->
       exists key, In key keys /\ substring key (normalize query)) /\
      ((exists key, In key keys /\ substring key (normalize query)) ->
       exists key advice,
         In (key, advice) database /\ substring key (normalize query) /\
         get_waste_advice query = advice)) /\
  (forall query key,
      In key keys -> substring query key -> query <> key ->
      get_waste_advice query = default_advice) /\
  In "batteries" keys /\
  ~ substring "batteries" (normalize "battery") /\
  get_waste_advice "battery" = default_advice /\
  get_waste_advice "Battery" = default_advice /\
  substring "batter" "batteries" /\
  get_waste_advice "batter" = default_advice.
Proof.
  split; [|split].
  - intro query.
    destruct (get_waste_advice_cases query)
      as [(key & advice & Hin & Hs & E) | (Hnone & E)].
    + split.
      * split.
        -- intros _. exists key. split; [exact (in_keys _ _ Hin) | exact Hs].
        -- intros _. rewrite E. exact (advice_is_not_default _ _ Hin).
      * intros _. now exists key, advice.
    + split.
      * split.
        -- intro H. now elim H.
        -- intros (key & Hin & Hs). now elim (Hnone key Hin).
      * intros (key & Hin & Hs). now elim (Hnone key Hin).
  - intros query key Hin Hsub Hneq.
    apply get_waste_advice_default. intros k Hk Hs.
    assert (Hq : normalize query = Str.strip query).
    { unfold normalize. rewrite lower_fixed; [reflexivity|].
      apply (is_lower_substring _ _ Hsub). now apply keys_are_lower. }
    rewrite Hq in Hs.
    assert (Hkq : substring k query)
      by (eapply substring_trans; [exact Hs | apply strip_substring]).
    assert (k = key) as ->
      by (apply keys_do_not_nest; trivial; eapply substring_trans; eauto).
    apply Hneq. apply substring_same_length; [exact Hsub|].
    apply substring_length in Hsub, Hkq. lia.
  - split; [do 5 right; left; reflexivity|].
    split; [apply contains_false; reflexivity|].
    split; [reflexivity|]. split; [reflexivity|].
    split; [apply contains_spec; reflexivity | reflexivity].
Qed.

Lemma get_waste_advice_one_direction_witness :
  get_waste_advice "pizza" = default_advice.
Proof.
  destruct get_waste_advice_one_direction as (_ & H & _).
  apply (H "pizza" "pizza box").
  - left. reflexivity.
  - apply contains_spec. reflexivity.
  - discriminate.
Defined.

End Advice.

(* ------------------------------------------------------------------ *)
(** ** Least squares *)

Lemma nat_to_Q_S (n : nat) : nat_to_Q (S n) == nat_to_Q n + 1.
Proof.
  unfold nat_to_Q. rewrite Nat2Z.inj_succ, <- Z.add_1_r, inject_Z_plus.
  reflexivity.
Qed.

Lemma nat_to_Q_pos (n : nat) : (0 < n)%nat -> 0 < nat_to_Q n.
Proof.
  intro H. unfold nat_to_Q. change 0 with (inject_Z 0).
  rewrite <- Zlt_Qlt. lia.
Qed.

Section LeastSquares.

Variable pts : list (Q * Q).

Lemma sse_expand (a b : Q) :
  sse pts a b
  == sum_yy pts - 2 * a * sum_xy pts - 2 * b * sum_y pts
     + a * a * sum_xx pts + 2 * a * b * sum_x pts + count pts * b * b.
Proof.
  unfold sse, count, sum_x, sum_y, sum_xx, sum_xy, sum_yy.
  induction pts as [|(x, y) l IH].
  - cbn [map List.length]. rewrite !Qsum_nil. change (nat_to_Q 0) with 0. ring.
  - cbn [map fst snd List.length].
    rewrite !Qsum_cons, IH, nat_to_Q_S. cbn [fst snd]. ring.
Qed.

Lemma centred_xy (m k : Q) :
  Qsum (map (fun p => (fst p - m) * (snd p - k)) pts)
  == sum_xy pts - m * sum_y pts - k * sum_x pts + count pts * m * k.
Proof.
  unfold count, sum_x, sum_y, sum_xy.
  induction pts as [|(x, y) l IH].
  - cbn [map List.length]. rewrite !Qsum_nil. change (nat_to_Q 0) with 0. ring.
  - cbn [map fst snd List.length].
    rewrite !Qsum_cons, IH, nat_to_Q_S. cbn [fst snd]. ring.
Qed.

Lemma centred_xx (m : Q) :
  Qsum (map (fun x => (x - m) * (x - m)) (map fst pts))
  == sum_xx pts - 2 * m * sum_x pts + count pts * m * m.
Proof.
  unfold count, sum_x, sum_xx.
  induction pts as [|(x, y) l IH].
  - cbn [map List.length]. rewrite !Qsum_nil. change (nat_to_Q 0) with 0. ring.
  - cbn [map fst snd List.length].
    rewrite !Qsum_cons, IH, nat_to_Q_S. cbn [fst snd]. ring.
Qed.

End LeastSquares.

Lemma ols_gap (n Sx Sy Sxx Sxy Syy a' b' : Q) :
  ~ n == 0 ->
  ~ Sxx - Sx * Sx / n == 0 ->
  let D := Sxx - Sx * Sx / n in
  let a := (Sxy - Sx * Sy / n) / D in
  let b := Sy / n - a * (Sx / n) in
  (Syy - 2 * a' * Sxy - 2 * b' * Sy + a' * a' * Sxx + 2 * a' * b' * Sx + n * b' * b')
  - (Syy - 2 * a * Sxy - 2 * b * Sy + a * a * Sxx + 2 * a * b * Sx + n * b * b)
  == n * ((b' - b + (a' - a) * (Sx / n)) * (b' - b + (a' - a) * (Sx / n)))
     + D * ((a' - a) * (a' - a)).
Proof.
  intros Hn HD D a b. subst a b D. field.
  split; [exact Hn|].
  intro H. apply HD. field_simplify_eq; [|exact Hn].
  rewrite <- H. ring.
Qed.

Lemma combine_fst_snd (pts : list (Q * Q)) :
  combine (map fst pts) (map snd pts) = pts.
Proof.
  induction pts as [|(x, y) l IH]; simpl; [reflexivity|now rewrite IH].
Qed.

Lemma square_nonneg (x : Q) : 0 <= x * x.
Proof.
  destruct (Qlt_le_dec x 0) as [H|H].
  - setoid_replace (x * x) with ((- x) * (- x)) by ring.
    apply Qmult_le_0_compat; lra.
  - apply Qmult_le_0_compat; assumption.
Qed.

Lemma square_zero (x : Q) : x * x == 0 -> x == 0.
Proof.
  intro H. apply Qmult_integral in H. tauto.
Qed.

Lemma Qsum_squares_nonneg (m : Q) (l : list Q) :
  0 <= Qsum (map (fun x => (x - m) * (x - m)) l).
Proof.
  apply Qsum_nonneg, Forall_map, Forall_forall. intros x _. apply square_nonneg.
Qed.

Section Fit.

Variable pts : list (Q * Q).

Hypothesis Hcount : (0 < List.length pts)%nat.
Hypothesis Hspread : 0 < spread pts.

Lemma fit_gap (a' b' : Q) :
  sse pts a' b' - sse pts (slope pts) (intercept pts)
  == count pts
     * ((b' - intercept pts + (a' - slope pts) * (sum_x pts / count pts))
        * (b' - intercept pts + (a' - slope pts) * (sum_x pts / count pts)))
     + spread pts * ((a' - slope pts) * (a' - slope pts)).
Proof.
  assert (Hn : 0 < count pts) by (apply nat_to_Q_pos; exact Hcount).
  assert (Hxm : LinearRegression.mean (map fst pts) = sum_x pts / count pts).
  { unfold LinearRegression.mean, sum_x, count. now rewrite length_map. }
  assert (Hym : LinearRegression.mean (map snd pts) = sum_y pts / count pts).
  { unfold LinearRegression.mean, sum_y, count. now rewrite length_map. }
  assert (HD : spread pts == sum_xx pts - sum_x pts * sum_x pts / count pts).
  { unfold spread. rewrite Hxm, centred_xx. field. lra. }
  assert (Ha : slope pts == (sum_xy pts - sum_x pts * sum_y pts / count pts)
                    / (sum_xx pts - sum_x pts * sum_x pts / count pts)).
  { unfold slope, fitted, LinearRegression.fit. cbn [LinearRegression.coef_].
    fold (spread pts). rewrite HD, combine_fst_snd, Hxm, Hym, centred_xy.
    apply Qmult_comp; [|reflexivity]. field. lra. }
  assert (Hb : intercept pts
               == sum_y pts / count pts - slope pts * (sum_x pts / count pts)).
  { unfold intercept, slope, fitted, LinearRegression.fit.
    cbn [LinearRegression.coef_ LinearRegression.intercept_].
    rewrite Hxm, Hym. reflexivity. }
  rewrite !sse_expand, HD, Hb, Ha.
  apply ols_gap; lra.
Qed.

Lemma fit_least_squares : least_squares pts (slope pts) (intercept pts).
Proof.
  intros a' b'. pose proof (fit_gap a' b') as H.
  assert (Hn : 0 < count pts) by (apply nat_to_Q_pos; exact Hcount).
  pose proof (square_nonneg
                (b' - intercept pts + (a' - slope pts) * (sum_x pts / count pts)))
    as H1.
  pose proof (square_nonneg (a' - slope pts)) as H2.
  assert (0 <= count pts
               * ((b' - intercept pts + (a' - slope pts) * (sum_x pts / count pts))
                  * (b' - intercept pts + (a' - slope pts) * (sum_x pts / count pts))))
    by (apply Qmult_le_0_compat; lra).
  assert (0 <= spread pts * ((a' - slope pts) * (a' - slope pts)))
    by (apply Qmult_le_0_compat; lra).
  lra.
Qed.

Lemma fit_unique (a' b' : Q) :
  least_squares pts a' b' -> a' == slope pts /\ b' == intercept pts.
Proof.
  intro Hmin. specialize (Hmin (slope pts) (intercept pts)).
  pose proof (fit_gap a' b') as H.
  assert (Hn : 0 < count pts) by (apply nat_to_Q_pos; exact Hcount).
  set (u := b' - intercept pts + (a' - slope pts) * (sum_x pts / count pts)) in *.
  set (v := a' - slope pts) in *.
  pose proof (square_nonneg u) as H1.
  pose proof (square_nonneg v) as H2.
  assert (Hu : 0 <= count pts * (u * u)) by (apply Qmult_le_0_compat; lra).
  assert (Hv : 0 <= spread pts * (v * v)) by (apply Qmult_le_0_compat; lra).
  assert (Hv0 : v == 0).
  { apply square_zero. assert (E : spread pts * (v * v) == 0) by lra.
    apply Qmult_integral in E. destruct E; [lra|assumption]. }
  assert (Hu0 : u == 0).
  { apply square_zero. assert (E : count pts * (u * u) == 0) by lra.
    apply Qmult_integral in E. destruct E; [lra|assumption]. }
  split; [subst v; lra|].
  subst u. fold v in Hu0. rewrite Hv0 in Hu0. lra.
Qed.

End Fit.

(* ------------------------------------------------------------------ *)
(** ** The forecast *)

Lemma spread_weeks (n : nat) (m : Q) :
  (2 <= n)%nat ->
  0 < Qsum (map (fun x => (x - m) * (x - m)) (map nat_to_Q (seq 1 n))).
Proof.
  intro Hn. destruct n as [|[|k]]; try lia.
  cbn [seq map]. rewrite !Qsum_cons.
  pose proof (Qsum_squares_nonneg m (map nat_to_Q (seq 3 k))) as Hrest.
  change (nat_to_Q 1) with 1. change (nat_to_Q 2) with 2.
  pose proof (square_nonneg (m - (3 # 2))) as Hsq.
  assert (E : (1 - m) * (1 - m) + (2 - m) * (2 - m)
              == 2 * ((m - (3 # 2)) * (m - (3 # 2))) + (1 # 2)) by ring.
  lra.
Qed.

Lemma check_array_weeks (n : nat) :
  LinearRegression.check_array (week_nums n) = Ok (map nat_to_Q (seq 1 n)).
Proof.
  unfold LinearRegression.check_array, week_nums.
  induction (seq 1 n) as [|k l IH]; simpl; [reflexivity|].
  now rewrite IH.
Qed.

Lemma check_array_rates (rates : list float) :
  existsb is_infinite rates = false ->
  LinearRegression.check_array (Pandas.fillna0 (map Num rates))
  = Ok (map observed rates).
Proof.
  unfold LinearRegression.check_array, Pandas.fillna0.
  induction rates as [|x l IH]; simpl; [reflexivity|].
  rewrite orb_false_iff. intros (Hx & Hl). rewrite (IH Hl).
  destruct x; try discriminate Hx; reflexivity.
Qed.

Lemma observations_fst (rates : list float) :
  map fst (observations rates) = map nat_to_Q (seq 1 (List.length rates)).
Proof.
  unfold observations.
  set (X := map nat_to_Q (seq 1 (List.length rates))).
  assert (H : List.length X = List.length (map observed rates))
    by (unfold X; now rewrite !length_map, length_seq).
  revert H. generalize (map observed rates). induction X as [|x X IH];
    intros [|y Y]; simpl; try discriminate; [reflexivity|].
  intros [= H]. now rewrite IH.
Qed.

Lemma observations_snd (rates : list float) :
  map snd (observations rates) = map observed rates.
Proof.
  unfold observations.
  set (X := map nat_to_Q (seq 1 (List.length rates))).
  assert (H : List.length X = List.length (map observed rates))
    by (unfold X; now rewrite !length_map, length_seq).
  revert H. generalize (map observed rates). induction X as [|x X IH];
    intros [|y Y]; simpl; try discriminate; [reflexivity|].
  intros [= H]. now rewrite IH.
Qed.

Lemma length_observations (rates : list float) :
  List.length (observations rates) = List.length rates.
Proof.
  rewrite <- (length_map snd), observations_snd. apply length_map.
Qed.

Lemma combine_predict (m : LinearRegression.model) (weeks : list nat) :
  combine weeks (LinearRegression.predict m (map nat_to_Q weeks))
  = map (fun k => (k, LinearRegression.coef_ m * nat_to_Q k
                      + LinearRegression.intercept_ m)) weeks.
Proof.
  unfold LinearRegression.predict.
  induction weeks as [|k l IH]; simpl; [reflexivity|now rewrite IH].
Qed.

(** The regression reads the frame through its length and the two derived
    columns only. *)
Lemma fit_and_project_columns (h : nat) (df : DataFrame) (rates : list float) :
  Pandas.len df = List.length rates ->
  Pandas.getcol df "Week_Num" = Ok (week_nums (List.length rates)) ->
  Pandas.getcol df "Rate" = Ok (map Num rates) ->
  fit_and_project h df = fit_and_project h (series_frame rates).
Proof.
  intros Hlen HX Hy. unfold fit_and_project.
  rewrite Hlen, HX, Hy.
  assert (Pandas.len (series_frame rates) = List.length rates) as ->.
  { unfold series_frame, Pandas.len, week_nums. now rewrite length_map, length_seq. }
  reflexivity.
Qed.

Lemma fit_and_project_series (h : nat) (rates : list float) :
  (2 <= List.length rates)%nat ->
  existsb is_infinite rates = false ->
  fit_and_project h (series_frame rates)
  = Ok (Forecast
          (map (fun k => (k, slope (observations rates) * nat_to_Q k
                             + intercept (observations rates)))
             (seq (List.length rates + 1) h))).
Proof.
  intros Hlen Hfin. unfold fit_and_project.
  assert (Pandas.len (series_frame rates) = List.length rates) as ->.
  { unfold series_frame, Pandas.len, week_nums. now rewrite length_map, length_seq. }
  destruct (Nat.ltb_spec 1 (List.length rates)) as [_|]; [|lia].
  unfold series_frame. read_columns.
  rewrite check_array_weeks. cbn [bind].
  rewrite (check_array_rates _ Hfin). cbn [bind].
  rewrite combine_predict.
  unfold slope, intercept, fitted.
  now rewrite observations_fst, observations_snd.
Qed.

Lemma page_analyst_series (rs : RecordSet) :
  page_analyst (frame_of rs)
  = fit_and_project HORIZON (series_frame (map rate_of rs)).
Proof.
  unfold page_analyst. rewrite period_rate_series_frame_of. cbn [bind].
  apply fit_and_project_columns.
  - rewrite length_map. cbn. apply length_map.
  - rewrite length_map. reflexivity.
  - rewrite map_map. reflexivity.
Qed.

Lemma len_series_frame (rates : list float) :
  Pandas.len (series_frame rates) = List.length rates.
Proof.
  unfold series_frame, Pandas.len, week_nums. now rewrite length_map, length_seq.
Qed.

Lemma fit_and_project_need_more (h : nat) (df : DataFrame) :
  fit_and_project h df = Ok NeedMoreData <-> (Pandas.len df < 2)%nat.
Proof.
  unfold fit_and_project.
  destruct (Nat.ltb_spec 1 (Pandas.len df)) as [Hlt|Hge].
  - split; [|lia].
    destruct (Pandas.getcol df "Week_Num") as [X|]; cbn [bind]; [|discriminate].
    destruct (Pandas.getcol df "Rate") as [y|]; cbn [bind]; [|discriminate].
    destruct (LinearRegression.check_array X); cbn [bind]; [|discriminate].
    destruct (LinearRegression.check_array (Pandas.fillna0 y)); cbn [bind];
      discriminate.
  - split; [lia|reflexivity].
Qed.

Lemma series_least_squares (rates : list float) :
  (2 <= List.length rates)%nat ->
  least_squares (observations rates)
    (slope (observations rates)) (intercept (observations rates)) /\
  (forall a' b',
      least_squares (observations rates) a' b' ->
      a' == slope (observations rates) /\ b' == intercept (observations rates)).
Proof.
  intros Hlen.
  assert (Hcount : (0 < List.length (observations rates))%nat)
    by (rewrite length_observations; lia).
  assert (Hspread : 0 < spread (observations rates)).
  { unfold spread. rewrite observations_fst. now apply spread_weeks. }
  split.
  - now apply fit_least_squares.
  - now apply fit_unique.
Qed.

(** C2.  For every series of at least two rates, none of them infinite,
    and every horizon h, [fit_and_project] returns exactly the pairs
    (N+1, a*(N+1)+b), ..., (N+h, a*(N+h)+b), where N is the number of
    observed periods and (a, b) is the one line that minimizes the squared
    error over the observed pairs (period, rate), an undefined rate
    counting as 0.  Nothing is clamped.  The page is the instance with
    horizon 4 on the rates of the records.  For the rates 50, 60, 70 the
    slope is 10, the intercept 40 and the prediction for period 4 is 80;
    for the rates 0, 100 the prediction for period 3 is 200. *)
Theorem fit_and_project_correct :
  (forall (rates : list float) (h : nat),
      (2 <= List.length rates)%nat ->
      existsb is_infinite rates = false ->
      exists a b,
        fit_and_project h (series_frame rates)
        = Ok (Forecast (map (fun k => (k, a * nat_to_Q k + b))
                          (seq (List.length rates + 1) h))) /\
        least_squares (observations rates) a b /\
        (forall a' b',
            least_squares (observations rates) a' b' -> a' == a /\ b' == b)) /\
  (forall rs : RecordSet,
      page_analyst (frame_of rs)
      = fit_and_project HORIZON (series_frame (map rate_of rs))) /\
  (exists a b,
      least_squares (observations [Fin 50; Fin 60; Fin 70]) a b /\
      a == 10 /\ b == 40 /\
      fit_and_project 1 (series_frame [Fin 50; Fin 60; Fin 70])
      = Ok (Forecast [(4%nat, a * nat_to_Q 4 + b)]) /\
      a * nat_to_Q 4 + b == 80) /\
  (exists p,
      fit_and_project 1 (series_frame [Fin 0; Fin 100])
      = Ok (Forecast [(3%nat, p)]) /\
      p == 200).
Proof.
  split; [|split; [|split]].
  - intros rates h Hlen Hfin.
    destruct (series_least_squares rates Hlen) as (Hmin & Huniq).
    eexists; eexists. split; [|split].
    + apply (fit_and_project_series h rates Hlen Hfin).
    + exact Hmin.
    + exact Huniq.
  - apply page_analyst_series.
  - destruct (series_least_squares [Fin 50; Fin 60; Fin 70]) as (Hmin & _);
      [simpl; lia|].
    eexists; eexists. split; [exact Hmin|].
    split; [reflexivity|]. split; [reflexivity|].
    split; [|reflexivity].
    apply (fit_and_project_series 1 [Fin 50; Fin 60; Fin 70]);
      [simpl; lia | reflexivity].
  - eexists. split.
    + apply (fit_and_project_series 1 [Fin 0; Fin 100]);
        [simpl; lia | reflexivity].
    + reflexivity.
Qed.

Lemma fit_and_project_correct_witness :
  exists a b,
    fit_and_project 2 (series_frame [Fin 50; NaN; Fin 70])
    = Ok (Forecast [(4%nat, a * nat_to_Q 4 + b); (5%nat, a * nat_to_Q 5 + b)]) /\
    least_squares [(nat_to_Q 1, 50); (nat_to_Q 2, 0); (nat_to_Q 3, 70)] a b.
Proof.
  destruct (proj1 fit_and_project_correct [Fin 50; NaN; Fin 70] 2%nat)
    as (a & b & E & Hmin & _).
  - simpl. lia.
  - reflexivity.
  - exists a, b. split; [exact E | exact Hmin].
Defined.

(** C7.  With fewer than two data points [fit_and_project] gives the
    dedicated outcome "need more data", which is neither a forecast nor a
    raised exception; with two or more points it never gives that
    outcome. *)
Theorem fit_and_project_guard :
  (forall h df,
      fit_and_project h df = Ok NeedMoreData <-> (Pandas.len df < 2)%nat) /\
  (forall h rates,
      (List.length rates < 2)%nat ->
      fit_and_project h (series_frame rates) = Ok NeedMoreData) /\
  (forall h rates,
      (2 <= List.length rates)%nat ->
      fit_and_project h (series_frame rates) <> Ok NeedMoreData) /\
  (forall rs : RecordSet,
      (List.length rs < 2)%nat -> page_analyst (frame_of rs) = Ok NeedMoreData) /\
  (forall rs : RecordSet,
      (2 <= List.length rs)%nat -> page_analyst (frame_of rs) <> Ok NeedMoreData) /\
  (forall e, Ok NeedMoreData <> Raise e) /\
  (forall points, NeedMoreData <> Forecast points).
Proof.
  split; [exact fit_and_project_need_more|].
  split; [|split; [|split; [|split; [|split]]]].
  - intros h rates H. apply fit_and_project_need_more.
    now rewrite len_series_frame.
  - intros h rates H E. apply fit_and_project_need_more in E.
    rewrite len_series_frame in E. lia.
  - intros rs H. rewrite page_analyst_series.
    apply fit_and_project_need_more. now rewrite len_series_frame, length_map.
  - intros rs H E. rewrite page_analyst_series in E.
    apply fit_and_project_need_more in E.
    rewrite len_series_frame, length_map in E. lia.
  - discriminate.
  - discriminate.
Qed.

Lemma fit_and_project_guard_witness :
  page_analyst (frame_of [mkRecord 0 10 5 20]) = Ok NeedMoreData /\
  page_analyst (frame_of (sample_records 0 7)) <> Ok NeedMoreData.
Proof.
  destruct fit_and_project_guard as (_ & _ & _ & Hfew & Hmany & _).
  split.
  - apply Hfew. simpl. lia.
  - apply Hmany. simpl. lia.
Defined.

(* ================================================================== *)
(** * Further properties *)

(** ** First run and repeated calls of the record store *)

Lemma seed_is_frame (today : Z) : seed today = frame_of (seed_records today).
Proof.
  unfold seed, frame_of, seed_records. cbn [map seq Z.of_nat].
  rewrite Z.sub_0_r. reflexivity.
Qed.

Lemma seed_records_in_range (today : Z) :
  Forall record_in_range (seed_records today).
Proof.
  repeat constructor; cbn; discriminate.
Qed.

Lemma load_data_missing (today : Z) :
  load_data today None
  = (Ok (frame_of (seed_records today)),
     Some (Csv (frame_of (seed_records today)))).
Proof.
  unfold load_data. cbn [exists_file negb to_csv read_csv].
  now rewrite seed_is_frame.
Qed.

(** X1.  Without a file, [load_data] writes the five seed records, dated
    today and one to four weeks back, all within the range of the form, and
    returns them.  Loading again, on any day and from any state, gives the
    same result and leaves the file as the first call left it: the seed is
    never written a second time. *)
Theorem load_data_first_run_and_again (today later : Z) :
  load_data today None
  = (Ok (frame_of (seed_records today)),
     Some (Csv (frame_of (seed_records today)))) /\
  map date (seed_records today)
  = [today; today - 7; today - 14; today - 21; today - 28]%Z /\
  Forall record_in_range (seed_records today) /\
  (forall fs, load_data later (snd (load_data today fs)) = load_data today fs).
Proof.
  split; [apply load_data_missing|]. split; [reflexivity|].
  split; [apply seed_records_in_range|].
  intros [f|].
  - destruct f; reflexivity.
  - rewrite load_data_missing. reflexivity.
Qed.

(** X2.  Without a file, [save_entry] first writes the seed and then
    appends: the file ends up with the five seed records followed by the
    new one, six records in all. *)
Theorem save_entry_first_run (today : Z) (r c l : Q) :
  save_entry today (Fin r) (Fin c) (Fin l) None
  = (Ok (frame_of (seed_records today ++ [mkRecord today r c l])),
     Some (Csv (frame_of (seed_records today ++ [mkRecord today r c l])))) /\
  List.length (seed_records today ++ [mkRecord today r c l]) = 6%nat.
Proof.
  split; [|reflexivity].
  unfold save_entry. rewrite load_data_missing.
  rewrite concat_frame_of. reflexivity.
Qed.

(** X3.  A file that cannot be parsed is never overwritten by
    [save_entry]: the call raises the parser's error before anything is
    written and the entry is lost, and after any sequence of calls the
    file is still the text it was. *)
Theorem save_entry_failure (today : Z) (x y z : float) (entries : RecordSet) :
  save_entry today x y z (Some Unparseable)
  = (Raise ParserError, Some Unparseable) /\
  save_all entries (Some Unparseable) = Some Unparseable.
Proof.
  split; [reflexivity|].
  induction entries as [|e entries IH]; [reflexivity | exact IH].
Qed.

Lemma save_all_frame_of (entries rs : RecordSet) :
  save_all entries (Some (Csv (frame_of rs)))
  = Some (Csv (frame_of (rs ++ entries))).
Proof.
  revert rs. induction entries as [|e entries IH]; intro rs; cbn [save_all].
  - now rewrite app_nil_r.
  - rewrite save_entry_frame_of. cbn [snd]. rewrite IH.
    destruct e. cbn [date recycling_kg compost_kg landfill_kg].
    now rewrite <- app_assoc.
Qed.

(** X4.  Entries saved one after the other accumulate in the order of the
    calls: after any sequence of [save_entry] calls on a file holding a
    record set, the file holds the prior records followed by the saved
    ones, and [load_data] returns exactly that. *)
Theorem save_all_appends (entries rs : RecordSet) (later : Z) :
  save_all entries (Some (Csv (frame_of rs)))
  = Some (Csv (frame_of (rs ++ entries))) /\
  fst (load_data later (save_all entries (Some (Csv (frame_of rs)))))
  = Ok (frame_of (rs ++ entries)) /\
  List.length (rs ++ entries) = (List.length rs + List.length entries)%nat.
Proof.
  rewrite save_all_frame_of. split; [reflexivity|]. split; [reflexivity|].
  apply length_app.
Qed.

(** ** The logger page *)

Lemma lastn_map {A B : Type} (f : A -> B) (n : nat) (l : list A) :
  lastn n (map f l) = map f (lastn n l).
Proof. unfold lastn. now rewrite length_map, skipn_map. Qed.

Lemma tail_rows_frame_of (n : nat) (rs : RecordSet) :
  tail_rows n (frame_of rs) = frame_of (lastn n rs).
Proof.
  unfold tail_rows, frame_of, qcol. cbn [map fst snd].
  now rewrite !lastn_map.
Qed.

Lemma page_logger_frame_of (today : Z) (submitted : bool) (r c l : Q)
    (rs : RecordSet) :
  page_logger today submitted (Fin r) (Fin c) (Fin l)
    (Some (Csv (frame_of rs)))
  = (Ok (frame_of (lastn 5 rs)),
     Some (Csv (frame_of (if submitted then rs ++ [mkRecord today r c l]
                          else rs)))).
Proof.
  unfold page_logger. rewrite load_data_table.
  destruct submitted.
  - rewrite save_entry_frame_of. now rewrite tail_rows_frame_of.
  - now rewrite tail_rows_frame_of.
Qed.

Lemma lastn_incl {A : Type} (n : nat) (l : list A) (x : A) :
  In x (lastn n l) -> In x l.
Proof.
  unfold lastn. intro H.
  rewrite <- (firstn_skipn (List.length l - n) l). apply in_or_app. now right.
Qed.

(** X5.  The recent entries shown by the logger page come from the table
    loaded before the form is handled: on the run that saves an entry, the
    page shows the last five (or fewer) of the records that were there
    before, and the new entry, although written, is not among them unless
    an equal record was already there. *)
Theorem page_logger_shows_previous (today : Z) (r c l : Q) (rs : RecordSet) :
  page_logger today true (Fin r) (Fin c) (Fin l) (Some (Csv (frame_of rs)))
  = (Ok (frame_of (lastn 5 rs)),
     Some (Csv (frame_of (rs ++ [mkRecord today r c l])))) /\
  List.length (lastn 5 rs) = Nat.min 5 (List.length rs) /\
  (forall x, In x (lastn 5 rs) -> In x rs) /\
  page_logger today false (Fin r) (Fin c) (Fin l) (Some (Csv (frame_of rs)))
  = (Ok (frame_of (lastn 5 rs)), Some (Csv (frame_of rs))).
Proof.
  split; [apply (page_logger_frame_of today true)|].
  split; [unfold lastn; rewrite length_skipn; lia|].
  split; [intro x; apply lastn_incl|].
  apply (page_logger_frame_of today false).
Qed.

Lemma page_logger_shows_previous_witness :
  In (mkRecord 0 10 5 20) [mkRecord 0 10 5 20].
Proof.
  destruct (page_logger_shows_previous 1 1 2 3 [mkRecord 0 10 5 20])
    as (_ & _ & H & _).
  apply H. left. reflexivity.
Defined.

(** X6.  The logger page keeps the stored quantities within the bounds of
    its form: when every stored record lies in [0, 1000] and so do the
    three submitted values, every record of the file after the page has run
    lies in [0, 1000], and in particular none is negative. *)
Theorem page_logger_keeps_range (today : Z) (submitted : bool) (r c l : Q)
    (rs : RecordSet) :
  Forall record_in_range rs ->
  widget_range r -> widget_range c -> widget_range l ->
  exists rs',
    snd (page_logger today submitted (Fin r) (Fin c) (Fin l)
           (Some (Csv (frame_of rs))))
    = Some (Csv (frame_of rs')) /\
    Forall record_in_range rs' /\
    Forall nonneg_record rs'.
Proof.
  intros Hrs Hr Hc Hl. rewrite page_logger_frame_of. cbn [snd].
  eexists. split; [reflexivity|].
  assert (H : Forall record_in_range
                (if submitted then rs ++ [mkRecord today r c l] else rs)).
  { destruct submitted; [|exact Hrs].
    apply Forall_app. split; [exact Hrs|].
    constructor; [|constructor]. unfold record_in_range. cbn. auto. }
  split; [exact H|].
  eapply Forall_impl; [|exact H].
  intros x ((H1 & _) & (H2 & _) & (H3 & _)). repeat split; assumption.
Qed.

Lemma page_logger_keeps_range_witness :
  exists rs',
    snd (page_logger 9 true (Fin 10) (Fin 5) (Fin 20)
           (Some (Csv (frame_of (seed_records 2)))))
    = Some (Csv (frame_of rs')) /\
    Forall record_in_range rs' /\
    Forall nonneg_record rs'.
Proof.
  apply (page_logger_keeps_range 9 true 10 5 20 (seed_records 2)).
  - apply seed_records_in_range.
  - split; discriminate.
  - split; discriminate.
  - split; discriminate.
Defined.

(** ** The bounds of the diversion rate *)

Lemma total_zero (f : WasteRecord -> Q) (rs : RecordSet) :
  Forall (fun r => f r == 0) rs -> total f rs == 0.
Proof.
  unfold total. induction 1 as [|r rs H _ IH]; cbn [map].
  - reflexivity.
  - rewrite Qsum_cons, H, IH. reflexivity.
Qed.

Lemma zero_whole (q : Q) : q == 0 -> whole q.
Proof.
  intro H. unfold whole. rewrite (Qfloor_comp _ _ H). exact H.
Qed.

(** X7.  On a record set within the range of the form the diversion rate
    is a number between 0 and 100; it is exactly 100 when nothing went to
    landfill and the grand total is positive, and exactly 0 when nothing
    was recycled or composted. *)
Theorem diversion_rate_bounds (rs : RecordSet) :
  Forall record_in_range rs ->
  (Z.of_nat (List.length rs) <= 2 ^ 40)%Z ->
  exists m g d,
    aggregate (frame_of rs) = Ok m /\
    Number.value (grand_total m) = Fin g /\
    Number.value (div_rate m) = Fin d /\
    0 <= d /\ d <= 100 /\
    (Forall (fun r => landfill_kg r == 0) rs -> 0 < g -> d == 100) /\
    (Forall (fun r => recycling_kg r == 0) rs ->
     Forall (fun r => compost_kg r == 0) rs -> d == 0).
Proof.
  intros F Hn.
  destruct (aggregate_frame_of rs F Hn)
    as (m & tr & tc & tl & a & g & E & _ & _ & _ & Eg & _ & _ & _ & Ha & Hg
        & _ & Wr & Wc & Wl & _ & A0 & Ag & Hpos & Hzero).
  assert (N1 : nearest 1 == 1) by (apply (nearest_Z 1); vm_compute; discriminate).
  assert (N100 : nearest 100 == 100)
    by (apply (nearest_Z 100); vm_compute; discriminate).
  assert (N0 : nearest 0 == 0) by (now rewrite nearest_zero).
  destruct (Qlt_le_dec 0 g) as [Gp|Gn].
  - destruct (Hpos Gp) as (d & Ed & Hd & D0 & D1).
    exists m, g, d. rewrite Ed. cbn [Number.value].
    split; [exact E|]. split; [exact Eg|]. split; [reflexivity|].
    split; [exact D0|]. split; [exact D1|]. split.
    + intros Z _.
      assert (Tl : tl == 0).
      { rewrite Wl; [now apply total_zero|].
        eapply Forall_impl; [|exact Z]. intros r. apply zero_whole. }
      assert (Eag : a == g).
      { rewrite Hg, Tl. rewrite Ha at 1.
        setoid_replace (a + 0) with a by ring.
        rewrite Ha. symmetry. apply double_nearest. }
      rewrite Hd. rewrite <- Eag.
      setoid_replace (a / a) with 1 by (field; lra).
      rewrite N1. setoid_replace (1 * 100) with 100 by ring. exact N100.
    + intros Zr Zc.
      assert (Tr : tr == 0).
      { rewrite Wr; [now apply total_zero|].
        eapply Forall_impl; [|exact Zr]. intros r. apply zero_whole. }
      assert (Tc : tc == 0).
      { rewrite Wc; [now apply total_zero|].
        eapply Forall_impl; [|exact Zc]. intros r. apply zero_whole. }
      assert (Ea : a == 0).
      { rewrite Ha, Tr, Tc. setoid_replace (0 + 0) with 0 by ring. exact N0. }
      rewrite Hd, Ea.
      setoid_replace (0 / g) with 0 by (field; lra).
      rewrite N0. setoid_replace (0 * 100) with 0 by ring. exact N0.
  - assert (Gz : g == 0) by lra.
    exists m, g, 0. rewrite (Hzero Gz). cbn [Number.value].
    split; [exact E|]. split; [exact Eg|]. split; [reflexivity|].
    split; [lra|]. split; [lra|]. split.
    + intros _ Gp. lra.
    + intros _ _. reflexivity.
Qed.

Lemma diversion_rate_bounds_witness :
  exists m d,
    aggregate (frame_of (seed_records 0)) = Ok m /\
    Number.value (div_rate m) = Fin d /\ 0 <= d /\ d <= 100.
Proof.
  destruct (diversion_rate_bounds (seed_records 0))
    as (m & g & d & E & _ & Ed & D0 & D1 & _).
  - repeat constructor; cbn; discriminate.
  - vm_compute. discriminate.
  - exists m, d. repeat split; assumption.
Defined.


Lemma rate_of_finite (r : WasteRecord) :
  ~ recycling_kg r + compost_kg r + landfill_kg r == 0 ->
  rate_of r
  = Fin ((recycling_kg r + compost_kg r)
         / (recycling_kg r + compost_kg r + landfill_kg r) * 100).
Proof.
  intro H. unfold rate_of. cbn [Float.div]. now rewrite is_zero_false by exact H.
Qed.

(** ** Missing columns *)

Lemma getcol_missing (df : DataFrame) (name : string) :
  Pandas.has_col df name = false ->
  Pandas.getcol df name = Raise (KeyError name).
Proof.
  induction df as [|(n, c) df IH]; cbn [Pandas.has_col existsb fst Pandas.getcol].
  - reflexivity.
  - destruct (String.eqb n name); [discriminate|]. exact IH.
Qed.

Lemma getcol_setcol_other (df : DataFrame) (name other : string) (s : Series) :
  String.eqb name other = false ->
  Pandas.getcol (Pandas.setcol df name s) other = Pandas.getcol df other.
Proof.
  intro Hne. induction df as [|(n, c) df IH]; cbn [Pandas.setcol Pandas.getcol].
  - now rewrite Hne.
  - destruct (String.eqb n name) eqn:En; cbn [Pandas.getcol].
    + apply String.eqb_eq in En. subst n. now rewrite Hne.
    + destruct (String.eqb n other); [reflexivity | exact IH].
Qed.

(** X10.  A table without the [Recycling] column makes the dashboard, the
    analyst page and the gamification page raise [KeyError] for that
    column.  A record set stored without its [Landfill] column makes the
    dashboard and the analyst page raise [KeyError] for [Landfill], while
    the gamification page, which never reads that column, gives the same
    level and progress as for the complete table. *)
Theorem pages_on_missing_columns :
  (forall df,
      Pandas.has_col df "Recycling" = false ->
      aggregate df = Raise (KeyError "Recycling") /\
      page_analyst df = Raise (KeyError "Recycling") /\
      level_and_progress df = Raise (KeyError "Recycling")) /\
  (forall rs,
      aggregate (frame_without_landfill rs) = Raise (KeyError "Landfill") /\
      page_analyst (frame_without_landfill rs) = Raise (KeyError "Landfill") /\
      level_and_progress (frame_without_landfill rs)
      = level_and_progress (frame_of rs)).
Proof.
  split.
  - intros df H. pose proof (getcol_missing df _ H) as E.
    unfold aggregate, page_analyst, period_rate_series, level_and_progress.
    rewrite getcol_setcol_other by reflexivity.
    rewrite E. repeat split.
  - intro rs.
    split; [|split].
    + unfold aggregate, frame_without_landfill. read_columns.
      rewrite !sum_qcol. reflexivity.
    + unfold page_analyst, period_rate_series, frame_without_landfill, qcol.
      read_columns. unfold Pandas.add.
      rewrite (zip_op_map _ (fun r => Fin (recycling_kg r))
                 (fun r => Fin (compost_kg r))).
      reflexivity.
    + reflexivity.
Qed.

Lemma pages_on_missing_columns_witness :
  aggregate [("Date"%string, [Day 0]); ("Compost"%string, [Num (Fin 5)])]
  = Raise (KeyError "Recycling").
Proof.
  apply (proj1 pages_on_missing_columns
           [("Date"%string, [Day 0]); ("Compost"%string, [Num (Fin 5)])]).
  reflexivity.
Defined.

(** ** The analyst page on record sets *)

Lemma rate_of_cases (r : WasteRecord) :
  nonneg_record r ->
  rate_of r = NaN \/
  exists x, rate_of r = Fin x /\ 0 <= x /\ x <= 100.
Proof.
  intros (H1 & H2 & H3).
  destruct (Qeq_dec (recycling_kg r + compost_kg r + landfill_kg r) 0) as [Hz|Hnz].
  - left. apply rate_of_all_zero; lra.
  - right. eexists. split; [apply (rate_of_finite r Hnz)|].
    assert (HT : 0 < recycling_kg r + compost_kg r + landfill_kg r).
    { destruct (Qlt_le_dec 0 (recycling_kg r + compost_kg r + landfill_kg r));
        [assumption|]. exfalso. apply Hnz. lra. }
    split.
    + apply Qmult_le_0_compat; [|discriminate].
      apply Qle_shift_div_l; lra.
    + setoid_replace 100 with (1 * 100) at 2 by ring.
      apply Qmult_le_compat_r; [|discriminate].
      apply Qle_shift_div_r; lra.
Qed.

Lemma rates_not_infinite (rs : RecordSet) :
  Forall nonneg_record rs -> existsb is_infinite (map rate_of rs) = false.
Proof.
  induction 1 as [|r rs Hr _ IH]; cbn [map existsb]; [reflexivity|].
  rewrite IH, orb_false_r.
  destruct (rate_of_cases r Hr) as [-> | (x & -> & _)]; reflexivity.
Qed.

(** X11.  On a record set of at least two records, none with a negative
    quantity, the analyst page raises nothing and shows four projected
    points, for the weeks N+1 to N+4; every record rate it starts from is
    undefined (an all-zero record) or lies between 0 and 100. *)
Theorem page_analyst_forecasts (rs : RecordSet) :
  Forall nonneg_record rs ->
  (2 <= List.length rs)%nat ->
  (exists points,
      page_analyst (frame_of rs) = Ok (Forecast points) /\
      map fst points = seq (List.length rs + 1) 4) /\
  Forall (fun r => rate_of r = NaN \/
                   exists x, rate_of r = Fin x /\ 0 <= x /\ x <= 100) rs.
Proof.
  intros Hnn Hlen. split.
  - rewrite page_analyst_series.
    rewrite (fit_and_project_series HORIZON (map rate_of rs));
      [|now rewrite length_map | now apply rates_not_infinite].
    eexists. split; [reflexivity|].
    rewrite map_map. cbn [fst]. rewrite map_id. now rewrite length_map.
  - eapply Forall_impl; [|exact Hnn]. apply rate_of_cases.
Qed.

Lemma page_analyst_forecasts_witness :
  exists points,
    page_analyst (frame_of (seed_records 0)) = Ok (Forecast points) /\
    map fst points = [6; 7; 8; 9]%nat.
Proof.
  destruct (page_analyst_forecasts (seed_records 0)) as (H & _).
  - eapply Forall_impl; [|apply seed_records_in_range].
    intros x ((H1 & _) & (H2 & _) & (H3 & _)). repeat split; assumption.
  - simpl. lia.
  - exact H.
Defined.





(** ** Forecasts of collinear observations *)

Lemma sse_nonneg (pts : list (Q * Q)) (a b : Q) : 0 <= sse pts a b.
Proof.
  unfold sse. apply Qsum_nonneg, Forall_map, Forall_forall.
  intros p _. apply square_nonneg.
Qed.

Lemma sse_on_line (pts : list (Q * Q)) (a b : Q) :
  Forall (fun p => snd p == a * fst p + b) pts -> sse pts a b == 0.
Proof.
  unfold sse. induction 1 as [|p pts Hp _ IH]; cbn [map].
  - reflexivity.
  - rewrite Qsum_cons, IH, Hp. ring.
Qed.

Lemma on_line_least_squares (pts : list (Q * Q)) (a b : Q) :
  Forall (fun p => snd p == a * fst p + b) pts -> least_squares pts a b.
Proof.
  intros H a' b'. rewrite (sse_on_line _ _ _ H). apply sse_nonneg.
Qed.

Lemma forecast_on_line (rates : list float) (a b : Q) (h : nat) :
  (2 <= List.length rates)%nat ->
  existsb is_infinite rates = false ->
  Forall (fun p => snd p == a * fst p + b) (observations rates) ->
  exists points,
    fit_and_project h (series_frame rates) = Ok (Forecast points) /\
    map fst points = seq (List.length rates + 1) h /\
    Forall (fun p => snd p == a * nat_to_Q (fst p) + b) points.
Proof.
  intros Hlen Hfin Hline.
  destruct (series_least_squares rates Hlen) as (_ & Huniq).
  destruct (Huniq a b (on_line_least_squares _ _ _ Hline)) as (Ha & Hb).
  eexists. split; [apply (fit_and_project_series h rates Hlen Hfin)|].
  split.
  - rewrite map_map. cbn [fst]. apply map_id.
  - apply Forall_map, Forall_forall. intros k _. cbn [fst snd].
    now rewrite Ha, Hb.
Qed.

Lemma observations_linear (a b : Q) (n : nat) :
  Forall (fun p => snd p == a * fst p + b) (observations (linear_rates a b n)).
Proof.
  unfold observations, linear_rates. rewrite length_map, length_seq.
  induction (seq 1 n) as [|i l IH]; cbn [map combine]; constructor.
  - cbn [fst snd observed]. reflexivity.
  - exact IH.
Qed.

Lemma linear_rates_finite (a b : Q) (n : nat) :
  existsb is_infinite (linear_rates a b n) = false.
Proof.
  unfold linear_rates. induction (seq 1 n) as [|i l IH]; cbn; [reflexivity|exact IH].
Qed.

(** X13.  Observations that lie on one line are extrapolated along that
    line: when the observed pairs (an undefined rate counting as 0) all
    satisfy rate = a * period + b, every projected point does too.  So a
    series a*i + b of any length N >= 2 is continued exactly, a constant
    series stays constant, and two finite rates y1, y2 are continued to
    2*y2 - y1 in week 3, whatever the range of that value. *)
Theorem fit_and_project_collinear :
  (forall (rates : list float) (a b : Q) (h : nat),
      (2 <= List.length rates)%nat ->
      existsb is_infinite rates = false ->
      Forall (fun p => snd p == a * fst p + b) (observations rates) ->
      exists points,
        fit_and_project h (series_frame rates) = Ok (Forecast points) /\
        map fst points = seq (List.length rates + 1) h /\
        Forall (fun p => snd p == a * nat_to_Q (fst p) + b) points) /\
  (forall (a b : Q) (n h : nat),
      (2 <= n)%nat ->
      exists points,
        fit_and_project h (series_frame (linear_rates a b n))
        = Ok (Forecast points) /\
        map fst points = seq (n + 1) h /\
        Forall (fun p => snd p == a * nat_to_Q (fst p) + b) points) /\
  (forall y1 y2 : Q,
      exists p,
        fit_and_project 1 (series_frame [Fin y1; Fin y2])
        = Ok (Forecast [(3%nat, p)]) /\
        p == 2 * y2 - y1).
Proof.
  split; [exact forecast_on_line|]. split.
  - intros a b n h Hn.
    destruct (forecast_on_line (linear_rates a b n) a b h) as (pts & E & Hw & Hl).
    + unfold linear_rates. now rewrite length_map, length_seq.
    + apply linear_rates_finite.
    + apply observations_linear.
    + exists pts. split; [exact E|]. split; [|exact Hl].
      rewrite Hw. unfold linear_rates. now rewrite length_map, length_seq.
  - intros y1 y2.
    destruct (forecast_on_line [Fin y1; Fin y2] (y2 - y1) (2 * y1 - y2) 1)
      as (pts & E & Hw & Hl).
    + simpl. lia.
    + reflexivity.
    + repeat constructor; cbn [fst snd observed].
      * change (nat_to_Q 1) with 1. ring.
      * change (nat_to_Q 2) with 2. ring.
    + destruct pts as [|(k, p) [|? ?]]; try discriminate Hw.
      cbn in Hw. injection Hw as ->.
      exists p. split; [exact E|].
      inversion Hl as [|? ? Hp _]; subst. cbn [fst snd] in Hp.
      rewrite Hp. change (nat_to_Q 3) with 3. ring.
Qed.

Lemma fit_and_project_collinear_witness :
  exists points,
    fit_and_project 2 (series_frame [Fin 50; Fin 60; Fin 70])
    = Ok (Forecast points) /\
    map fst points = [4; 5]%nat /\
    Forall (fun p => snd p == 10 * nat_to_Q (fst p) + 40) points.
Proof.
  apply (proj1 fit_and_project_collinear [Fin 50; Fin 60; Fin 70] 10 40 2%nat).
  - simpl. lia.
  - reflexivity.
  - repeat constructor; reflexivity.
Defined.

(** ** Levels and badges *)

Lemma Qfloordiv_bracket (t : Q) :
  100 * inject_Z (Qfloordiv t 100) <= t /\
  t < 100 * inject_Z (Qfloordiv t 100 + 1).
Proof.
  destruct (Qmod_bounds t 100) as (Hlo & Hhi). unfold Qmod in *.
  change (inject_Z 100) with 100 in *. rewrite inject_Z_plus.
  change (inject_Z 1) with 1.
  set (k := inject_Z (Qfloordiv t 100)) in *. clearbody k. split; lra.
Qed.

Lemma inject_Z_lt (x y : Z) : inject_Z x < inject_Z y -> (x < y)%Z.
Proof. intro H. now rewrite Zlt_Qlt. Qed.

(** X14.  The level brackets the total T that the page computes (the
    binary64 sum of the diverted quantities): on a record set within the
    range of the form, level n is held exactly while
    100 * (n - 1) <= T < 100 * n, and T - 100 * (level - 1) is the
    remainder T mod 100 that the progress bar shows. *)
Theorem level_brackets_total (rs : RecordSet) :
  Forall record_in_range rs ->
  (Z.of_nat (List.length rs) <= 2 ^ 40)%Z ->
  exists p T,
    level_and_progress (frame_of rs) = Ok p /\
    Number.value (total_saved p) = Fin T /\
    100 * inject_Z (level p - 1) <= T /\
    T < 100 * inject_Z (level p) /\
    T - 100 * inject_Z (level p - 1) == Qmod T 100 /\
    (forall n : Z,
        100 * inject_Z (n - 1) <= T -> T < 100 * inject_Z n -> level p = n).
Proof.
  intros F Hn.
  destruct (level_and_progress_frame_of rs F Hn)
    as (p & T & f & E & ET & _ & _ & _ & _ & _ & Lev & _).
  exists p, T. split; [exact E|]. split; [exact ET|].
  pose proof (Qfloordiv_bracket T) as (Hlo & Hhi).
  rewrite Lev.
  replace (Qfloordiv T 100 + 1 - 1)%Z with (Qfloordiv T 100) by lia.
  split; [exact Hlo|]. split; [exact Hhi|]. split.
  - unfold Qmod. change (inject_Z 100) with 100. ring.
  - intros n Hn1 Hn2.
    assert (H1 : inject_Z (Qfloordiv T 100) < inject_Z n).
    { set (k := inject_Z (Qfloordiv T 100)) in *.
      set (k' := inject_Z n) in *. clearbody k k'. lra. }
    assert (H2 : inject_Z (n - 1) < inject_Z (Qfloordiv T 100 + 1)).
    { set (k := inject_Z (Qfloordiv T 100 + 1)) in *.
      set (k' := inject_Z (n - 1)) in *. clearbody k k'. lra. }
    apply inject_Z_lt in H1, H2. lia.
Qed.

Lemma level_brackets_total_witness :
  exists p,
    level_and_progress (frame_of [mkRecord 0 200 50 30]) = Ok p /\
    level p = 3%Z.
Proof.
  destruct (level_brackets_total [mkRecord 0 200 50 30])
    as (p & T & E & ET & _ & _ & _ & H).
  - repeat constructor; cbn; discriminate.
  - vm_compute. discriminate.
  - exists p. split; [exact E|].
    assert (T250 : T = 250).
    { pose proof E as E'. vm_compute in E'. injection E' as <-.
      cbn in ET. now injection ET as <-. }
    apply H; rewrite T250; [cbn; discriminate | reflexivity].
Defined.

Lemma number_gtb_value (a : number) (t : Q) (k : Z) :
  Number.value a = Fin t ->
  (Number.gtb a k = true <-> inject_Z k < t).
Proof.
  destruct a as [z|x]; cbn [Number.value Number.gtb].
  - intros [= <-]. rewrite Z.ltb_lt. now rewrite Zlt_Qlt.
  - intros ->. cbn [Float.gtb]. rewrite negb_true_iff. split.
    + intro H. destruct (Qlt_le_dec (inject_Z k) t) as [|Hle]; [assumption|].
      apply Qle_bool_iff in Hle. congruence.
    + intro H. destruct (Qle_bool t (inject_Z k)) eqn:E; [|reflexivity].
      apply Qle_bool_iff in E. lra.
Qed.

Lemma in_single_if (c : bool) (x b : badge) :
  In b (if c then [x] else []) <-> c = true /\ x = b.
Proof.
  destruct c; cbn [In]; split.
  - intros [H|[]]. now split.
  - intros (_ & H). now left.
  - intros [].
  - intros (H & _). discriminate H.
Qed.

Lemma in_badges_of (a : number) (t : Q) (b : badge) :
  Number.value a = Fin t ->
  (In b (badges_of a) <->
   match b with
   | Beginner => 10 < t
   | Recycler => 100 < t
   | Guardian => 500 < t
   end).
Proof.
  intro V. unfold badges_of. rewrite !in_app_iff, !in_single_if.
  rewrite !(number_gtb_value a t _ V).
  change (inject_Z 10) with 10. change (inject_Z 100) with 100.
  change (inject_Z 500) with 500.
  destruct b; split.
  - intros [(H & _) | [(_ & H) | (_ & H)]]; [exact H | discriminate H ..].
  - intro H. left. now split.
  - intros [(_ & H) | [(H & _) | (_ & H)]]; [discriminate H | exact H | discriminate H].
  - intro H. right. left. now split.
  - intros [(_ & H) | [(_ & H) | (H & _)]]; [discriminate H .. | exact H].
  - intro H. right. right. now split.
Qed.

(** X15.  Each badge is earned exactly when the total T that the page
    computes is strictly above its threshold of 10, 100 or 500 kg, so a
    higher badge never comes without the lower ones; The Recycler comes
    with level 2 or more and The Guardian with level 6 or more, while a
    computed total of exactly 100 kg gives level 2 without The
    Recycler. *)
Theorem badges_thresholds (rs : RecordSet) :
  Forall record_in_range rs ->
  (Z.of_nat (List.length rs) <= 2 ^ 40)%Z ->
  exists p T bs,
    page_gamification (frame_of rs) = Ok (p, bs) /\
    Number.value (total_saved p) = Fin T /\
    (In Beginner bs <-> 10 < T) /\
    (In Recycler bs <-> 100 < T) /\
    (In Guardian bs <-> 500 < T) /\
    (In Guardian bs -> In Recycler bs) /\
    (In Recycler bs -> In Beginner bs) /\
    (In Recycler bs -> (2 <= level p)%Z) /\
    (In Guardian bs -> (6 <= level p)%Z) /\
    (T == 100 -> level p = 2%Z /\ ~ In Recycler bs).
Proof.
  intros F Hn.
  destruct (level_and_progress_frame_of rs F Hn)
    as (p & T & f & E & ET & _ & _ & _ & _ & _ & Lev & _).
  exists p, T, (badges_of (total_saved p)).
  split; [unfold page_gamification; now rewrite E|].
  split; [exact ET|].
  rewrite !(in_badges_of _ T _ ET), Lev.
  assert (Hfloor : forall k : Z, inject_Z k * 100 <= T ->
                                 (k <= Qfloordiv T 100)%Z).
  { intros k Hk. unfold Qfloordiv. rewrite <- (Qfloor_Z k).
    apply Qfloor_resp_le. change (inject_Z 100) with 100.
    apply Qle_shift_div_l; [reflexivity | exact Hk]. }
  split; [reflexivity|]. split; [reflexivity|]. split; [reflexivity|].
  split; [intro; lra|]. split; [intro; lra|]. split; [|split].
  - intro H. assert (1 <= Qfloordiv T 100)%Z
      by (apply Hfloor; change (inject_Z 1) with 1; lra). lia.
  - intro H. assert (5 <= Qfloordiv T 100)%Z
      by (apply Hfloor; change (inject_Z 5) with 5; lra). lia.
  - intro H. split.
    + rewrite (Qfloordiv_comp T 100 H 100%positive _ eq_refl). reflexivity.
    + intro H'. lra.
Qed.

Lemma badges_thresholds_witness :
  exists p bs,
    page_gamification (frame_of [mkRecord 0 60 40 7]) = Ok (p, bs) /\
    level p = 2%Z /\ ~ In Recycler bs.
Proof.
  destruct (badges_thresholds [mkRecord 0 60 40 7])
    as (p & T & bs & E & ET & _ & _ & _ & _ & _ & _ & _ & H).
  - repeat constructor; cbn; discriminate.
  - vm_compute. discriminate.
  - exists p, bs. split; [exact E|]. apply H.
    pose proof E as E'. vm_compute in E'. injection E' as <- _.
    cbn in ET. injection ET as <-. reflexivity.
Defined.

(** ** Whole-number quantities: the pages in exact terms *)

Lemma total_cons (f : WasteRecord -> Q) (r : WasteRecord) (rs : RecordSet) :
  total f (r :: rs) = f r + total f rs.
Proof. reflexivity. Qed.

Lemma total_nonneg (f : WasteRecord -> Q) (rs : RecordSet) :
  Forall (fun r => 0 <= f r) rs -> 0 <= total f rs.
Proof.
  intro H. apply Qsum_nonneg, Forall_map. exact H.
Qed.

Lemma range_nonneg (rs : RecordSet) :
  Forall record_in_range rs -> Forall nonneg_record rs.
Proof.
  intro H. eapply Forall_impl; [|exact H].
  intros r ((H1 & _) & (H2 & _) & (H3 & _)). repeat split; assumption.
Qed.

Lemma totals_nonneg (rs : RecordSet) :
  Forall nonneg_record rs ->
  0 <= total recycling_kg rs /\ 0 <= total compost_kg rs /\
  0 <= total landfill_kg rs.
Proof.
  intro H. repeat split; apply total_nonneg;
    (eapply Forall_impl; [|exact H]); intros r (? & ? & ?); assumption.
Qed.

Lemma grand_total_zero_iff (rs : RecordSet) :
  Forall nonneg_record rs ->
  (total recycling_kg rs + total compost_kg rs + total landfill_kg rs == 0
   <-> Forall all_zero rs).
Proof.
  intro H. pose proof (totals_nonneg rs H) as (Hr & Hc & Hl).
  induction H as [|r rs (H1 & H2 & H3) Hrs IH].
  - split; [constructor | reflexivity].
  - rewrite !total_cons in *.
    pose proof (totals_nonneg rs Hrs) as (Hr' & Hc' & Hl').
    specialize (IH Hr' Hc' Hl'). split.
    + intro E. constructor.
      * unfold all_zero. repeat split; lra.
      * apply IH. lra.
    + intro E. inversion E as [|? ? (E1 & E2 & E3) Erest]; subst.
      apply IH in Erest. lra.
Qed.

(** The dashboard on whole-number quantities: the exact totals. *)
Lemma aggregate_whole (rs : RecordSet) :
  Forall record_in_range rs -> Forall whole_record rs ->
  (Z.of_nat (List.length rs) <= 2 ^ 40)%Z ->
  exists m tr tc tl g,
    aggregate (frame_of rs) = Ok m /\
    Number.value (total_recycling m) = Fin tr /\
    Number.value (total_compost m) = Fin tc /\
    Number.value (total_landfill m) = Fin tl /\
    Number.value (grand_total m) = Fin g /\
    tr == total recycling_kg rs /\ tc == total compost_kg rs /\
    tl == total landfill_kg rs /\
    g == total recycling_kg rs + total compost_kg rs + total landfill_kg rs.
Proof.
  intros F W Hn.
  destruct (aggregate_frame_of rs F Hn)
    as (m & tr & tc & tl & a & g & E & Vr & Vc & Vl & Vg & _ & _ & _ & _ & _
        & _ & Wr & Wc & Wl & Wg & _).
  exists m, tr, tc, tl, g. do 5 (split; [assumption|]).
  rewrite Forall_forall in W.
  split; [apply Wr|split; [apply Wc|split; [apply Wl|apply Wg]]];
    rewrite Forall_forall; try exact W; intros r Hr; apply (W r Hr).
Qed.

(** X8.  On a record set of whole-number quantities within the range of
    the form the dashboard shows the warning that there is no data
    exactly when every quantity of every record is zero (an empty table
    included); otherwise it draws the pie of the three column totals. *)
Theorem waste_composition_no_data (rs : RecordSet) :
  Forall record_in_range rs -> Forall whole_record rs ->
  (Z.of_nat (List.length rs) <= 2 ^ 40)%Z ->
  (waste_composition (frame_of rs) = Ok NoDataYet <-> Forall all_zero rs) /\
  (~ Forall all_zero rs ->
   exists a b c tr tc tl,
     waste_composition (frame_of rs) = Ok (Pie a b c) /\
     Number.value a = Fin tr /\ Number.value b = Fin tc /\
     Number.value c = Fin tl /\
     tr == total recycling_kg rs /\ tc == total compost_kg rs /\
     tl == total landfill_kg rs).
Proof.
  intros F W Hn.
  destruct (aggregate_whole rs F W Hn)
    as (m & tr & tc & tl & g & E & Vr & Vc & Vl & Vg & Hr & Hc & Hl & Hg).
  pose proof (range_nonneg rs F) as Nn.
  pose proof (grand_total_zero_iff rs Nn) as Hz.
  destruct (totals_nonneg rs Nn) as (R0 & C0 & L0).
  pose proof (number_gtb_value (grand_total m) g 0 Vg) as G.
  change (inject_Z 0) with 0 in G.
  unfold waste_composition. rewrite E. cbn [bind].
  destruct (Number.gtb (grand_total m) 0) eqn:B.
  - assert (Gp : 0 < g) by (now apply G).
    split.
    + split; [discriminate|]. intro Z. apply Hz in Z. lra.
    + intros _. exists (total_recycling m), (total_compost m),
        (total_landfill m), tr, tc, tl. repeat split; assumption.
  - assert (Gz : g == 0).
    { destruct (Qlt_le_dec 0 g) as [Gp|Gn].
      - apply G in Gp. congruence.
      - lra. }
    split.
    + split; [|reflexivity]. intros _. apply Hz. lra.
    + intro Nz. exfalso. apply Nz, Hz. lra.
Qed.

Lemma waste_composition_no_data_witness :
  waste_composition (frame_of [mkRecord 0 0 0 0; mkRecord 7 0 0 0])
  = Ok NoDataYet.
Proof.
  destruct (waste_composition_no_data [mkRecord 0 0 0 0; mkRecord 7 0 0 0])
    as (H & _).
  - repeat constructor; cbn; discriminate.
  - repeat constructor; vm_compute; reflexivity.
  - vm_compute. discriminate.
  - apply H. repeat constructor; reflexivity.
Defined.

Lemma total_diverted_app (rs extra : RecordSet) :
  total_diverted (rs ++ extra) == total_diverted rs + total_diverted extra.
Proof.
  unfold total_diverted. rewrite map_app. apply Qsum_app.
Qed.

Lemma total_diverted_nonneg (rs : RecordSet) :
  Forall nonneg_record rs -> 0 <= total_diverted rs.
Proof.
  intro H. apply Qsum_nonneg. apply Forall_map.
  eapply Forall_impl; [|exact H]. intros r (H1 & H2 & _). lra.
Qed.

Lemma page_gamification_whole (rs : RecordSet) :
  Forall record_in_range rs -> Forall whole_record rs ->
  (Z.of_nat (List.length rs) <= 2 ^ 40)%Z ->
  exists p T,
    page_gamification (frame_of rs) = Ok (p, badges_of (total_saved p)) /\
    Number.value (total_saved p) = Fin T /\
    T == total_diverted rs /\
    level p = (Qfloordiv T 100 + 1)%Z.
Proof.
  intros F W Hn.
  destruct (level_and_progress_frame_of rs F Hn)
    as (p & T & f & E & ET & _ & _ & _ & _ & Tw & Lev & _).
  exists p, T. split; [unfold page_gamification; now rewrite E|].
  split; [exact ET|]. split; [now apply Tw | exact Lev].
Qed.

(** X16.  Logging more never costs a level or a badge: on whole-number
    quantities within the range of the form, when records are added to a
    record set the level does not go down and every badge held before is
    still held. *)
Theorem level_never_drops (rs extra : RecordSet) :
  Forall record_in_range (rs ++ extra) ->
  Forall whole_record (rs ++ extra) ->
  (Z.of_nat (List.length (rs ++ extra)) <= 2 ^ 40)%Z ->
  exists p bs p' bs',
    page_gamification (frame_of rs) = Ok (p, bs) /\
    page_gamification (frame_of (rs ++ extra)) = Ok (p', bs') /\
    (level p <= level p')%Z /\
    incl bs bs'.
Proof.
  intros F W Hn.
  pose proof (proj1 (Forall_app _ _ _) F) as (F1 & F2).
  pose proof (proj1 (Forall_app _ _ _) W) as (W1 & _).
  assert (Hn1 : (Z.of_nat (List.length rs) <= 2 ^ 40)%Z).
  { rewrite length_app in Hn. lia. }
  destruct (page_gamification_whole rs F1 W1 Hn1) as (p & T & E & V & HT & Lev).
  destruct (page_gamification_whole (rs ++ extra) F W Hn)
    as (p' & T' & E' & V' & HT' & Lev').
  assert (Hle : T <= T').
  { rewrite HT, HT', total_diverted_app.
    pose proof (total_diverted_nonneg extra (range_nonneg extra F2)). lra. }
  exists p, (badges_of (total_saved p)), p', (badges_of (total_saved p')).
  split; [exact E|]. split; [exact E'|]. split.
  - rewrite Lev, Lev'.
    assert (Qfloordiv T 100 <= Qfloordiv T' 100)%Z; [|lia].
    unfold Qfloordiv. apply Qfloor_resp_le.
    apply Qmult_le_compat_r; [exact Hle | discriminate].
  - intros b. rewrite (in_badges_of _ T b V), (in_badges_of _ T' b V').
    destruct b; lra.
Qed.

Lemma level_never_drops_witness :
  exists p bs p' bs',
    page_gamification (frame_of (seed_records 0)) = Ok (p, bs) /\
    page_gamification (frame_of (seed_records 0 ++ [mkRecord 3 10 5 20]))
    = Ok (p', bs') /\
    (level p <= level p')%Z /\
    incl bs bs'.
Proof.
  apply (level_never_drops (seed_records 0) [mkRecord 3 10 5 20]).
  - repeat constructor; cbn; discriminate.
  - repeat constructor; vm_compute; reflexivity.
  - vm_compute. discriminate.
Defined.

(** ** Integer columns and float columns *)

Lemma total_of_whole (fq : WasteRecord -> Q) (fz : WholeRecord -> Z)
    (ws : list WholeRecord) :
  (forall w, fq (record_of_whole w) = inject_Z (fz w)) ->
  total fq (map record_of_whole ws) == inject_Z (ztotal fz ws).
Proof.
  intro H. unfold total, ztotal.
  induction ws as [|w ws IH]; [reflexivity|].
  cbn [map Zsum fold_right]. fold (Zsum (map fz ws)).
  rewrite Qsum_cons, IH, H, inject_Z_plus. reflexivity.
Qed.

Lemma ztotal_range (fz : WholeRecord -> Z) (ws : list WholeRecord) :
  Forall (fun w => 0 <= fz w <= 1000)%Z ws ->
  (0 <= ztotal fz ws <= 1000 * Z.of_nat (List.length ws))%Z.
Proof.
  unfold ztotal. induction 1 as [|w ws Hw _ IH].
  - cbn. lia.
  - cbn [map Zsum fold_right List.length]. fold (Zsum (map fz ws)). lia.
Qed.

Lemma whole_records_in_range (ws : list WholeRecord) :
  Forall whole_in_range ws ->
  Forall record_in_range (map record_of_whole ws) /\
  Forall whole_record (map record_of_whole ws).
Proof.
  intro F. split; apply Forall_map; (eapply Forall_impl; [|exact F]);
    intros w ((R0 & R1) & (C0 & C1) & (L0 & L1)).
  - unfold record_in_range, widget_range.
    cbn [record_of_whole recycling_kg compost_kg landfill_kg].
    change 0 with (inject_Z 0). change 1000 with (inject_Z 1000).
    rewrite <- !Zle_Qle. lia.
  - unfold whole_record, whole.
    cbn [record_of_whole recycling_kg compost_kg landfill_kg].
    rewrite !Qfloor_Z. repeat split; reflexivity.
Qed.

Lemma fits64_small (z : Z) : (0 <= z <= 2 ^ 53)%Z -> fits64 z.
Proof.
  unfold fits64. change (2 ^ 53)%Z with 9007199254740992%Z.
  change (2 ^ 63)%Z with 9223372036854775808%Z. lia.
Qed.

(** X9.  On whole-number quantities within the range of the form it
    makes no difference whether the table is stored in integer columns
    (as the seed is first written) or in float columns (as it is after
    the first entry of the form): the dashboard shows the same totals,
    grand total and rate, and the gamification page the same total,
    level and progress. *)
Theorem integer_or_float_columns (ws : list WholeRecord) :
  Forall whole_in_range ws ->
  (Z.of_nat (List.length ws) <= 2 ^ 40)%Z ->
  exists mi mf pi pf,
    aggregate (int_frame_of ws) = Ok mi /\
    aggregate (frame_of (map record_of_whole ws)) = Ok mf /\
    Number.value (total_recycling mi) =f= Number.value (total_recycling mf) /\
    Number.value (total_compost mi) =f= Number.value (total_compost mf) /\
    Number.value (total_landfill mi) =f= Number.value (total_landfill mf) /\
    Number.value (grand_total mi) =f= Number.value (grand_total mf) /\
    Number.value (div_rate mi) =f= Number.value (div_rate mf) /\
    level_and_progress (int_frame_of ws) = Ok pi /\
    level_and_progress (frame_of (map record_of_whole ws)) = Ok pf /\
    Number.value (total_saved pi) =f= Number.value (total_saved pf) /\
    level pi = level pf /\
    progress pi =f= progress pf.
Proof.
  intros F Hn. set (rs := map record_of_whole ws).
  destruct (whole_records_in_range ws F) as (Fr & Fw). fold rs in Fr, Fw.
  assert (Hlen : List.length rs = List.length ws) by apply length_map.
  assert (Hn' : (Z.of_nat (List.length rs) <= 2 ^ 40)%Z) by (now rewrite Hlen).
  set (R := ztotal whole_recycling ws). set (C := ztotal whole_compost ws).
  set (L := ztotal whole_landfill ws).
  assert (BR : (0 <= R <= 1000 * Z.of_nat (List.length ws))%Z).
  { apply ztotal_range. eapply Forall_impl; [|exact F]. intros w (H & _). exact H. }
  assert (BC : (0 <= C <= 1000 * Z.of_nat (List.length ws))%Z).
  { apply ztotal_range. eapply Forall_impl; [|exact F]. intros w (_ & H & _). exact H. }
  assert (BL : (0 <= L <= 1000 * Z.of_nat (List.length ws))%Z).
  { apply ztotal_range. eapply Forall_impl; [|exact F]. intros w (_ & _ & H). exact H. }
  assert (N53 : (3000 * Z.of_nat (List.length ws) <= 2 ^ 53)%Z).
  { change (2 ^ 53)%Z with 9007199254740992%Z.
    change (2 ^ 40)%Z with 1099511627776%Z in Hn. lia. }
  assert (ER : total recycling_kg rs == inject_Z R)
    by (apply total_of_whole; reflexivity).
  assert (EC : total compost_kg rs == inject_Z C)
    by (apply total_of_whole; reflexivity).
  assert (EL : total landfill_kg rs == inject_Z L)
    by (apply total_of_whole; reflexivity).
  (* the dashboard *)
  pose proof (aggregate_int_frame_of ws) as Ei. fold R C L in Ei.
  specialize (Ei ltac:(apply fits64_small; lia) ltac:(apply fits64_small; lia)
                 ltac:(apply fits64_small; lia) ltac:(apply fits64_small; lia)
                 ltac:(apply fits64_small; lia)).
  destruct (aggregate_frame_of rs Fr Hn')
    as (mf & tr & tc & tl & a & g & Ef & Vr & Vc & Vl & Vg & _ & _ & _ & Ha
        & Hg & _ & Wr & Wc & Wl & Wg & A0 & Ag & Hpos & Hzero).
  assert (Tr : tr == inject_Z R).
  { rewrite <- ER. apply Wr. rewrite Forall_forall in Fw |- *.
    intros r Hr. apply (Fw r Hr). }
  assert (Tc : tc == inject_Z C).
  { rewrite <- EC. apply Wc. rewrite Forall_forall in Fw |- *.
    intros r Hr. apply (Fw r Hr). }
  assert (Tl : tl == inject_Z L).
  { rewrite <- EL. apply Wl. rewrite Forall_forall in Fw |- *.
    intros r Hr. apply (Fw r Hr). }
  assert (Tg : g == inject_Z (R + C + L)).
  { rewrite (Wg Fw), ER, EC, EL, !inject_Z_plus. reflexivity. }
  assert (Ta : a == inject_Z (R + C)).
  { rewrite Ha, Tr, Tc, <- inject_Z_plus. apply nearest_Z. lia. }
  (* the gamification page *)
  destruct (level_and_progress_int_frame_of ws) as (fi & Epi & Hfi & _).
  { apply fits64_small. fold R. lia. }
  { apply fits64_small. fold C. lia. }
  { apply fits64_small. fold R C. lia. }
  fold R C in Epi, Hfi.
  destruct (level_and_progress_frame_of rs Fr Hn')
    as (pf & T & ff & Epf & VT & Epr & _ & _ & _ & TW & Lev & Hff & _).
  assert (ET : T == inject_Z (R + C)).
  { rewrite (TW Fw). unfold rs. apply total_diverted_whole. }
  eexists. exists mf. eexists. exists pf.
  split; [exact Ei|]. split; [exact Ef|].
  cbn [total_recycling total_compost total_landfill grand_total div_rate
       Number.value].
  rewrite Vr, Vc, Vl, Vg. cbn [Float.eq].
  split; [now symmetry|]. split; [now symmetry|]. split; [now symmetry|].
  split; [now symmetry|].
  split.
  { destruct (Z.ltb_spec 0 (R + C + L)) as [Gp|Gn].
    - assert (Gq : 0 < g).
      { rewrite Tg. change 0 with (inject_Z 0). now rewrite <- Zlt_Qlt. }
      destruct (Hpos Gq) as (d & Ed & Hd & _). rewrite Ed.
      destruct (of_Z_small (R + C)) as (q1 & E1 & H1); [lia|].
      destruct (of_Z_small (R + C + L)) as (q2 & E2 & H2); [lia|].
      rewrite E1, E2.
      assert (Q0 : 0 <= q1).
      { rewrite H1. change 0 with (inject_Z 0). rewrite <- Zle_Qle. lia. }
      assert (Q12 : q1 <= q2).
      { rewrite H1, H2. rewrite <- Zle_Qle. lia. }
      assert (Q2 : 0 < q2).
      { rewrite H2. change 0 with (inject_Z 0). now rewrite <- Zlt_Qlt. }
      destruct (rate_of_doubles q1 q2 Q0 Q12 Q2) as (d' & Ed' & Hd' & _).
      unfold Number.truediv in Ed'. cbn [Number.to_float] in Ed'.
      rewrite Ed'. cbn [Number.value Float.eq].
      rewrite Hd', Hd. apply nearest_comp.
      assert (Eq : q1 / q2 == a / g).
      { rewrite H1, H2, Ta, Tg. reflexivity. }
      now rewrite Eq.
    - assert (Gz : g == 0).
      { rewrite Tg. assert (R + C + L = 0)%Z as -> by lia. reflexivity. }
      rewrite (Hzero Gz). reflexivity. }
  split; [exact Epi|]. split; [exact Epf|].
  cbn [total_saved level progress Number.value]. rewrite VT, Epr.
  cbn [Float.eq].
  split; [now symmetry|].
  split.
  { rewrite Lev. f_equal.
    rewrite (Qfloordiv_comp T _ ET 100%positive _ eq_refl).
    unfold Qfloordiv. apply Zdiv_Qdiv. }
  { rewrite Hfi, Hff. apply nearest_comp.
    assert (Em : Qmod T 100 == inject_Z ((R + C) mod 100)).
    { rewrite (Qmod_comp T _ ET 100%positive _ eq_refl).
      unfold Qmod, Qfloordiv, Qminus. rewrite <- Zdiv_Qdiv.
      rewrite <- inject_Z_mult, <- inject_Z_opp, <- inject_Z_plus.
      apply inject_Z_injective. rewrite Z.mod_eq by lia. lia. }
    now rewrite Em. }
Qed.

Lemma integer_or_float_columns_witness :
  exists mi mf,
    aggregate (int_frame_of [mkWhole 0 45 20 100; mkWhole 7 48 22 95])
    = Ok mi /\
    aggregate (frame_of (map record_of_whole
                           [mkWhole 0 45 20 100; mkWhole 7 48 22 95]))
    = Ok mf /\
    Number.value (div_rate mi) =f= Number.value (div_rate mf).
Proof.
  destruct (integer_or_float_columns [mkWhole 0 45 20 100; mkWhole 7 48 22 95])
    as (mi & mf & _ & _ & Ei & Ef & _ & _ & _ & _ & Hd & _).
  - repeat constructor; cbn; lia.
  - vm_compute. discriminate.
  - exists mi, mf. repeat split; assumption.
Defined.




(** ** More on the advice lookup *)

Section AdviceMore.

Local Open Scope string_scope.

Lemma lower_char_space (c : ascii) :
  Str.is_space (Str.lower_char c) = Str.is_space c.
Proof. destruct c as [[] [] [] [] [] [] [] []]; reflexivity. Qed.

Lemma lower_append (a b : string) :
  Str.lower (a ++ b) = Str.lower a ++ Str.lower b.
Proof. induction a as [|c a IH]; cbn; [reflexivity | now rewrite IH]. Qed.

Lemma all_space_lower (s : string) : all_space (Str.lower s) = all_space s.
Proof.
  induction s as [|c s IH]; cbn; [reflexivity|].
  now rewrite lower_char_space, IH.
Qed.

Lemma lower_idempotent (s : string) : Str.lower (Str.lower s) = Str.lower s.
Proof. apply lower_fixed, lower_is_lower. Qed.

Lemma lstrip_all_space (s : string) : all_space s = true -> Str.lstrip s = "".
Proof.
  induction s as [|c s IH]; cbn; [reflexivity|].
  rewrite andb_true_iff. intros (Hc & Hs). rewrite Hc. now apply IH.
Qed.

Lemma lstrip_pad (a s : string) :
  all_space a = true -> Str.lstrip (a ++ s) = Str.lstrip s.
Proof.
  induction a as [|c a IH]; cbn; [reflexivity|].
  rewrite andb_true_iff. intros (Hc & Ha). rewrite Hc. now apply IH.
Qed.

Lemma rstrip_all_space (s : string) : all_space s = true -> Str.rstrip s = "".
Proof.
  induction s as [|c s IH]; cbn; [reflexivity|].
  rewrite andb_true_iff. intros (Hc & Hs). now rewrite (IH Hs), Hc.
Qed.

Lemma rstrip_pad (s b : string) :
  all_space b = true -> Str.rstrip (s ++ b) = Str.rstrip s.
Proof.
  intro Hb. induction s as [|c s IH]; cbn.
  - now apply rstrip_all_space.
  - now rewrite IH.
Qed.

Lemma strip_pad_right (s b : string) :
  all_space b = true -> Str.strip (s ++ b) = Str.strip s.
Proof.
  intro Hb. unfold Str.strip. induction s as [|c s IH]; cbn.
  - now rewrite (lstrip_all_space _ Hb).
  - destruct (Str.is_space c); [exact IH|].
    change (String c (s ++ b)) with (String c s ++ b).
    now apply rstrip_pad.
Qed.

Lemma strip_pad (a s b : string) :
  all_space a = true -> all_space b = true ->
  Str.strip (a ++ s ++ b) = Str.strip s.
Proof.
  intros Ha Hb. rewrite <- (strip_pad_right s b Hb).
  unfold Str.strip. now rewrite lstrip_pad.
Qed.

Lemma normalize_pad (a q b : string) :
  all_space a = true -> all_space b = true ->
  normalize (a ++ q ++ b) = normalize q.
Proof.
  intros Ha Hb. unfold normalize. rewrite !lower_append.
  apply strip_pad; now rewrite all_space_lower.
Qed.

Lemma keys_trimmed (key advice : string) :
  In (key, advice) database -> trimmed key.
Proof.
  intro H. unfold database in H. cbn [In] in H.
  repeat (destruct H as [H|H]; [inversion H; subst; repeat split; discriminate|]).
  destruct H.
Qed.

Lemma prefix_space_head (key s : string) (c : ascii) :
  key <> "" -> starts_with_space key = false -> Str.is_space c = true ->
  String.prefix key (String c s) = false.
Proof.
  destruct key as [|k key]; [congruence|]. cbn. intros _ Hk Hc.
  destruct (Ascii.ascii_dec k c) as [->|]; [congruence | reflexivity].
Qed.

Lemma contains_lstrip (key s : string) :
  key <> "" -> starts_with_space key = false ->
  Str.contains key (Str.lstrip s) = Str.contains key s.
Proof.
  intros Hne Hk. induction s as [|c s IH]; [reflexivity|].
  cbn [Str.lstrip]. destruct (Str.is_space c) eqn:Hc; [|reflexivity].
  rewrite IH. cbn [Str.contains].
  now rewrite (prefix_space_head key s c Hne Hk Hc).
Qed.

Lemma prefix_nil_l (s : string) : String.prefix "" s = true.
Proof. destruct s; reflexivity. Qed.

Lemma prefix_nil_r (key : string) : key <> "" -> String.prefix key "" = false.
Proof. destruct key; [congruence | reflexivity]. Qed.

Lemma prefix_rstrip (key s : string) :
  key <> "" -> ends_with_space key = false ->
  String.prefix key (Str.rstrip s) = String.prefix key s.
Proof.
  revert key. induction s as [|c s IH]; intros key Hne Hk; [reflexivity|].
  destruct key as [|k key]; [congruence|].
  destruct key as [|k' key].
  - (* the key is the single character [k], not a space *)
    cbn [ends_with_space] in Hk. cbn [Str.rstrip].
    destruct (Str.rstrip s) as [|d t].
    + destruct (Str.is_space c) eqn:Hc; cbn [String.prefix].
      * destruct (Ascii.ascii_dec k c) as [->|]; [congruence | reflexivity].
      * destruct (Ascii.ascii_dec k c); [|reflexivity].
        now rewrite !prefix_nil_l.
    + cbn [String.prefix]. destruct (Ascii.ascii_dec k c); [|reflexivity].
      now rewrite !prefix_nil_l.
  - assert (Hk' : ends_with_space (String k' key) = false) by exact Hk.
    assert (Hne' : String k' key <> "") by discriminate.
    specialize (IH (String k' key) Hne' Hk').
    cbn [Str.rstrip]. destruct (Str.rstrip s) as [|d t] eqn:Et.
    + rewrite prefix_nil_r in IH by exact Hne'.
      destruct (Str.is_space c).
      * cbn [String.prefix]. destruct (Ascii.ascii_dec k c); [|reflexivity].
        now rewrite <- IH.
      * cbn [String.prefix]. destruct (Ascii.ascii_dec k c); [|reflexivity].
        now rewrite <- IH.
    + cbn [String.prefix]. destruct (Ascii.ascii_dec k c); [|reflexivity].
      exact IH.
Qed.

Lemma contains_nil_r (key : string) : key <> "" -> Str.contains key "" = false.
Proof. intro H. cbn [Str.contains]. now rewrite prefix_nil_r. Qed.

Lemma contains_rstrip (key s : string) :
  key <> "" -> ends_with_space key = false ->
  Str.contains key (Str.rstrip s) = Str.contains key s.
Proof.
  intros Hne Hk. induction s as [|c s IH]; [reflexivity|].
  cbn [Str.contains]. rewrite <- (prefix_rstrip key (String c s) Hne Hk), <- IH.
  cbn [Str.rstrip]. destruct (Str.rstrip s) as [|d t].
  - rewrite (contains_nil_r key Hne), orb_false_r.
    destruct (Str.is_space c).
    + rewrite (contains_nil_r key Hne), (prefix_nil_r key Hne). reflexivity.
    + cbn [Str.contains]. now rewrite (prefix_nil_r key Hne), !orb_false_r.
  - reflexivity.
Qed.

Lemma contains_strip (key s : string) :
  trimmed key -> Str.contains key (Str.strip s) = Str.contains key s.
Proof.
  intros (Hne & Hs & He). unfold Str.strip.
  now rewrite contains_rstrip, contains_lstrip.
Qed.

Lemma first_match_strip (db : list (string * string)) (s : string) :
  (forall k a, In (k, a) db -> trimmed k) ->
  first_match db (Str.strip s) = first_match db s.
Proof.
  induction db as [|(k, a) db IH]; intro H; cbn [first_match]; [reflexivity|].
  rewrite (contains_strip k s) by (apply (H k a); now left).
  rewrite IH; [reflexivity|]. intros k' a' Hin. apply (H k' a'). now right.
Qed.

Lemma get_waste_advice_scan (query : string) :
  get_waste_advice query = scan (Str.lower query).
Proof.
  unfold get_waste_advice, scan.
  now rewrite (first_match_strip database _ keys_trimmed).
Qed.

Lemma scan_cases (s : string) :
  (exists key, In (key, scan s) database /\ substring key s) \/
  ((forall key, In key keys -> ~ substring key s) /\ scan s = default_advice).
Proof.
  unfold scan. destruct (first_match database s) as [advice|] eqn:E.
  - left. destruct (first_match_some _ _ _ E) as (key & Hin & Hc).
    exists key. split; [exact Hin | now apply contains_spec].
  - right. split; [|reflexivity].
    intros key Hin. apply in_map_iff in Hin as ((k, a) & <- & Hin).
    apply contains_false. rewrite <- first_match_none in E. exact (E k a Hin).
Qed.

End AdviceMore.

Section AdviceProperties.

Local Open Scope string_scope.

Lemma scan_of_key (key advice : string) :
  In (key, advice) database -> scan key = advice.
Proof.
  assert (H : forallb (fun kv => String.eqb (scan (fst kv)) (snd kv)) database
              = true) by reflexivity.
  rewrite forallb_forall in H. intro Hin.
  apply String.eqb_eq. exact (H _ Hin).
Qed.

Lemma get_waste_advice_pad (a q b : string) :
  all_space a = true -> all_space b = true ->
  get_waste_advice (a ++ q ++ b) = get_waste_advice q.
Proof.
  intros Ha Hb. unfold get_waste_advice.
  change (Str.strip (Str.lower (a ++ q ++ b))) with (normalize (a ++ q ++ b)).
  now rewrite normalize_pad.
Qed.

(** X17.  Every key of the table gets its own advice back, however it is
    capitalized and whatever whitespace surrounds it: a query whose
    lower-case form is a key, padded with whitespace on either side, is
    answered with that key's advice. *)
Theorem advice_of_each_key (key advice query a b : string) :
  In (key, advice) database ->
  Str.lower query = key ->
  all_space a = true -> all_space b = true ->
  get_waste_advice (a ++ query ++ b) = advice.
Proof.
  intros Hin Hq Ha Hb.
  rewrite get_waste_advice_pad by assumption.
  rewrite get_waste_advice_scan, Hq. now apply scan_of_key.
Qed.

Lemma advice_of_each_key_witness :
  get_waste_advice ("  " ++ "Glass JAR" ++ " ") = "Recycle".
Proof.
  apply (advice_of_each_key "glass jar" "Recycle" "Glass JAR" "  " " ").
  - do 7 right. left. reflexivity.
  - reflexivity.
  - reflexivity.
  - reflexivity.
Defined.

(** X18.  Trimming never changes the answer: the advice is the result of
    scanning the lower-cased query as it is.  So a query gets a table
    entry exactly when some key occurs anywhere in its lower-case form, a
    query that matches keeps matching when text is put before or after it,
    and every answer is the default message or an advice of the table. *)
Theorem advice_for_any_mention (query : string) :
  get_waste_advice query = scan (Str.lower query) /\
  ((exists key, In key keys /\ substring key (Str.lower query)) <->
   get_waste_advice query <> default_advice) /\
  (forall a b,
      get_waste_advice query <> default_advice ->
      get_waste_advice (a ++ query ++ b) <> default_advice) /\
  (get_waste_advice query = default_advice \/
   exists key, In (key, get_waste_advice query) database).
Proof.
  assert (Hiff : forall q,
             (exists key, In key keys /\ substring key (Str.lower q)) <->
             get_waste_advice q <> default_advice).
  { intro q. rewrite get_waste_advice_scan.
    destruct (scan_cases (Str.lower q)) as [(key & Hin & Hs) | (Hnone & E)].
    - split.
      + intros _. exact (advice_is_not_default _ _ Hin).
      + intros _. exists key. split; [exact (in_keys _ _ Hin) | exact Hs].
    - split.
      + intros (key & Hin & Hs). now elim (Hnone key Hin).
      + intro H. now elim H. }
  split; [apply get_waste_advice_scan|]. split; [apply Hiff|]. split.
  - intros a b H. apply Hiff. apply Hiff in H as (key & Hin & Hs).
    exists key. split; [exact Hin|].
    rewrite !lower_append. eapply substring_trans; [exact Hs|].
    now exists (Str.lower a), (Str.lower b).
  - rewrite get_waste_advice_scan.
    destruct (scan_cases (Str.lower query)) as [(key & Hin & _) | (_ & E)].
    + right. now exists key.
    + now left.
Qed.

Lemma advice_for_any_mention_witness :
  get_waste_advice ("where do " ++ "Old BATTERIES" ++ " go?") <> default_advice.
Proof.
  destruct (advice_for_any_mention "Old BATTERIES") as (_ & _ & H & _).
  apply H. discriminate.
Defined.

(** X19.  A query too short to hold a key gets the default message: every
    query of fewer than 9 characters, the empty one included, and every
    query made of whitespace only. *)
Theorem short_or_blank_gets_default (query : string) :
  ((String.length query < 9)%nat -> get_waste_advice query = default_advice) /\
  (all_space query = true -> get_waste_advice query = default_advice).
Proof.
  split.
  - intro Hlen. apply get_waste_advice_default. intros key Hin Hs.
    assert (Hk : (9 <= String.length key)%nat).
    { assert (H : forallb (fun k => 9 <=? String.length k)%nat keys = true)
        by reflexivity.
      rewrite forallb_forall in H. apply Nat.leb_le. now apply H. }
    apply substring_length in Hs.
    pose proof (substring_length _ _ (strip_substring (Str.lower query))) as H.
    rewrite length_lower in H. unfold normalize in Hs. lia.
  - intro Hsp. unfold get_waste_advice, Str.strip.
    rewrite lstrip_all_space by now rewrite all_space_lower.
    reflexivity.
Qed.

Lemma short_or_blank_gets_default_witness :
  get_waste_advice "can" = default_advice /\
  get_waste_advice "   " = default_advice.
Proof.
  split.
  - apply (proj1 (short_or_blank_gets_default "can")). simpl. lia.
  - apply (proj2 (short_or_blank_gets_default "   ")). reflexivity.
Defined.

(** X20.  The answer depends on the query only through its lower-case
    form without the surrounding whitespace: two queries with the same
    lower-case form get the same answer, and so do a query and the same
    query with whitespace added at either end. *)
Theorem advice_ignores_case_and_padding (query : string) :
  get_waste_advice (Str.lower query) = get_waste_advice query /\
  (forall other,
      Str.lower other = Str.lower query ->
      get_waste_advice other = get_waste_advice query) /\
  (forall a b,
      all_space a = true -> all_space b = true ->
      get_waste_advice (a ++ query ++ b) = get_waste_advice query).
Proof.
  split; [|split].
  - unfold get_waste_advice. now rewrite lower_idempotent.
  - intros other H. unfold get_waste_advice. now rewrite H.
  - intros a b. apply get_waste_advice_pad.
Qed.

Lemma advice_ignores_case_and_padding_witness :
  get_waste_advice (" " ++ "PIZZA box" ++ "  ") = get_waste_advice "PIZZA box" /\
  get_waste_advice "Pizza Box" = get_waste_advice "PIZZA box".
Proof.
  destruct (advice_ignores_case_and_padding "PIZZA box") as (_ & Hcase & Hpad).
  split.
  - apply Hpad; reflexivity.
  - apply Hcase. reflexivity.
Defined.

End AdviceProperties.

(** ** Saving, then the dashboard *)

Lemma total_app (f : WasteRecord -> Q) (rs extra : RecordSet) :
  total f (rs ++ extra) == total f rs + total f extra.
Proof. unfold total. rewrite map_app. apply Qsum_app. Qed.

(** X21.  After an entry is saved, the dashboard of the reloaded table
    shows each total raised by the entry's quantity and the grand total
    raised by the sum of the three, and the table has one more period:
    exactly so when the stored and the new quantities are whole numbers
    within the range of the form. *)
Theorem dashboard_after_save (today later : Z) (rs : RecordSet) (r c l : Q) :
  Forall record_in_range (rs ++ [mkRecord today r c l]) ->
  Forall whole_record (rs ++ [mkRecord today r c l]) ->
  (Z.of_nat (S (List.length rs)) <= 2 ^ 40)%Z ->
  exists df m tr tc tl g,
    fst (load_data later
           (snd (save_entry today (Fin r) (Fin c) (Fin l)
                   (Some (Csv (frame_of rs))))))
    = Ok df /\
    Pandas.len df = S (List.length rs) /\
    aggregate df = Ok m /\
    Number.value (total_recycling m) = Fin tr /\
    Number.value (total_compost m) = Fin tc /\
    Number.value (total_landfill m) = Fin tl /\
    Number.value (grand_total m) = Fin g /\
    tr == total recycling_kg rs + r /\
    tc == total compost_kg rs + c /\
    tl == total landfill_kg rs + l /\
    g == total recycling_kg rs + total compost_kg rs
         + total landfill_kg rs + (r + c + l).
Proof.
  intros F W Hn.
  rewrite save_entry_frame_of. cbn [snd]. rewrite load_data_table. cbn [fst].
  set (rs' := rs ++ [mkRecord today r c l]) in *.
  assert (Hn' : (Z.of_nat (List.length rs') <= 2 ^ 40)%Z).
  { unfold rs'. rewrite length_app. cbn [List.length].
    replace (List.length rs + 1)%nat with (S (List.length rs)) by lia.
    exact Hn. }
  destruct (aggregate_whole rs' F W Hn')
    as (m & tr & tc & tl & g & E & Vr & Vc & Vl & Vg & Hr & Hc & Hl & Hg).
  exists (frame_of rs'), m, tr, tc, tl, g. split; [reflexivity|].
  split; [rewrite len_frame_of; unfold rs'; rewrite length_app; simpl; lia|].
  split; [exact E|]. do 4 (split; [assumption|]).
  assert (S1 : forall f, total f [mkRecord today r c l]
                         == f (mkRecord today r c l)).
  { intro f. unfold total. cbn [map]. rewrite Qsum_cons, Qsum_nil. ring. }
  pose proof (S1 recycling_kg) as Sr. pose proof (S1 compost_kg) as Sc.
  pose proof (S1 landfill_kg) as Sl.
  cbn [recycling_kg compost_kg landfill_kg] in Sr, Sc, Sl.
  pose proof (total_app recycling_kg rs [mkRecord today r c l]) as Ar.
  pose proof (total_app compost_kg rs [mkRecord today r c l]) as Ac.
  pose proof (total_app landfill_kg rs [mkRecord today r c l]) as Al.
  fold rs' in Ar, Ac, Al.
  repeat split; lra.
Qed.

Lemma dashboard_after_save_witness :
  exists df m,
    fst (load_data 9
           (snd (save_entry 8 (Fin 10) (Fin 5) (Fin 20)
                   (Some (Csv (frame_of (seed_records 0)))))))
    = Ok df /\
    Pandas.len df = 6%nat /\ aggregate df = Ok m.
Proof.
  destruct (dashboard_after_save 8 9 (seed_records 0) 10 5 20)
    as (df & m & tr & tc & tl & g & E & L & A & _).
  - repeat constructor; cbn; discriminate.
  - repeat constructor; vm_compute; reflexivity.
  - vm_compute. discriminate.
  - exists df, m. repeat split; assumption.
Defined.
